(** * Occupancy-grid mapping: a shallow embedding of [advanced_mapping.py]

    The development follows the class [AdvancedMapper]: the occupancy grid
    (a square numpy [int8] array indexed [[y, x]]), the coordinate
    transform [polar_to_cartesian], the densifier [interpolate_scan], the
    ray caster [mark_free_space] with its caller [update_map_from_scan],
    and the dead-reckoning step [update_car_position]; then the sweep
    [scan_environment] with the servo and the range finder it drives
    ([MockServo] and [MockUltrasonic] of [hardware_mock.py] among them),
    the picture [visualize_map], and the test run [test_mapping].

    Modelling conventions.
    - Python [int] is [Z]; [//] and [%] are [Z.div] and [Z.modulo], which
      round toward minus infinity exactly as Python does.
    - Distances are Python floats, that is binary64.  A float is modelled
      by the real number it stands for; infinities and NaN are outside
      the model.  Where a result is turned into a cell, in
      [polar_to_cartesian] and [update_car_position], every operation is
      the exact one followed by the rounding to binary64, and [math.cos]
      and [math.sin] are what the C library returns: the rounding and
      the two functions are parameters (the class [Float64]), so that
      what is proved holds whichever way a tie falls.  The few facts of
      binary64 and of the C library that a theorem relies on are stated in
      the class [Float64Laws], which the theorem then names.  [round]
      rounds half to even.  The interpolation of distances is taken
      without rounding error: no cell or count depends on it.
    - A numpy array is a list of rows; an index is normalised the way numpy
      does it (a negative index counts from the end, anything else out of
      range raises [IndexError]).
    - Methods mutate [self]; here they return the updated object inside
      the [outcome] monad, whose [Raise] carries the Python exception.
    - The [while] loop of [mark_free_space] runs on fuel; [OutOfFuel] is
      the only outcome that does not correspond to a Python behaviour and
      is shown never to happen.
    - The hardware is state passed along: a servo and a sensor are values
      of any types with the methods [scan_environment] calls.  Delays and
      console output are left out, but for the lines and the counts of
      [visualize_map].  When a call raises, the state it leaves behind is
      not reported. *)

From Stdlib Require Import ZArith Reals Lra Lia.
From stdpp Require Import base tactics option list sorting strings gmap.

Open Scope Z_scope.

(** ** Exceptions and the outcome monad *)

Inductive exn : Type :=
| IndexError
| ZeroDivisionError
| ValueError
| FileNotFoundError.

Inductive outcome (A : Type) : Type :=
| Ok (a : A)
| Raise (e : exn)
| OutOfFuel.

Arguments Ok {A} a.
Arguments Raise {A} e.
Arguments OutOfFuel {A}.

#[global] Instance exn_eq_dec : EqDecision exn.
Proof. solve_decision. Defined.

#[global] Instance outcome_eq_dec {A : Type} `{EqDecision A} : EqDecision (outcome A).
Proof. solve_decision. Defined.

#[global] Instance outcome_ret : MRet outcome := fun A a => Ok a.

#[global] Instance outcome_bind : MBind outcome := fun A B f m =>
  match m with
  | Ok a => f a
  | Raise e => Raise e
  | OutOfFuel => OutOfFuel
  end.

(** ** Configuration constants *)

Definition MAP_SIZE : Z := 100.
Definition MAP_CENTER : Z := MAP_SIZE / 2.
Definition SCAN_STEP : Z := 15.
Definition MAX_DISTANCE : R := 100%R.
Definition OBSTACLE_THRESHOLD : R := 80%R.

(** Occupancy states, the three [int8] values the grid holds. *)
Definition UNKNOWN : Z := -1.
Definition FREE : Z := 0.
Definition OCCUPIED : Z := 1.

(** ** The numpy array *)

Abbreviation grid := (list (list Z)) (only parsing).

(** [np.full((n, n), v)]; a negative dimension raises [ValueError]. *)
Definition np_full (n : Z) (v : Z) : outcome grid :=
  if bool_decide (n < 0) then Raise ValueError
  else Ok (replicate (Z.to_nat n) (replicate (Z.to_nat n) v)).

(** Index normalisation along an axis of length [n]. *)
Definition np_index (n : nat) (i : Z) : option nat :=
  if bool_decide (0 <= i < Z.of_nat n) then Some (Z.to_nat i)
  else if bool_decide (- Z.of_nat n <= i < 0) then Some (Z.to_nat (i + Z.of_nat n))
  else None.

(** [a[y, x]] *)
Definition grid_get (g : grid) (y x : Z) : outcome Z :=
  match np_index (length g) y with
  | None => Raise IndexError
  | Some r =>
      match g !! r with
      | None => Raise IndexError
      | Some row =>
          match np_index (length row) x with
          | None => Raise IndexError
          | Some c =>
              match row !! c with
              | None => Raise IndexError
              | Some v => Ok v
              end
          end
      end
  end.

(** [a[y, x] = v] *)
Definition grid_set (g : grid) (y x : Z) (v : Z) : outcome grid :=
  match np_index (length g) y with
  | None => Raise IndexError
  | Some r =>
      match g !! r with
      | None => Raise IndexError
      | Some row =>
          match np_index (length row) x with
          | None => Raise IndexError
          | Some c => Ok (<[r := <[c := v]> row]> g)
          end
      end
  end.

(** The shape invariant of the occupancy map: [n] rows of [n] cells. *)
Definition square (n : Z) (g : grid) : Prop :=
  Z.of_nat (length g) = n /\ Forall (fun row => Z.of_nat (length row) = n) g.

(** ** The mapper object *)

(** The fields of [self] the mapping methods read and write; the scan
    history, which only [scan_environment] fills, is left out. *)
Record AdvancedMapper : Type := {
  map_size : Z;
  map_center : Z;
  occupancy_map : grid;
  car_x : Z;
  car_y : Z;
  car_angle : Z
}.

(** [self.occupancy_map = g] *)
Definition with_map (self : AdvancedMapper) (g : grid) : AdvancedMapper :=
  {| map_size := map_size self; map_center := map_center self;
     occupancy_map := g;
     car_x := car_x self; car_y := car_y self; car_angle := car_angle self |}.

(** [AdvancedMapper.__init__] *)
Definition init (n : Z) : outcome AdvancedMapper :=
  g ← np_full n UNKNOWN;
  Ok {| map_size := n; map_center := n / 2; occupancy_map := g;
        car_x := n / 2; car_y := n / 2; car_angle := 0 |}.

(** [clear_map] *)
Definition clear_map (self : AdvancedMapper) : outcome AdvancedMapper :=
  g ← np_full (map_size self) UNKNOWN;
  Ok (with_map self g).

(** The mapper invariant: the occupancy map is [map_size] by [map_size],
    as [__init__] and [clear_map] make it. *)
Definition wf_mapper (self : AdvancedMapper) : Prop :=
  square (map_size self) (occupancy_map self).

(** ** Ray casting: [mark_free_space] *)

(** [0 <= x < self.map_size and 0 <= y < self.map_size] *)
Definition in_map (n x y : Z) : bool :=
  bool_decide (0 <= x < n) && bool_decide (0 <= y < n).

(** The guarded write in the body of the loop:
    mark as free, but do not overwrite obstacles. *)
Definition free_cell (n : Z) (g : grid) (x y : Z) : outcome grid :=
  if in_map n x y then
    v ← grid_get g y x;
    if bool_decide (v <> OCCUPIED) then grid_set g y x FREE else Ok g
  else Ok g.

Section Bresenham.
Variables (dx dy sx sy : Z).

(** The two conditional advances that end an iteration, on the loop
    variables [(x, y, err)]. *)
Definition advance (s : Z * Z * Z) : Z * Z * Z :=
  let '(x, y, err) := s in
  let e2 := 2 * err in
  let '(err1, x') := if bool_decide (e2 > - dy) then (err - dy, x + sx) else (err, x) in
  let '(err2, y') := if bool_decide (e2 < dx) then (err1 + dx, y + sy) else (err1, y) in
  (x', y', err2).

Variables (n x2 y2 : Z).

(** [while not (x == x2 and y == y2): ...] *)
Fixpoint mark_free_loop (fuel : nat) (g : grid) (s : Z * Z * Z) : outcome grid :=
  let '(x, y, _) := s in
  if bool_decide (x = x2 /\ y = y2) then Ok g
  else
    match fuel with
    | O => OutOfFuel
    | S fuel' =>
        g' ← free_cell n g x y;
        mark_free_loop fuel' g' (advance s)
    end.

(** The cells the loop visits, in order; the end point is not among them. *)
Fixpoint ray (fuel : nat) (s : Z * Z * Z) : list (Z * Z) :=
  let '(x, y, _) := s in
  if bool_decide (x = x2 /\ y = y2) then []
  else
    match fuel with
    | O => []
    | S fuel' => (x, y) :: ray fuel' (advance s)
    end.
End Bresenham.

(** [mark_free_space] on the array: the set-up of Bresenham's algorithm and
    the loop, with fuel for the [dx + dy] advances it can make. *)
Definition mark_free_grid (n : Z) (g : grid) (x1 y1 x2 y2 : Z) : outcome grid :=
  let dx := Z.abs (x2 - x1) in
  let dy := Z.abs (y2 - y1) in
  let sx := if bool_decide (x1 < x2) then 1 else -1 in
  let sy := if bool_decide (y1 < y2) then 1 else -1 in
  let err := dx - dy in
  mark_free_loop dx dy sx sy n x2 y2 (Z.to_nat (dx + dy)) g (x1, y1, err).

(** [mark_free_space] *)
Definition mark_free_space (self : AdvancedMapper) (x1 y1 x2 y2 : Z)
  : outcome AdvancedMapper :=
  g ← mark_free_grid (map_size self) (occupancy_map self) x1 y1 x2 y2;
  Ok (with_map self g).

(** The cells [mark_free_space] visits between the two end points. *)
Definition ray_cells (x1 y1 x2 y2 : Z) : list (Z * Z) :=
  let dx := Z.abs (x2 - x1) in
  let dy := Z.abs (y2 - y1) in
  let sx := if bool_decide (x1 < x2) then 1 else -1 in
  let sy := if bool_decide (y1 < y2) then 1 else -1 in
  ray dx dy sx sy x2 y2 (Z.to_nat (dx + dy)) (x1, y1, dx - dy).

(** The cells of a list freed one after the other: what the loop does to
    the array along the cells it visits. *)
Fixpoint free_cells (n : Z) (g : grid) (cs : list (Z * Z)) : outcome grid :=
  match cs with
  | [] => Ok g
  | (x, y) :: cs' => g' ← free_cell n g x y; free_cells n g' cs'
  end.

(** The line drawing as the specification words it: from the loop
    variables [(x, y, err)], stop at the hit cell, and otherwise visit
    [(x, y)], advance [x] when [2 * err > - dy], advance [y] when
    [2 * err < dx], and go on.  No fuel is involved. *)
Inductive bresenham_walk (dx dy sx sy x2 y2 : Z) : Z * Z * Z -> list (Z * Z) -> Prop :=
| walk_stop err :
    bresenham_walk dx dy sx sy x2 y2 (x2, y2, err) []
| walk_step x y err cs :
    ~ (x = x2 /\ y = y2) ->
    bresenham_walk dx dy sx sy x2 y2
      (if bool_decide (2 * err > - dy) then x + sx else x,
       if bool_decide (2 * err < dx) then y + sy else y,
       (if bool_decide (2 * err > - dy) then err - dy else err)
       + (if bool_decide (2 * err < dx) then dx else 0)) cs ->
    bresenham_walk dx dy sx sy x2 y2 (x, y, err) ((x, y) :: cs).

(** The line from [(x1, y1)] to the hit cell [(x2, y2)]: [dx], [dy] the
    absolute differences, [sx], [sy] the step signs, [err] starting at
    [dx - dy]. *)
Definition bresenham_line (x1 y1 x2 y2 : Z) (cs : list (Z * Z)) : Prop :=
  bresenham_walk (Z.abs (x2 - x1)) (Z.abs (y2 - y1))
    (if bool_decide (x1 < x2) then 1 else -1)
    (if bool_decide (y1 < y2) then 1 else -1)
    x2 y2 (x1, y1, Z.abs (x2 - x1) - Z.abs (y2 - y1)) cs.

(** ** Floating-point primitives *)

#[global] Instance Rle_decision (x y : R) : Decision (x <= y)%R := Rle_dec x y.
#[global] Instance Rlt_decision (x y : R) : Decision (x < y)%R := Rlt_dec x y.
#[global] Instance Rge_decision (x y : R) : Decision (x >= y)%R := Rge_dec x y.
#[global] Instance Rgt_decision (x y : R) : Decision (x > y)%R := Rgt_dec x y.

(** The parameters of binary64 arithmetic: [fl] rounds a real number to
    the nearest float, a tie going to the even mantissa; [math_cos] and
    [math_sin] are the two functions of the C library, on floats. *)
Class Float64 : Type := {
  fl : R -> R;
  math_cos : R -> R;
  math_sin : R -> R
}.

(** [float(n)] for an [int], and [+] and [*] on floats: the exact result,
    rounded. *)
Definition of_int {F64 : Float64} (n : Z) : R := fl (IZR n).

Definition fadd {F64 : Float64} (x y : R) : R := fl (x + y).

Definition fmul {F64 : Float64} (x y : R) : R := fl (x * y).

(** [degToRad], the float nearest to pi / 180: [0x1.1df46a2529d39p-6]. *)
Definition deg_to_rad : R := (IZR 5030569068109113 / IZR (2 ^ 58))%R.

(** [math.radians] of an [int]: one conversion and one multiplication. *)
Definition radians {F64 : Float64} (deg : Z) : R := fmul (of_int deg) deg_to_rad.

(** What the theorems on numbers use of binary64 and of the C library.
    Rounding is monotone; a number [n / 2^k] with [n] of at most 53 bits
    and [k] up to 1000 is a float; [cos] and [sin] return 1 and 0 at 0,
    stay within [-1, 1], and over [-8, 8] are within [2^-20] of the
    mathematical functions. *)
Class Float64Laws {F64 : Float64} : Prop := {
  fl_mono : forall x y : R, (x <= y)%R -> (fl x <= fl y)%R;
  fl_exact : forall n k : Z, Z.abs n <= 2 ^ 53 -> 0 <= k <= 1000 ->
             fl (IZR n / IZR (2 ^ k)) = (IZR n / IZR (2 ^ k))%R;
  math_cos_0 : math_cos 0 = 1%R;
  math_sin_0 : math_sin 0 = 0%R;
  math_cos_range : forall x : R, (-1 <= math_cos x <= 1)%R;
  math_sin_range : forall x : R, (-1 <= math_sin x <= 1)%R;
  math_cos_near : forall x : R, (-8 <= x <= 8)%R ->
                  (Rabs (math_cos x - cos x) <= / 1048576)%R;
  math_sin_near : forall x : R, (-8 <= x <= 8)%R ->
                  (Rabs (math_sin x - sin x) <= / 1048576)%R
}.

(** Arithmetic without rounding error: an instance that satisfies the
    laws, which are therefore consistent.  It is not binary64; it only
    serves to instantiate the theorems at examples whose results are
    the same in binary64. *)
Definition exact_arithmetic : Float64 :=
  {| fl := fun x => x; math_cos := cos; math_sin := sin |}.

(** [round] on a float: to the nearest integer, a tie going to the even
    neighbour. *)
Definition py_round (x : R) : Z :=
  let f := Int_part x in
  let r := (x - IZR f)%R in
  if bool_decide (r < 1 / 2)%R then f
  else if bool_decide (r > 1 / 2)%R then f + 1
  else if Z.even f then f else f + 1.

(** ** Coordinate transform: [polar_to_cartesian] *)

(** The pose arguments are optional and default to the fields of [self];
    the result is [None] when the rounded point is out of bounds. *)
Definition polar_to_cartesian {F64 : Float64} (self : AdvancedMapper) (angle_deg : Z)
    (distance_cm : R) (car_x' car_y' car_angle' : option Z) : option (Z * Z) :=
  let car_x := default (car_x self) car_x' in
  let car_y := default (car_y self) car_y' in
  let car_angle := default (car_angle self) car_angle' in
  let total_angle_rad := radians (car_angle - angle_deg) in
  let x := fadd (of_int car_x) (fmul distance_cm (math_cos total_angle_rad)) in
  let y := fadd (of_int car_y) (fmul distance_cm (math_sin total_angle_rad)) in
  let x_int := py_round x in
  let y_int := py_round y in
  if bool_decide (0 <= x_int < map_size self) && bool_decide (0 <= y_int < map_size self)
  then Some (x_int, y_int)
  else None.

(** ** Densification: [interpolate_scan] *)

(** One pass of the inner loop [for j in range(1, num_points)]. *)
Definition interp_point (angle1 : Z) (dist1 : R) (angle2 : Z) (dist2 : R)
    (interp_step num_points j : Z) : Z * R :=
  let interp_angle :=
    angle1 + j * interp_step * (if bool_decide (angle2 > angle1) then 1 else -1) in
  let t := (IZR j / IZR num_points)%R in
  let interp_dist := (dist1 + (dist2 - dist1) * t)%R in
  (interp_angle, interp_dist).

(** The outer loop over adjacent pairs, [interpolated] being the list
    under construction. *)
Fixpoint interpolate_pairs (step : Z) (scan_data : list (Z * R))
    (interpolated : list (Z * R)) : outcome (list (Z * R)) :=
  match scan_data with
  | (angle1, dist1) :: rest =>
      match rest with
      | (angle2, dist2) :: _ =>
          let interpolated := interpolated ++ [(angle1, dist1)] in
          let interp_step := Z.min 5 (step / 2) in
          if bool_decide (interp_step = 0) then Raise ZeroDivisionError
          else
            let num_points := Z.abs (angle2 - angle1) / interp_step in
            let interpolated :=
              if bool_decide (num_points > 1) then
                fold_left
                  (fun acc j =>
                     acc ++ [interp_point angle1 dist1 angle2 dist2 interp_step num_points j])
                  (seqZ 1 (num_points - 1)) interpolated
              else interpolated in
            interpolate_pairs step rest interpolated
      | [] => Ok interpolated
      end
  | [] => Ok interpolated
  end.

(** [interpolate_scan] *)
Definition interpolate_scan (scan_data : list (Z * R)) (step : Z)
  : outcome (list (Z * R)) :=
  if bool_decide (length scan_data < 2)%nat then Ok scan_data
  else
    interpolated ← interpolate_pairs step scan_data [];
    Ok (match last scan_data with
        | Some p => interpolated ++ [p]
        | None => interpolated
        end).

(** ** Map update: [update_map_from_scan] *)

(** The gate that opens the loop body; [true] means [continue]. *)
Definition dropped (distance : R) : bool :=
  bool_decide (distance <= 0)%R
  || bool_decide (distance >= MAX_DISTANCE)%R
  || bool_decide (distance > OBSTACLE_THRESHOLD)%R.

(** One iteration of [for angle, distance in scan_data]. *)
Definition scan_body {F64 : Float64} (car_x car_y car_angle : Z)
    (acc : AdvancedMapper * Z) (s : Z * R) : outcome (AdvancedMapper * Z) :=
  let '(self, obstacles_found) := acc in
  let '(angle, distance) := s in
  if dropped distance then Ok acc
  else
    match polar_to_cartesian self angle distance
            (Some car_x) (Some car_y) (Some car_angle) with
    | None => Ok acc
    | Some (x_hit, y_hit) =>
        self ← mark_free_space self car_x car_y x_hit y_hit;
        v ← grid_get (occupancy_map self) y_hit x_hit;
        if bool_decide (v <> OCCUPIED) then
          g ← grid_set (occupancy_map self) y_hit x_hit OCCUPIED;
          Ok (with_map self g, obstacles_found + 1)
        else Ok (self, obstacles_found)
    end.

(** [for angle, distance in scan_data: ...], on the mapper and the count
    of new obstacles. *)
Fixpoint scan_loop {F64 : Float64} (car_x car_y car_angle : Z) (acc : AdvancedMapper * Z)
    (scan_data : list (Z * R)) : outcome (AdvancedMapper * Z) :=
  match scan_data with
  | [] => Ok acc
  | s :: rest =>
      acc' ← scan_body car_x car_y car_angle acc s;
      scan_loop car_x car_y car_angle acc' rest
  end.

(** [update_map_from_scan]; it returns [obstacles_found]. *)
Definition update_map_from_scan {F64 : Float64} (self : AdvancedMapper)
    (scan_data : list (Z * R))
    (car_x' car_y' car_angle' : option Z) : outcome (AdvancedMapper * Z) :=
  let car_x := default (car_x self) car_x' in
  let car_y := default (car_y self) car_y' in
  let car_angle := default (car_angle self) car_angle' in
  scan_loop car_x car_y car_angle (self, 0) scan_data.

(** The effect of one accepted sample on the array alone: the ray from
    the car to the hit cell, then the hit cell; [k] is the number of cells
    newly marked occupied (0 or 1). *)
Definition apply_hit (n : Z) (g : grid) (car_x car_y x_hit y_hit : Z)
  : outcome (grid * Z) :=
  g1 ← mark_free_grid n g car_x car_y x_hit y_hit;
  v ← grid_get g1 y_hit x_hit;
  if bool_decide (v <> OCCUPIED) then
    g2 ← grid_set g1 y_hit x_hit OCCUPIED;
    Ok (g2, 1)
  else Ok (g1, 0).

(** The hit cell of a sample, when the sample passes the gate and lands in
    the map. *)
Definition hit_of {F64 : Float64} (self : AdvancedMapper) (car_x car_y car_angle : Z)
    (s : Z * R)
  : option (Z * Z) :=
  if dropped s.2 then None
  else polar_to_cartesian self s.1 s.2 (Some car_x) (Some car_y) (Some car_angle).

(** The accepted samples of a scan applied to the array in order, [k]
    counting the new obstacles. *)
Fixpoint apply_hits (n : Z) (car_x car_y : Z) (g : grid) (k : Z)
    (hits : list (Z * Z)) : outcome (grid * Z) :=
  match hits with
  | [] => Ok (g, k)
  | (x_hit, y_hit) :: rest =>
      r ← apply_hit n g car_x car_y x_hit y_hit;
      apply_hits n car_x car_y r.1 (k + r.2) rest
  end.

(** What an update may do to the array, read through any index: occupied
    stays occupied, free stays free or becomes occupied. *)
Definition grows (g g' : grid) : Prop :=
  forall y x,
    (grid_get g y x = Ok OCCUPIED -> grid_get g' y x = Ok OCCUPIED) /\
    (grid_get g y x = Ok FREE ->
     grid_get g' y x = Ok FREE \/ grid_get g' y x = Ok OCCUPIED).

(** A hit whose ray and hit cell are already recorded in the array. *)
Definition settled (n : Z) (car_x car_y : Z) (g : grid) (h : Z * Z) : Prop :=
  grid_get g h.2 h.1 = Ok OCCUPIED /\
  forall c, c ∈ ray_cells car_x car_y h.1 h.2 -> in_map n c.1 c.2 = true ->
            grid_get g c.2 c.1 = Ok FREE \/ grid_get g c.2 c.1 = Ok OCCUPIED.

(** ** Localisation: [update_car_position] *)

(** Rotate first, then translate along the new heading and clamp. *)
Definition update_car_position {F64 : Float64} (self : AdvancedMapper) (distance_cm : R)
    (delta_angle_deg : Z) : AdvancedMapper :=
  let car_angle := (car_angle self + delta_angle_deg) mod 360 in
  if bool_decide (distance_cm > 0)%R then
    let angle_rad := radians car_angle in
    let car_x := car_x self + py_round (fmul distance_cm (math_cos angle_rad)) in
    let car_y := car_y self + py_round (fmul distance_cm (math_sin angle_rad)) in
    {| map_size := map_size self; map_center := map_center self;
       occupancy_map := occupancy_map self;
       car_x := Z.max 0 (Z.min (map_size self - 1) car_x);
       car_y := Z.max 0 (Z.min (map_size self - 1) car_y);
       car_angle := car_angle |}
  else
    {| map_size := map_size self; map_center := map_center self;
       occupancy_map := occupancy_map self;
       car_x := car_x self; car_y := car_y self;
       car_angle := car_angle |}.

(** The in-range index a numpy index stands for: negative indices count
    from the end. *)
Definition canon (n i : Z) : Z := if bool_decide (i < 0) then i + n else i.

(** The invariant of the loop of [mark_free_space] started at [(x1, y1)]:
    after [a] advances of [x] and [b] advances of [y] the loop variables
    are determined, and neither count overshoots. *)
Definition on_line (x1 y1 dx dy sx sy : Z) (a b : Z) (s : Z * Z * Z) : Prop :=
  0 <= a <= dx /\ 0 <= b <= dy /\
  s = (x1 + sx * a, y1 + sy * b, (b + 1) * dx - (a + 1) * dy).

(** ** Rounding as specified *)

(** "Rounded to the nearest integer": [n] is at most one half away from
    [v], and is the even one of the two when [v] lies half way. *)
Definition nearest_int (v : R) (n : Z) : Prop :=
  (Rabs (IZR n - v) <= 1 / 2)%R /\
  ((Rabs (IZR n - v) = 1 / 2)%R -> Z.even n = true).

(** ** The densifier as specified *)

(** The interpolation as the specification words it.  Between two adjacent
    samples: with the sub-step [min 5 (step // 2)] and
    [steps = |bearing2 - bearing1| // sub_step], when [steps > 1] there are
    [steps - 1] points, number [j] at bearing [bearing1] moved [j]
    sub-steps toward [bearing2], at distance [d1 + (d2 - d1) * (j / steps)]. *)
Definition sub_step (step : Z) : Z := Z.min 5 (step / 2).

Definition between (step : Z) (p1 p2 : Z * R) : list (Z * R) :=
  let steps := Z.abs (p2.1 - p1.1) / sub_step step in
  let toward := if bool_decide (p1.1 < p2.1) then 1 else -1 in
  if bool_decide (steps > 1) then
    (fun j => (p1.1 + toward * (j * sub_step step),
               (p1.2 + (p2.2 - p1.2) * (IZR j / IZR steps))%R)) <$> seqZ 1 (steps - 1)
  else [].

(** Each pair gives its first sample and the points between; the final
    sample closes the list.  Fewer than two samples are returned as they
    are. *)
Fixpoint interpolate_spec (step : Z) (samples : list (Z * R)) : list (Z * R) :=
  match samples with
  | p1 :: rest =>
      match rest with
      | p2 :: _ => p1 :: between step p1 p2 ++ interpolate_spec step rest
      | [] => [p1]
      end
  | [] => []
  end.

(** What the outer loop has appended when it ends. *)
Fixpoint pairs_out (step : Z) (samples : list (Z * R)) : list (Z * R) :=
  match samples with
  | p1 :: rest =>
      match rest with
      | p2 :: _ => p1 :: between step p1 p2 ++ pairs_out step rest
      | [] => []
      end
  | [] => []
  end.

(** ** Persistence: [save_map] and [load_map] *)

(** Modelled from the spec: [np.save] and [np.load], which belong to numpy
    and not to the sources.  The specification fixes the layout: a small
    header with the dimensions (width, height) precedes the cells, one
    signed byte per cell, row after row.  Here each dimension takes four
    bytes, least significant first, and a byte is an integer in
    [[0, 256)]. *)
Definition byte_of_int8 (v : Z) : Z := v mod 256.

Definition int8_of_byte (b : Z) : Z := if bool_decide (b < 128) then b else b - 256.

Definition le32 (n : Z) : list Z :=
  [n mod 256; (n / 256) mod 256; (n / 65536) mod 256; (n / 16777216) mod 256].

Definition of_le32 (b0 b1 b2 b3 : Z) : Z :=
  b0 + 256 * b1 + 65536 * b2 + 16777216 * b3.

Definition np_save (a : grid) : list Z :=
  let height := Z.of_nat (length a) in
  let width := match a with [] => 0 | row :: _ => Z.of_nat (length row) end in
  le32 width ++ le32 height ++ concat (map (map byte_of_int8) a).

Fixpoint rows_of (height width : nat) (cells : list Z) : list (list Z) :=
  match height with
  | O => []
  | S height' => take width cells :: rows_of height' width (drop width cells)
  end.

Definition np_load (bytes : list Z) : outcome grid :=
  match bytes with
  | w0 :: w1 :: w2 :: w3 :: h0 :: h1 :: h2 :: h3 :: cells =>
      let width := Z.to_nat (of_le32 w0 w1 w2 w3) in
      let height := Z.to_nat (of_le32 h0 h1 h2 h3) in
      if bool_decide (length cells = (height * width)%nat)
      then Ok (map (map int8_of_byte) (rows_of height width cells))
      else Raise ValueError
  | _ => Raise ValueError
  end.

(** [file.endswith(suffix)] *)
Definition endswith (s suffix : string) : bool :=
  bool_decide (String.length suffix <= String.length s)%nat &&
  String.eqb (String.substring (String.length s - String.length suffix)
                               (String.length suffix) s) suffix.

(** The file [np.save] writes: to a name that does not end in [.npy] it
    appends [.npy]. *)
Definition npy_file (filename : string) : string :=
  if endswith filename ".npy" then filename else filename +:+ ".npy".

(** [save_map]: the mapper is left as it is, the file is written. *)
Definition save_map (self : AdvancedMapper) (filename : string)
    (fs : gmap string (list Z)) : gmap string (list Z) :=
  <[npy_file filename := np_save (occupancy_map self)]> fs.

(** [load_map]: [np.load] opens the name it is given, as it is; the array
    read replaces the occupancy map; [map_size] is not touched. *)
Definition load_map (self : AdvancedMapper) (filename : string)
    (fs : gmap string (list Z)) : outcome AdvancedMapper :=
  match fs !! filename with
  | None => Raise FileNotFoundError
  | Some bytes => g ← np_load bytes; Ok (with_map self g)
  end.

(** The cells of an [int8] array. *)
Definition int8_cells (g : grid) : Prop :=
  Forall (Forall (fun v => -128 <= v <= 127)) g.

(** ** Two mappers for the examples *)

(** A 3 x 3 map with an obstacle at [(x, y) = (1, 0)] and the car at the
    centre. *)
Definition small_mapper : AdvancedMapper :=
  {| map_size := 3; map_center := 1;
     occupancy_map := [[UNKNOWN; OCCUPIED; FREE];
                       [UNKNOWN; UNKNOWN; UNKNOWN];
                       [UNKNOWN; UNKNOWN; UNKNOWN]];
     car_x := 1; car_y := 1; car_angle := 0 |}.

(** The mapper [AdvancedMapper()] builds, with the car moved to a pose. *)
Definition mapper_at (x y heading : Z) : AdvancedMapper :=
  {| map_size := 100; map_center := 50;
     occupancy_map := replicate 100 (replicate 100 UNKNOWN);
     car_x := x; car_y := y; car_angle := heading |}.

(** The rounding invariant of the line drawing: after [a] advances of [x]
    and [b] advances of [y], the advance count of the minor axis is the
    one nearest to the straight line at this point of the major axis. *)
Definition near_line (dx dy a b : Z) : Prop :=
  (dy <= dx -> (2 * b - 1) * dx < 2 * a * dy <= (2 * b + 1) * dx) /\
  (dx <= dy -> (2 * a - 1) * dy < 2 * b * dx <= (2 * a + 1) * dy).

(** A move of the king on the chess board: one step along a row, a column
    or a diagonal. *)
Definition king_step (c c' : Z * Z) : Prop :=
  Z.abs (c'.1 - c.1) <= 1 /\ Z.abs (c'.2 - c.2) <= 1 /\ c <> c'.

(** A list of cells each a king's move from the one before. *)
Fixpoint king_path (l : list (Z * Z)) : Prop :=
  match l with
  | c :: l' =>
      match l' with
      | c' :: _ => king_step c c' /\ king_path l'
      | [] => True
      end
  | [] => True
  end.

(** The cells that lie on the ray from the car to one of the hit cells. *)
Definition on_some_ray (car_x car_y : Z) (hits : list (Z * Z)) (c : Z * Z) : Prop :=
  Exists (fun h => c ∈ ray_cells car_x car_y h.1 h.2) hits.

(** The hit cells that are not yet occupied in the array, as a set. *)
Definition new_obstacles (g : grid) (hits : list (Z * Z)) : gset (Z * Z) :=
  list_to_set (filter (fun h => grid_get g h.2 h.1 <> Ok OCCUPIED) hits).

(** ** Scanning: [scan_environment] and the hardware it drives *)

(** The default sweep: [SCAN_ANGLE_MIN] and [SCAN_ANGLE_MAX]. *)
Definition SCAN_ANGLE_MIN : Z := -90.
Definition SCAN_ANGLE_MAX : Z := 90.

(** Python's [range(start, stop, step)]; a zero step raises [ValueError]. *)
Definition py_range (start stop step : Z) : outcome (list Z) :=
  if bool_decide (step = 0) then Raise ValueError
  else
    let len := if bool_decide (0 < step)
               then (stop - start + step - 1) / step
               else (start - stop - step - 1) / (- step) in
    Ok ((fun i => start + i * step) <$> seqZ 0 len).

(** The two hardware objects [scan_environment] takes from [hw]: the pan
    servo, with [set_angle], and the range finder, read through
    [get_distance] when the object has one and through [read] otherwise.
    Readings are in centimetres; delays and console output are left out. *)
Class Servo (V : Type) : Type := {
  set_angle : Z -> V -> V
}.

Class Ultrasonic (U : Type) : Type := {
  get_distance : option (U -> R * U);
  read : U -> R * U
}.

(** [MockServo] *)
Record MockServo : Type := { servo_angle : Z }.

#[global] Instance MockServo_Servo : Servo MockServo := {
  set_angle a _ := {| servo_angle := a |}
}.

(** [MockServo()] *)
Definition mock_servo : MockServo := {| servo_angle := 0 |}.

(** [MockUltrasonic].  The draws of [random.randint(-3, 3)] are the values
    of [draws], [drawn] of them having been used. *)
Record MockUltrasonic : Type := {
  us_distance : Z;
  base_distance : Z;
  draws : nat -> Z;
  drawn : nat
}.

(** [MockUltrasonic.get_distance] *)
Definition mock_get_distance (us : MockUltrasonic) : R * MockUltrasonic :=
  let noise := draws us (drawn us) in
  let distance := Z.max 5 (base_distance us + noise) in
  (IZR distance,
   {| us_distance := us_distance us; base_distance := base_distance us;
      draws := draws us; drawn := S (drawn us) |}).

#[global] Instance MockUltrasonic_Ultrasonic : Ultrasonic MockUltrasonic := {
  get_distance := Some mock_get_distance;
  read := mock_get_distance
}.

(** [MockUltrasonic()] with a given source of draws. *)
Definition mock_ultrasonic (rng : nat -> Z) : MockUltrasonic :=
  {| us_distance := 100; base_distance := 50; draws := rng; drawn := 0 |}.

(** [set_base_distance] *)
Definition set_base_distance (us : MockUltrasonic) (d : Z) : MockUltrasonic :=
  {| us_distance := us_distance us; base_distance := d;
     draws := draws us; drawn := drawn us |}.

Section Scan.
Context {V U : Type} `{!Servo V} `{!Ultrasonic U}.

(** The reading, through whichever method the sensor object has. *)
Definition sense (us : U) : R * U :=
  match get_distance with
  | Some f => f us
  | None => read us
  end.

(** One iteration of [for angle in angles]. *)
Definition scan_step (st : V * U * list (Z * R)) (angle : Z) : V * U * list (Z * R) :=
  let '(servo, us, scan_data) := st in
  let servo := set_angle angle servo in
  let '(distance, us) := sense us in
  if bool_decide (0 < distance)%R && bool_decide (distance < MAX_DISTANCE)%R
  then (servo, us, scan_data ++ [(angle, distance)])
  else (servo, us, scan_data).

(** [scan_environment]: the hardware after the sweep, the scan history the
    mapper keeps, and the list returned. *)
Definition scan_environment (servo : V) (us : U) (angle_min angle_max step : Z)
    (interpolate : bool) : outcome (V * U * list (Z * R) * list (Z * R)) :=
  angles ← py_range angle_min (angle_max + 1) step;
  let '(servo, us, scan_data) := fold_left scan_step angles (servo, us, []) in
  let servo := set_angle 0 servo in
  let scan_history := scan_data in
  scan_data ← (if interpolate then interpolate_scan scan_data step else Ok scan_data);
  Ok (servo, us, scan_history, scan_data).
End Scan.

(** A sample the sweep keeps. *)
Definition valid_sample (p : Z * R) : Prop := (0 < p.2 < MAX_DISTANCE)%R.

(** ** Display: [visualize_map] *)

(** A [for] loop whose body may raise. *)
Fixpoint for_each {A S : Type} (body : S -> A -> outcome S) (l : list A) (s : S)
  : outcome S :=
  match l with
  | [] => Ok s
  | a :: l' => s' ← body s a; for_each body l' s'
  end.

(** The body of [for x in range(self.map_size)]: one character is added to
    the line and, unless it is the car's, one counter goes up. *)
Definition show_cell (self : AdvancedMapper) (show_car : bool) (y : Z)
    (st : string * Z * Z * Z) (x : Z) : outcome (string * Z * Z * Z) :=
  let '(line, obstacles, free, unknown) := st in
  if show_car && bool_decide (x = car_x self) && bool_decide (y = car_y self)
  then Ok (line +:+ "C", obstacles, free, unknown)
  else
    v ← grid_get (occupancy_map self) y x;
    if bool_decide (v = OCCUPIED) then Ok (line +:+ "1", obstacles + 1, free, unknown)
    else
      v ← grid_get (occupancy_map self) y x;
      if bool_decide (v = FREE) then Ok (line +:+ ".", obstacles, free + 1, unknown)
      else Ok (line +:+ "?", obstacles, free, unknown + 1).

(** The body of [for y in range(self.map_size)]; the lines printed are
    collected in order. *)
Definition show_row (self : AdvancedMapper) (show_car : bool)
    (st : list string * Z * Z * Z) (y : Z) : outcome (list string * Z * Z * Z) :=
  let '(lines, obstacles, free, unknown) := st in
  '(line, obstacles, free, unknown) ←
    for_each (show_cell self show_car y) (seqZ 0 (map_size self))
             ("|", obstacles, free, unknown);
  Ok (lines ++ [line +:+ "|"], obstacles, free, unknown).

(** [visualize_map]: the rows of the picture and the three counts of the
    summary line. *)
Definition visualize_map (self : AdvancedMapper) (show_car : bool)
  : outcome (list string * Z * Z * Z) :=
  for_each (show_row self show_car) (seqZ 0 (map_size self)) ([], 0, 0, 0).

(** The cells drawn with their state, row by row: all of them, but for the
    car's when it is shown. *)
Definition drawn_cells (self : AdvancedMapper) (show_car : bool) (y : Z) (xs : list Z)
  : list (Z * Z) :=
  filter (fun c => ~ (show_car = true /\ c = (car_x self, car_y self)))
         ((fun x => (x, y)) <$> xs).

(** The number of cells of a list in a given state. *)
Definition tally (g : grid) (v : Z) (cs : list (Z * Z)) : Z :=
  Z.of_nat (length (filter (fun c => grid_get g c.2 c.1 = Ok v) cs)).

(** The cells of the whole picture that are drawn with their state. *)
Definition drawn_map (self : AdvancedMapper) (show_car : bool) (ys : list Z)
  : list (Z * Z) :=
  concat ((fun y => drawn_cells self show_car y (seqZ 0 (map_size self))) <$> ys).

(** ** The test run: [test_mapping] *)

(** A new mapper, one interpolated scan with the defaults, the map update
    from the pose of the mapper, and the picture with the car.  The mapper
    is returned; the hardware, the count of new obstacles and the picture
    are kept with it.  The four coordinate conversions printed at the end
    change nothing and are left out. *)
Definition test_mapping {F64 : Float64} {V U : Type} `{!Servo V} `{!Ultrasonic U}
    (servo : V) (us : U)
  : outcome (AdvancedMapper * (V * U) * Z * (list string * Z * Z * Z)) :=
  mapper ← init MAP_SIZE;
  '(servo, us, _, scan_data) ←
    scan_environment servo us SCAN_ANGLE_MIN SCAN_ANGLE_MAX SCAN_STEP true;
  '(mapper, obstacles_found) ← update_map_from_scan mapper scan_data None None None;
  picture ← visualize_map mapper true;
  Ok (mapper, (servo, us), obstacles_found, picture).

(** The bearings from [a] to [b], one every [s] degrees. *)
Definition every (s a b : Z) : list Z :=
  (fun i => a + i * s) <$> seqZ 0 ((b - a) / s + 1).

(** * Lemmas *)

Section FloatFacts.
Context {F64 : Float64}.

(** ** Facts about the array *)

Lemma np_index_in (n : nat) (i : Z) :
  0 <= i < Z.of_nat n -> np_index n i = Some (Z.to_nat i).
Proof.
  intros H. unfold np_index. rewrite bool_decide_eq_true_2; auto.
Qed.

Lemma np_index_wrap (n : nat) (i : Z) :
  - Z.of_nat n <= i < 0 -> np_index n i = np_index n (i + Z.of_nat n).
Proof.
  intros H. unfold np_index.
  rewrite (bool_decide_eq_false_2 (0 <= i < _)) by lia.
  rewrite (bool_decide_eq_true_2 (- _ <= i < 0)) by lia.
  rewrite (bool_decide_eq_true_2 (0 <= i + _ < _)) by lia.
  reflexivity.
Qed.

Lemma np_index_out (n : nat) (i : Z) :
  ~ (- Z.of_nat n <= i < Z.of_nat n) -> np_index n i = None.
Proof.
  intros H. unfold np_index.
  rewrite !bool_decide_eq_false_2 by lia. reflexivity.
Qed.

Lemma square_row (n : Z) (g : grid) (r : nat) (row : list Z) :
  square n g -> g !! r = Some row -> Z.of_nat (length row) = n.
Proof.
  intros [_ Hrows] Hr. rewrite Forall_lookup in Hrows. exact (Hrows r row Hr).
Qed.

Lemma square_lookup (n : Z) (g : grid) (x y : Z) :
  square n g -> 0 <= x < n -> 0 <= y < n ->
  exists row v, g !! Z.to_nat y = Some row /\ row !! Z.to_nat x = Some v /\
                Z.of_nat (length row) = n.
Proof.
  intros Hsq Hx Hy. destruct (Hsq) as [Hlen _].
  destruct (lookup_lt_is_Some_2 g (Z.to_nat y)) as [row Hrow]; [lia|].
  pose proof (square_row _ _ _ _ Hsq Hrow) as Hr.
  destruct (lookup_lt_is_Some_2 row (Z.to_nat x)) as [v Hv]; [lia|].
  eauto.
Qed.

Lemma square_insert (n : Z) (g : grid) (r c : nat) (row : list Z) (v : Z) :
  square n g -> g !! r = Some row -> square n (<[r := <[c := v]> row]> g).
Proof.
  intros Hsq Hrow. pose proof (square_row _ _ _ _ Hsq Hrow) as Hr.
  destruct Hsq as [Hlen Hrows]. split.
  - rewrite length_insert. exact Hlen.
  - apply Forall_insert; [exact Hrows|]. rewrite length_insert. exact Hr.
Qed.

Lemma square_replicate (n : Z) (v : Z) :
  0 <= n -> square n (replicate (Z.to_nat n) (replicate (Z.to_nat n) v)).
Proof.
  intros Hn. split.
  - rewrite length_replicate. lia.
  - apply Forall_replicate. rewrite length_replicate. lia.
Qed.

(** Reading an in-range cell never raises. *)
Lemma grid_get_in (n : Z) (g : grid) (x y : Z) :
  square n g -> in_map n x y = true -> exists v, grid_get g y x = Ok v.
Proof.
  intros Hsq Hin. apply andb_prop in Hin as [Hx%bool_decide_eq_true Hy%bool_decide_eq_true].
  destruct (square_lookup n g x y Hsq Hx Hy) as (row & v & Hrow & Hv & Hlen).
  exists v. unfold grid_get. destruct (Hsq) as [Hg _].
  rewrite np_index_in by lia. rewrite Hrow.
  rewrite np_index_in by lia. rewrite Hv. reflexivity.
Qed.

Lemma np_index_canon (k : nat) (i : Z) :
  - Z.of_nat k <= i < Z.of_nat k -> np_index k i = np_index k (canon (Z.of_nat k) i).
Proof.
  intros H. unfold canon. destruct (decide (i < 0)) as [Hneg|Hpos].
  - rewrite bool_decide_eq_true_2 by done. apply np_index_wrap. lia.
  - rewrite bool_decide_eq_false_2 by done. reflexivity.
Qed.

(** Writing an in-range cell: the write succeeds, keeps the shape, is read
    back, and leaves every other in-range cell alone. *)
Lemma grid_set_in (n : Z) (g : grid) (x y v : Z) :
  square n g -> in_map n x y = true ->
  exists g', grid_set g y x v = Ok g' /\ square n g' /\
    grid_get g' y x = Ok v /\
    (forall x' y', in_map n x' y' = true -> (x', y') <> (x, y) ->
                   grid_get g' y' x' = grid_get g y' x').
Proof.
  intros Hsq Hin. apply andb_prop in Hin as [Hx%bool_decide_eq_true Hy%bool_decide_eq_true].
  destruct (square_lookup n g x y Hsq Hx Hy) as (row & w & Hrow & Hw & Hlen).
  destruct (Hsq) as [Hg _].
  exists (<[Z.to_nat y := <[Z.to_nat x := v]> row]> g).
  split; [|split; [|split]].
  - unfold grid_set. rewrite np_index_in by lia. rewrite Hrow.
    rewrite np_index_in by lia. reflexivity.
  - by apply square_insert.
  - unfold grid_get. rewrite length_insert. rewrite np_index_in by lia.
    rewrite list_lookup_insert_eq by lia. rewrite length_insert.
    rewrite np_index_in by lia. rewrite list_lookup_insert_eq by lia. reflexivity.
  - intros x' y' Hin' Hne.
    apply andb_prop in Hin' as [Hx'%bool_decide_eq_true Hy'%bool_decide_eq_true].
    unfold grid_get. rewrite length_insert. rewrite !np_index_in by lia.
    destruct (decide (Z.to_nat y = Z.to_nat y')) as [Heq|Hney].
    + rewrite <- Heq. rewrite list_lookup_insert_eq by lia. rewrite Hrow.
      rewrite length_insert. rewrite !np_index_in by lia.
      rewrite list_lookup_insert_ne; [reflexivity|].
      intros Hxx. apply Hne. f_equal; lia.
    + rewrite list_lookup_insert_ne by done. reflexivity.
Qed.

(** ** Facts about the line drawing *)

Section BresenhamFacts.
Variables (x1 y1 x2 y2 : Z).

Let dx : Z := Z.abs (x2 - x1).
Let dy : Z := Z.abs (y2 - y1).
Let sx : Z := if bool_decide (x1 < x2) then 1 else -1.
Let sy : Z := if bool_decide (y1 < y2) then 1 else -1.

Local Abbreviation on_the_line := (on_line x1 y1 dx dy sx sy).

Lemma on_line_start : on_the_line 0 0 (x1, y1, dx - dy).
Proof.
  unfold on_line, dx, dy. repeat split; try lia. f_equal; [f_equal|]; lia.
Qed.

Lemma sx_reaches : x1 + sx * dx = x2.
Proof. unfold sx, dx. case_bool_decide; lia. Qed.

Lemma sy_reaches : y1 + sy * dy = y2.
Proof. unfold sy, dy. case_bool_decide; lia. Qed.

Lemma on_line_end (a b : Z) :
  0 <= a <= dx -> 0 <= b <= dy ->
  (x1 + sx * a = x2 /\ y1 + sy * b = y2) <-> (a = dx /\ b = dy).
Proof.
  intros Ha Hb. rewrite <- sx_reaches at 1. rewrite <- sy_reaches at 1.
  unfold sx, sy. repeat case_bool_decide; lia.
Qed.

Lemma advance_on_line (a b : Z) (s : Z * Z * Z) :
  on_the_line a b s -> ~ (a = dx /\ b = dy) ->
  exists a' b', on_the_line a' b' (advance dx dy sx sy s) /\
                a <= a' <= a + 1 /\ b <= b' <= b + 1 /\ a + b < a' + b'.
Proof.
  intros (Ha & Hb & ->) Hne. unfold advance.
  assert (0 <= dx) as Hdx by (unfold dx; lia).
  assert (0 <= dy) as Hdy by (unfold dy; lia).
  destruct (decide (2 * ((b + 1) * dx - (a + 1) * dy) > - dy)) as [Hx|Hx];
    [rewrite (bool_decide_eq_true_2 _ Hx)|rewrite (bool_decide_eq_false_2 _ Hx)];
    (destruct (decide (2 * ((b + 1) * dx - (a + 1) * dy) < dx)) as [Hy|Hy];
     [rewrite (bool_decide_eq_true_2 _ Hy)|rewrite (bool_decide_eq_false_2 _ Hy)]).
  - exists (a + 1), (b + 1). unfold on_line. repeat split; try lia; try nia.
    f_equal; [f_equal|]; lia.
  - exists (a + 1), b. unfold on_line. repeat split; try lia; try nia.
    f_equal; [f_equal|]; lia.
  - exists a, (b + 1). unfold on_line. repeat split; try lia; try nia.
    f_equal; [f_equal|]; lia.
  - exfalso. apply Hne. nia.
Qed.

Lemma advance_unfold (x y err : Z) :
  advance dx dy sx sy (x, y, err) =
  (if bool_decide (2 * err > - dy) then x + sx else x,
   if bool_decide (2 * err < dx) then y + sy else y,
   (if bool_decide (2 * err > - dy) then err - dy else err)
   + (if bool_decide (2 * err < dx) then dx else 0)).
Proof.
  unfold advance. destruct (bool_decide (2 * err > - dy));
    destruct (bool_decide (2 * err < dx)); f_equal; lia.
Qed.

Lemma on_line_test (a b : Z) (s : Z * Z * Z) :
  on_the_line a b s -> (s.1.1 = x2 /\ s.1.2 = y2) <-> (a = dx /\ b = dy).
Proof. intros (Ha & Hb & ->). simpl. by apply on_line_end. Qed.

Variable n : Z.

(** With fuel for the advances still to make, the loop is the guarded
    write folded over the cells of the ray: it does not run dry. *)
Lemma mark_free_loop_ray (fuel : nat) :
  forall (a b : Z) (s : Z * Z * Z) (g : grid),
    on_the_line a b s -> (dx - a) + (dy - b) <= Z.of_nat fuel ->
    mark_free_loop dx dy sx sy n x2 y2 fuel g s =
    free_cells n g (ray dx dy sx sy x2 y2 fuel s).
Proof.
  induction fuel as [|fuel IH]; intros a b s g Hs Hfuel;
    pose proof (on_line_test a b s Hs) as Htest;
    destruct s as [[x y] err]; simpl in Htest |- *.
  - rewrite bool_decide_eq_true_2; [reflexivity|].
    apply Htest. destruct Hs as (? & ? & _). lia.
  - case_bool_decide as Hend; [reflexivity|].
    destruct (advance_on_line a b _ Hs) as (a' & b' & Hs' & Ha' & Hb' & Hlt).
    { rewrite <- Htest. exact Hend. }
    simpl. destruct (free_cell n g x y) as [g'| |]; simpl; try reflexivity.
    apply (IH a' b'); [exact Hs'|lia].
Qed.

(** The cells visited are those of the line drawing of the specification. *)
Lemma ray_walk (fuel : nat) :
  forall (a b : Z) (s : Z * Z * Z),
    on_the_line a b s -> (dx - a) + (dy - b) <= Z.of_nat fuel ->
    bresenham_walk dx dy sx sy x2 y2 s (ray dx dy sx sy x2 y2 fuel s).
Proof.
  induction fuel as [|fuel IH]; intros a b s Hs Hfuel;
    pose proof (on_line_test a b s Hs) as Htest;
    destruct s as [[x y] err]; simpl in Htest |- *.
  - assert (x = x2 /\ y = y2) as [-> ->].
    { apply Htest. destruct Hs as (? & ? & _). lia. }
    rewrite bool_decide_eq_true_2 by done. constructor.
  - case_bool_decide as Hend.
    + destruct Hend as [-> ->]. constructor.
    + destruct (advance_on_line a b _ Hs) as (a' & b' & Hs' & Ha' & Hb' & Hlt).
      { rewrite <- Htest. exact Hend. }
      constructor; [exact Hend|]. rewrite <- advance_unfold.
      apply (IH a' b'); [exact Hs'|lia].
Qed.

(** Every cell visited lies on the way: it is reached by at most [dx]
    unit steps in [x] and [dy] in [y], and is not the end point. *)
Lemma ray_on_line (fuel : nat) :
  forall (a b : Z) (s : Z * Z * Z) (c : Z * Z),
    on_the_line a b s -> c ∈ ray dx dy sx sy x2 y2 fuel s ->
    exists a' b', 0 <= a' <= dx /\ 0 <= b' <= dy /\ ~ (a' = dx /\ b' = dy) /\
                  c = (x1 + sx * a', y1 + sy * b').
Proof.
  induction fuel as [|fuel IH]; intros a b s c Hs Hc;
    pose proof (on_line_test a b s Hs) as Htest;
    destruct s as [[x y] err]; simpl in Htest, Hc.
  - case_bool_decide; by apply elem_of_nil in Hc.
  - case_bool_decide as Hend; [by apply elem_of_nil in Hc|].
    apply elem_of_cons in Hc as [->|Hc].
    + exists a, b. destruct Hs as (Ha & Hb & Heq). injection Heq as -> -> _.
      split; [lia|]. split; [lia|]. split; [|reflexivity].
      rewrite <- Htest. exact Hend.
    + destruct (advance_on_line a b _ Hs) as (a' & b' & Hs' & _).
      { rewrite <- Htest. exact Hend. }
      exact (IH a' b' _ c Hs' Hc).
Qed.
End BresenhamFacts.

(** The ray of [mark_free_space] is its loop unrolled. *)
Lemma mark_free_grid_ray (n : Z) (g : grid) (x1 y1 x2 y2 : Z) :
  mark_free_grid n g x1 y1 x2 y2 = free_cells n g (ray_cells x1 y1 x2 y2).
Proof.
  unfold mark_free_grid, ray_cells.
  apply (mark_free_loop_ray x1 y1 x2 y2 n _ 0 0); [apply on_line_start|lia].
Qed.

(** The loop ends: the cells visited form the whole line to the hit cell. *)
Lemma ray_cells_line (x1 y1 x2 y2 : Z) :
  bresenham_line x1 y1 x2 y2 (ray_cells x1 y1 x2 y2).
Proof.
  unfold bresenham_line, ray_cells.
  apply (ray_walk x1 y1 x2 y2 _ 0 0); [apply on_line_start|lia].
Qed.

(** The line drawing is a function of its end points. *)
Lemma bresenham_walk_det (dx dy sx sy x2 y2 : Z) (s : Z * Z * Z) (cs cs' : list (Z * Z)) :
  bresenham_walk dx dy sx sy x2 y2 s cs ->
  bresenham_walk dx dy sx sy x2 y2 s cs' -> cs = cs'.
Proof.
  intros H. revert cs'. induction H as [err|x y err cs Hne _ IH]; intros cs' H'.
  - inversion H' as [|? ? ? ? Hne']; [reflexivity|]. exfalso. by apply Hne'.
  - inversion H' as [|? ? ? cs0 _ Hw]; subst.
    + exfalso. by apply Hne.
    + f_equal. by apply IH.
Qed.

Lemma ray_cells_box (x1 y1 x2 y2 : Z) (c : Z * Z) :
  c ∈ ray_cells x1 y1 x2 y2 ->
  Z.min x1 x2 <= c.1 <= Z.max x1 x2 /\ Z.min y1 y2 <= c.2 <= Z.max y1 y2 /\
  c <> (x2, y2).
Proof.
  intros Hc. unfold ray_cells in Hc.
  destruct (ray_on_line x1 y1 x2 y2 _ 0 0 _ c (on_line_start x1 y1 x2 y2) Hc)
    as (a & b & Ha & Hb & Hne & ->).
  simpl. repeat split; try (repeat case_bool_decide; lia).
  intros [= Hx Hy]. apply Hne. by apply (on_line_end x1 y1 x2 y2).
Qed.

(** Any fuel that covers the [dx + dy] advances gives the result of
    [mark_free_space]. *)
Lemma mark_free_loop_enough_fuel (n : Z) (g : grid) (x1 y1 x2 y2 : Z) (fuel : nat) :
  Z.abs (x2 - x1) + Z.abs (y2 - y1) <= Z.of_nat fuel ->
  mark_free_loop (Z.abs (x2 - x1)) (Z.abs (y2 - y1))
    (if bool_decide (x1 < x2) then 1 else -1)
    (if bool_decide (y1 < y2) then 1 else -1)
    n x2 y2 fuel g (x1, y1, Z.abs (x2 - x1) - Z.abs (y2 - y1))
  = mark_free_grid n g x1 y1 x2 y2.
Proof.
  intros Hfuel. rewrite mark_free_grid_ray.
  rewrite (mark_free_loop_ray x1 y1 x2 y2 n fuel 0 0); [|apply on_line_start|lia].
  f_equal. eapply bresenham_walk_det; [|apply ray_cells_line].
  apply (ray_walk x1 y1 x2 y2 fuel 0 0); [apply on_line_start|lia].
Qed.

Lemma grid_get_returns (g : grid) (y x : Z) : grid_get g y x <> OutOfFuel.
Proof. unfold grid_get. repeat case_match; discriminate. Qed.

Lemma grid_set_returns (g : grid) (y x v : Z) : grid_set g y x v <> OutOfFuel.
Proof. unfold grid_set. repeat case_match; discriminate. Qed.

Lemma free_cells_returns (n : Z) (cs : list (Z * Z)) :
  forall g : grid, free_cells n g cs <> OutOfFuel.
Proof.
  induction cs as [|[x y] cs IH]; intros g; [discriminate|].
  simpl. unfold free_cell. destruct (in_map n x y); [|apply IH].
  destruct (grid_get g y x) as [v| |] eqn:Hget; simpl;
    [|discriminate|by apply grid_get_returns in Hget].
  case_bool_decide; [|apply IH].
  destruct (grid_set g y x FREE) as [g'| |] eqn:Hset; simpl;
    [apply IH|discriminate|by apply grid_set_returns in Hset].
Qed.

(** The loop of [mark_free_space] ends, whatever the array and the end
    points: it returns or raises, it never runs out of fuel. *)
Lemma mark_free_grid_returns (n : Z) (g : grid) (x1 y1 x2 y2 : Z) :
  mark_free_grid n g x1 y1 x2 y2 <> OutOfFuel.
Proof. rewrite mark_free_grid_ray. apply free_cells_returns. Qed.

(** ** The guarded write on a square array *)

Lemma free_cell_square (n : Z) (g : grid) (x y : Z) :
  square n g ->
  exists g', free_cell n g x y = Ok g' /\ square n g' /\
    forall x' y', in_map n x' y' = true ->
      grid_get g' y' x' =
      if bool_decide ((x', y') = (x, y) /\ grid_get g y' x' <> Ok OCCUPIED)
      then Ok FREE else grid_get g y' x'.
Proof.
  intros Hsq. unfold free_cell. destruct (in_map n x y) eqn:Hin.
  - destruct (grid_get_in n g x y Hsq Hin) as [v Hv]. rewrite Hv. simpl.
    case_bool_decide as Hocc.
    + destruct (grid_set_in n g x y FREE Hsq Hin) as (g' & Hset & Hsq' & Hread & Hother).
      exists g'. split; [exact Hset|]. split; [exact Hsq'|].
      intros x' y' Hin'. case_bool_decide as Hc.
      * destruct Hc as [[= -> ->] _]. exact Hread.
      * apply Hother; [exact Hin'|]. intros [= -> ->]. apply Hc. split; [reflexivity|].
        rewrite Hv. congruence.
    + exists g. split; [reflexivity|]. split; [exact Hsq|].
      intros x' y' Hin'. rewrite bool_decide_eq_false_2; [reflexivity|].
      intros [[= -> ->] Hne]. apply Hne. by rewrite Hv, Hocc.
  - exists g. split; [reflexivity|]. split; [exact Hsq|].
    intros x' y' Hin'. rewrite bool_decide_eq_false_2; [reflexivity|].
    intros [[= -> ->] _]. congruence.
Qed.

Lemma free_cells_square (n : Z) (cs : list (Z * Z)) :
  forall g : grid, square n g ->
  exists g', free_cells n g cs = Ok g' /\ square n g' /\
    forall x' y', in_map n x' y' = true ->
      grid_get g' y' x' =
      if bool_decide ((x', y') ∈ cs /\ grid_get g y' x' <> Ok OCCUPIED)
      then Ok FREE else grid_get g y' x'.
Proof.
  induction cs as [|[x y] cs IH]; intros g Hsq.
  - exists g. split; [reflexivity|]. split; [exact Hsq|].
    intros x' y' _. rewrite bool_decide_eq_false_2; [reflexivity|].
    intros [Hin _]. by apply elem_of_nil in Hin.
  - destruct (free_cell_square n g x y Hsq) as (g1 & Hfree & Hsq1 & Hg1).
    destruct (IH g1 Hsq1) as (g' & Hrest & Hsq' & Hg').
    exists g'. split; [simpl; rewrite Hfree; exact Hrest|]. split; [exact Hsq'|].
    intros x' y' Hin'. rewrite (Hg' x' y' Hin'), (Hg1 x' y' Hin').
    destruct (decide (grid_get g y' x' = Ok OCCUPIED)) as [Hocc|Hnocc].
    { rewrite (bool_decide_eq_false_2 (_ = (x, y) /\ _)) by (by intros [_ ?]).
      rewrite !bool_decide_eq_false_2; [reflexivity|by intros [_ ?]|by intros [_ ?]]. }
    destruct (decide ((x', y') = (x, y))) as [Heq|Hne].
    { rewrite (bool_decide_eq_true_2 (_ = (x, y) /\ _)) by done.
      rewrite (bool_decide_eq_true_2 (_ ∈ (x, y) :: cs /\ _));
        [|split; [rewrite Heq; left|done]].
      by destruct (bool_decide _). }
    rewrite (bool_decide_eq_false_2 (_ = (x, y) /\ _)) by (by intros [? _]).
    erewrite bool_decide_ext; [reflexivity|].
    rewrite elem_of_cons. tauto.
Qed.

(** [mark_free_space] on a square array, for any two end points. *)
Lemma mark_free_grid_square (n : Z) (g : grid) (x1 y1 x2 y2 : Z) :
  square n g ->
  exists g', mark_free_grid n g x1 y1 x2 y2 = Ok g' /\ square n g' /\
    forall x' y', in_map n x' y' = true ->
      grid_get g' y' x' =
      if bool_decide ((x', y') ∈ ray_cells x1 y1 x2 y2 /\ grid_get g y' x' <> Ok OCCUPIED)
      then Ok FREE else grid_get g y' x'.
Proof.
  intros Hsq. rewrite mark_free_grid_ray. by apply free_cells_square.
Qed.

(** One accepted sample on a square array. *)
Lemma apply_hit_square (n : Z) (g : grid) (cx cy xh yh : Z) :
  square n g -> in_map n xh yh = true ->
  exists g' k, apply_hit n g cx cy xh yh = Ok (g', k) /\ square n g' /\
    k = (if bool_decide (grid_get g yh xh = Ok OCCUPIED) then 0 else 1) /\
    forall x' y', in_map n x' y' = true ->
      grid_get g' y' x' =
      if bool_decide ((x', y') = (xh, yh)) then Ok OCCUPIED
      else if bool_decide ((x', y') ∈ ray_cells cx cy xh yh /\
                           grid_get g y' x' <> Ok OCCUPIED)
           then Ok FREE else grid_get g y' x'.
Proof.
  intros Hsq Hin. unfold apply_hit.
  destruct (mark_free_grid_square n g cx cy xh yh Hsq) as (g1 & -> & Hsq1 & Hg1).
  simpl.
  assert (grid_get g1 yh xh = grid_get g yh xh) as Hhit.
  { rewrite (Hg1 xh yh Hin). rewrite bool_decide_eq_false_2; [reflexivity|].
    intros [Hray _]. by apply ray_cells_box in Hray as (_ & _ & Hne). }
  destruct (grid_get_in n g1 xh yh Hsq1 Hin) as [v Hv]. rewrite Hv. simpl.
  case_bool_decide as Hocc.
  - destruct (grid_set_in n g1 xh yh OCCUPIED Hsq1 Hin)
      as (g2 & -> & Hsq2 & Hread & Hother).
    exists g2, 1. simpl. split; [reflexivity|]. split; [exact Hsq2|]. split.
    + rewrite bool_decide_eq_false_2; [reflexivity|]. rewrite <- Hhit, Hv. congruence.
    + intros x' y' Hin'. case_bool_decide as Hc.
      * injection Hc as -> ->. exact Hread.
      * rewrite (Hother x' y' Hin' Hc). by apply Hg1.
  - exists g1, 0. split; [reflexivity|]. split; [exact Hsq1|].
    subst v. split.
    + rewrite bool_decide_eq_true_2; [reflexivity|]. by rewrite <- Hhit.
    + intros x' y' Hin'. case_bool_decide as Hc.
      * injection Hc as -> ->. exact Hv.
      * by apply Hg1.
Qed.

(** ** From the mapper to its array *)

Lemma with_map_id (self : AdvancedMapper) : with_map self (occupancy_map self) = self.
Proof. by destruct self. Qed.

Lemma polar_to_cartesian_in_map (self : AdvancedMapper) (a : Z) (d : R)
    (cx cy ca : option Z) (x y : Z) :
  polar_to_cartesian self a d cx cy ca = Some (x, y) -> in_map (map_size self) x y = true.
Proof.
  unfold polar_to_cartesian, in_map.
  destruct (bool_decide _ && bool_decide _) eqn:Hin; [|discriminate].
  by intros [= <- <-].
Qed.

Lemma hit_of_in_map (self : AdvancedMapper) (cx cy ca : Z) (s : Z * R) (h : Z * Z) :
  hit_of self cx cy ca s = Some h -> in_map (map_size self) h.1 h.2 = true.
Proof.
  unfold hit_of. destruct (dropped s.2); [discriminate|]. destruct h as [x y].
  apply polar_to_cartesian_in_map.
Qed.

(** The loop body is [apply_hit] on the array of the mapper. *)
Lemma scan_body_hit (cx cy ca : Z) (self : AdvancedMapper) (k : Z) (s : Z * R) :
  scan_body cx cy ca (self, k) s =
  match hit_of self cx cy ca s with
  | None => Ok (self, k)
  | Some (xh, yh) =>
      r ← apply_hit (map_size self) (occupancy_map self) cx cy xh yh;
      Ok (with_map self r.1, k + r.2)
  end.
Proof.
  destruct s as [a d]. unfold scan_body, hit_of. simpl.
  destruct (dropped d); [reflexivity|].
  destruct (polar_to_cartesian _ _ _ _ _ _) as [[xh yh]|]; [|reflexivity].
  unfold mark_free_space, apply_hit.
  destruct (mark_free_grid _ _ _ _ _ _) as [g1| |]; simpl; try reflexivity.
  destruct (grid_get g1 yh xh) as [v| |]; simpl; try reflexivity.
  case_bool_decide.
  - destruct (grid_set g1 yh xh OCCUPIED) as [g2| |]; simpl; reflexivity.
  - simpl. by rewrite Z.add_0_r.
Qed.

Lemma scan_loop_hits (cx cy ca : Z) (scan_data : list (Z * R)) :
  forall (self : AdvancedMapper) (k : Z),
    scan_loop cx cy ca (self, k) scan_data =
    r ← apply_hits (map_size self) cx cy (occupancy_map self) k
          (omap (hit_of self cx cy ca) scan_data);
    Ok (with_map self r.1, r.2).
Proof.
  induction scan_data as [|s rest IH]; intros self k.
  - simpl. by rewrite with_map_id.
  - cbn [scan_loop omap list_omap]. rewrite scan_body_hit.
    destruct (hit_of self cx cy ca s) as [[xh yh]|] eqn:Hhit; cbn [mbind outcome_bind].
    + cbn [apply_hits].
      destruct (apply_hit _ _ _ _ _ _) as [[g1 k1]| |]; cbn [mbind outcome_bind]; try reflexivity.
      rewrite IH. cbn [map_size occupancy_map with_map fst snd].
      change (hit_of (with_map self g1) cx cy ca) with (hit_of self cx cy ca).
      destruct (apply_hits _ _ _ _ _ _) as [[g2 k2]| |]; reflexivity.
    + apply IH.
Qed.

(** ** Writes on any array *)

Lemma np_index_lt (n : nat) (i : Z) (k : nat) :
  np_index n i = Some k -> (k < n)%nat.
Proof.
  unfold np_index. repeat case_bool_decide; intros [= <-]; lia.
Qed.

(** A write, whatever the shape of the array: a cell that could be read
    either still reads the same, or is the cell written. *)
Lemma grid_set_get (g g' : grid) (y x v y' x' u : Z) :
  grid_set g y x v = Ok g' -> grid_get g y' x' = Ok u ->
  grid_get g' y' x' = Ok u \/
  (grid_get g y x = Ok u /\ grid_get g' y' x' = Ok v).
Proof.
  unfold grid_set, grid_get. intros Hset Hget.
  destruct (np_index (length g) y) as [r|] eqn:Hr; [|discriminate].
  destruct (g !! r) as [row|] eqn:Hrow; [|discriminate].
  destruct (np_index (length row) x) as [c|] eqn:Hc; [|discriminate].
  injection Hset as <-. rewrite length_insert.
  destruct (np_index (length g) y') as [r'|] eqn:Hr'; [|discriminate].
  destruct (g !! r') as [row'|] eqn:Hrow'; [|discriminate].
  destruct (np_index (length row') x') as [c'|] eqn:Hc'; [|discriminate].
  destruct (row' !! c') as [w|] eqn:Hw; [|discriminate]. injection Hget as ->.
  destruct (decide (r = r')) as [<-|Hrr].
  - assert (row' = row) as -> by congruence.
    rewrite list_lookup_insert_eq by (by eapply lookup_lt_Some).
    rewrite length_insert, Hc'.
    destruct (decide (c = c')) as [<-|Hcc].
    + right. rewrite Hw. split; [reflexivity|].
      by rewrite list_lookup_insert_eq by (by eapply np_index_lt).
    + left. by rewrite list_lookup_insert_ne, Hw.
  - left. by rewrite list_lookup_insert_ne, Hrow', Hc', Hw.
Qed.

(** A write that succeeds is read back. *)
Lemma grid_set_read (g g' : grid) (y x v : Z) :
  grid_set g y x v = Ok g' -> grid_get g' y x = Ok v.
Proof.
  unfold grid_set, grid_get. intros Hset.
  destruct (np_index (length g) y) as [r|] eqn:Hr; [|discriminate].
  destruct (g !! r) as [row|] eqn:Hrow; [|discriminate].
  destruct (np_index (length row) x) as [c|] eqn:Hc; [|discriminate].
  injection Hset as <-. rewrite length_insert, Hr.
  rewrite list_lookup_insert_eq by (by eapply lookup_lt_Some).
  rewrite length_insert, Hc.
  by rewrite list_lookup_insert_eq by (by eapply np_index_lt).
Qed.

(** Writing the value a cell already holds changes nothing. *)
Lemma grid_set_same (g : grid) (y x v : Z) :
  grid_get g y x = Ok v -> grid_set g y x v = Ok g.
Proof.
  unfold grid_set, grid_get. intros Hget.
  destruct (np_index (length g) y) as [r|] eqn:Hr; [|discriminate].
  destruct (g !! r) as [row|] eqn:Hrow; [|discriminate].
  destruct (np_index (length row) x) as [c|] eqn:Hc; [|discriminate].
  destruct (row !! c) as [w|] eqn:Hw; [|discriminate]. injection Hget as ->.
  f_equal. rewrite (list_insert_id row) by done. by rewrite list_insert_id.
Qed.

(** ** Growth of the map and settled hits *)

Lemma grows_refl (g : grid) : grows g g.
Proof. intros y x. split; [done|by left]. Qed.

Lemma grows_trans (g1 g2 g3 : grid) : grows g1 g2 -> grows g2 g3 -> grows g1 g3.
Proof.
  intros H12 H23 y x.
  destruct (H12 y x) as [Hocc12 Hfree12], (H23 y x) as [Hocc23 Hfree23].
  split; [by auto|]. intros Hfree. destruct (Hfree12 Hfree) as [Hk|Hk]; [by auto|].
  right. by auto.
Qed.

(** Marking a cell that is not occupied, as free or as occupied. *)
Lemma grid_set_grows (g g' : grid) (y x v w : Z) :
  grid_get g y x = Ok w -> w <> OCCUPIED -> v = FREE \/ v = OCCUPIED ->
  grid_set g y x v = Ok g' -> grows g g'.
Proof.
  intros Hw Hne Hv Hset y' x'. split; intros Hu.
  - destruct (grid_set_get g g' y x v y' x' _ Hset Hu) as [Hk|[Hk _]]; [exact Hk|].
    congruence.
  - destruct (grid_set_get g g' y x v y' x' _ Hset Hu) as [Hk|[_ Hk]]; [by left|].
    rewrite Hk. destruct Hv as [->| ->]; [by left|by right].
Qed.

Lemma free_cell_grows (n : Z) (g g' : grid) (x y : Z) :
  free_cell n g x y = Ok g' ->
  grows g g' /\
  (in_map n x y = true ->
   grid_get g' y x = Ok FREE \/ grid_get g' y x = Ok OCCUPIED).
Proof.
  unfold free_cell. intros Hfree.
  destruct (in_map n x y); cycle 1.
  { injection Hfree as <-. split; [apply grows_refl|discriminate]. }
  destruct (grid_get g y x) as [v| |] eqn:Hv; simpl in Hfree; try discriminate.
  case_bool_decide as Hne.
  - split; [by eapply (grid_set_grows g g' y x FREE v); [..|left|]|].
    intros _. left. by eapply grid_set_read.
  - injection Hfree as <-. split; [apply grows_refl|]. intros _. right. by rewrite Hv, Hne.
Qed.

Lemma free_cells_grows (n : Z) (cs : list (Z * Z)) :
  forall g g' : grid,
    free_cells n g cs = Ok g' ->
    grows g g' /\
    forall c, c ∈ cs -> in_map n c.1 c.2 = true ->
              grid_get g' c.2 c.1 = Ok FREE \/ grid_get g' c.2 c.1 = Ok OCCUPIED.
Proof.
  induction cs as [|[x y] cs IH]; intros g g' Hrun.
  - injection Hrun as <-. split; [apply grows_refl|]. intros c Hc. by apply elem_of_nil in Hc.
  - simpl in Hrun. destruct (free_cell n g x y) as [g1| |] eqn:Hg1; try discriminate.
    simpl in Hrun. destruct (free_cell_grows n g g1 x y Hg1) as [Hgrow1 Hdone1].
    destruct (IH g1 g' Hrun) as [Hgrow Hdone].
    split; [by eapply grows_trans|].
    intros c Hc Hin. apply elem_of_cons in Hc as [->|Hc]; [|by apply Hdone].
    simpl in *. destruct (Hgrow y x) as [Hocc Hfree].
    destruct (Hdone1 Hin) as [Hk|Hk]; [by apply Hfree|right; by apply Hocc].
Qed.

(** Cells already marked are left as they are. *)
Lemma free_cells_settled (n : Z) (g : grid) (cs : list (Z * Z)) :
  (forall c, c ∈ cs -> in_map n c.1 c.2 = true ->
             grid_get g c.2 c.1 = Ok FREE \/ grid_get g c.2 c.1 = Ok OCCUPIED) ->
  free_cells n g cs = Ok g.
Proof.
  induction cs as [|[x y] cs IH]; intros Hcs; [reflexivity|].
  assert (free_cell n g x y = Ok g) as Hfree.
  { unfold free_cell. destruct (in_map n x y) eqn:Hin; [|reflexivity].
    destruct (Hcs (x, y)) as [Hk|Hk]; [left|exact Hin| |]; simpl in Hk; rewrite Hk; simpl.
    - by apply grid_set_same.
    - reflexivity. }
  simpl. rewrite Hfree. simpl. apply IH. intros c Hc. apply Hcs. by right.
Qed.

Lemma apply_hit_grows (n : Z) (g g' : grid) (cx cy xh yh k : Z) :
  apply_hit n g cx cy xh yh = Ok (g', k) ->
  grows g g' /\ settled n cx cy g' (xh, yh).
Proof.
  unfold apply_hit. rewrite mark_free_grid_ray. intros Hrun.
  destruct (free_cells n g (ray_cells cx cy xh yh)) as [g1| |] eqn:Hg1; try discriminate.
  destruct (free_cells_grows n _ g g1 Hg1) as [Hgrow1 Hdone1].
  simpl in Hrun.
  destruct (grid_get g1 yh xh) as [v| |] eqn:Hv; simpl in Hrun; try discriminate.
  assert (grows g1 g' /\ grid_get g' yh xh = Ok OCCUPIED) as [Hgrow2 Hhit].
  { case_bool_decide as Hne.
    - destruct (grid_set g1 yh xh OCCUPIED) as [g2| |] eqn:Hg2; try discriminate.
      injection Hrun as <- _.
      split; [by eapply (grid_set_grows g1 g2 yh xh OCCUPIED v); [..|right|]|].
      by eapply grid_set_read.
    - injection Hrun as <- _. split; [apply grows_refl|]. by rewrite Hv, Hne. }
  split; [by eapply grows_trans|]. split; [exact Hhit|].
  intros c Hc Hin. simpl in Hc. destruct (Hgrow2 c.2 c.1) as [Hocc Hfree].
  destruct (Hdone1 c Hc Hin) as [Hk|Hk]; [by apply Hfree|right; by apply Hocc].
Qed.

Lemma settled_grows (n : Z) (g g' : grid) (cx cy : Z) (h : Z * Z) :
  grows g g' -> settled n cx cy g h -> settled n cx cy g' h.
Proof.
  intros Hgrow [Hhit Hray]. split.
  - by apply (Hgrow h.2 h.1).
  - intros c Hc Hcin. destruct (Hgrow c.2 c.1) as [Hocc Hfree].
    destruct (Hray c Hc Hcin) as [Hk|Hk]; [by auto|right; by auto].
Qed.

(** A settled hit applied again changes nothing and counts nothing. *)
Lemma settled_apply_hit (n : Z) (g : grid) (cx cy xh yh : Z) :
  settled n cx cy g (xh, yh) -> apply_hit n g cx cy xh yh = Ok (g, 0).
Proof.
  intros [Hhit Hray]. simpl in *. unfold apply_hit.
  rewrite mark_free_grid_ray, (free_cells_settled n g _ Hray). simpl.
  rewrite Hhit. reflexivity.
Qed.

Lemma apply_hits_grows (n : Z) (cx cy : Z) (hits : list (Z * Z)) :
  forall (g g' : grid) (k k' : Z),
    apply_hits n cx cy g k hits = Ok (g', k') ->
    grows g g' /\ Forall (settled n cx cy g') hits.
Proof.
  induction hits as [|[xh yh] rest IH]; intros g g' k k' Hrun.
  - injection Hrun as <- _. split; [apply grows_refl|constructor].
  - simpl in Hrun.
    destruct (apply_hit n g cx cy xh yh) as [[g1 k1]| |] eqn:Hg1; try discriminate.
    simpl in Hrun. destruct (apply_hit_grows n g g1 cx cy xh yh k1 Hg1) as [Hgrow1 Hset1].
    destruct (IH g1 g' _ k' Hrun) as [Hgrow Hset].
    split; [by eapply grows_trans|]. constructor; [|exact Hset].
    by eapply settled_grows.
Qed.

Lemma apply_hits_settled (n : Z) (cx cy : Z) (g : grid) (hits : list (Z * Z)) :
  forall k : Z,
    Forall (settled n cx cy g) hits -> apply_hits n cx cy g k hits = Ok (g, k).
Proof.
  induction hits as [|[xh yh] rest IH]; intros k Hset; [done|].
  apply Forall_cons in Hset as [Hs Hsrest].
  simpl. rewrite (settled_apply_hit n g cx cy xh yh Hs). simpl.
  rewrite Z.add_0_r. by apply IH.
Qed.

(** On a square array every accepted sample goes through. *)
Lemma apply_hits_square (n : Z) (cx cy : Z) (hits : list (Z * Z)) :
  forall (g : grid) (k : Z),
    square n g -> Forall (fun h => in_map n h.1 h.2 = true) hits ->
    exists g' k', apply_hits n cx cy g k hits = Ok (g', k') /\ square n g'.
Proof.
  induction hits as [|[xh yh] rest IH]; intros g k Hsq Hin.
  - by exists g, k.
  - apply Forall_cons in Hin as [Hh Hrest]. simpl in Hh.
    destruct (apply_hit_square n g cx cy xh yh Hsq Hh) as (g1 & k1 & Hrun1 & Hsq1 & _ & _).
    destruct (IH g1 (k + k1) Hsq1 Hrest) as (g' & k' & Hrun & Hsq').
    exists g', k'. split; [simpl; rewrite Hrun1; exact Hrun|exact Hsq'].
Qed.

Lemma omap_hit_of_in_map (self : AdvancedMapper) (cx cy ca : Z) (scan_data : list (Z * R)) :
  Forall (fun h => in_map (map_size self) h.1 h.2 = true)
         (omap (hit_of self cx cy ca) scan_data).
Proof.
  apply Forall_forall. intros h Hh. apply list_elem_of_omap in Hh as (s & _ & Hs).
  by eapply hit_of_in_map.
Qed.

Lemma grid_get_replicate (n v x y : Z) :
  in_map n x y = true ->
  grid_get (replicate (Z.to_nat n) (replicate (Z.to_nat n) v)) y x = Ok v.
Proof.
  intros Hin. apply andb_prop in Hin as [Hx%bool_decide_eq_true Hy%bool_decide_eq_true].
  unfold grid_get. rewrite length_replicate, np_index_in by lia.
  rewrite lookup_replicate_2 by lia.
  rewrite length_replicate, np_index_in by lia.
  by rewrite lookup_replicate_2 by lia.
Qed.

Lemma update_map_from_scan_square (self : AdvancedMapper) (scan_data : list (Z * R))
    (cx cy ca : option Z) :
  wf_mapper self ->
  exists g' k,
    update_map_from_scan self scan_data cx cy ca = Ok (with_map self g', k) /\
    square (map_size self) g'.
Proof.
  intros Hwf. unfold update_map_from_scan. rewrite scan_loop_hits.
  destruct (apply_hits_square (map_size self) (default (car_x self) cx)
              (default (car_y self) cy) _ (occupancy_map self) 0 Hwf
              (omap_hit_of_in_map self (default (car_x self) cx) (default (car_y self) cy)
                 (default (car_angle self) ca) scan_data))
    as (g' & k & -> & Hsq).
  exists g', k. split; [reflexivity|exact Hsq].
Qed.

(** A run of [update_map_from_scan] that returns has grown the map and
    settled every accepted sample. *)
Lemma update_map_from_scan_grows (self self' : AdvancedMapper)
    (scan_data : list (Z * R)) (cx cy ca : option Z) (k : Z) :
  update_map_from_scan self scan_data cx cy ca = Ok (self', k) ->
  self' = with_map self (occupancy_map self') /\
  grows (occupancy_map self) (occupancy_map self') /\
  Forall (settled (map_size self) (default (car_x self) cx) (default (car_y self) cy)
            (occupancy_map self'))
         (omap (hit_of self (default (car_x self) cx) (default (car_y self) cy)
                       (default (car_angle self) ca)) scan_data).
Proof.
  unfold update_map_from_scan. rewrite scan_loop_hits. intros Hrun.
  destruct (apply_hits _ _ _ _ _ _) as [[g' k']| |] eqn:Hg'; try discriminate.
  injection Hrun as <- _. split; [reflexivity|]. by eapply apply_hits_grows.
Qed.

(** ** Rounding and angles *)

Lemma Rabs_le_both (x b : R) : (Rabs x <= b)%R -> (- b <= x <= b)%R.
Proof. unfold Rabs. destruct (Rcase_abs x); lra. Qed.

Lemma Int_part_IZR (z : Z) : Int_part (IZR z) = z.
Proof. symmetry. apply Int_part_spec. lra. Qed.

Lemma py_round_IZR (z : Z) : py_round (IZR z) = z.
Proof.
  unfold py_round. rewrite Int_part_IZR.
  rewrite bool_decide_eq_true_2; [reflexivity|lra].
Qed.

(** Rounding moves a number by at most one half. *)
Lemma py_round_near (x : R) : (Rabs (IZR (py_round x) - x) <= 1 / 2)%R.
Proof.
  unfold py_round. destruct (base_Int_part x) as [Hlo Hhi].
  apply Rabs_le.
  destruct (decide (x - IZR (Int_part x) < 1 / 2)%R) as [H1|H1].
  { rewrite bool_decide_eq_true_2 by done. lra. }
  rewrite bool_decide_eq_false_2 by done.
  destruct (decide (x - IZR (Int_part x) > 1 / 2)%R) as [H2|H2].
  { rewrite bool_decide_eq_true_2 by done. rewrite plus_IZR. lra. }
  rewrite bool_decide_eq_false_2 by done.
  destruct (Z.even (Int_part x)); [lra|]. rewrite plus_IZR. lra.
Qed.

(** A tie goes to the even neighbour. *)
Lemma py_round_tie (z : Z) :
  py_round (IZR z + 1 / 2) = if Z.even z then z else z + 1.
Proof.
  unfold py_round.
  assert (Int_part (IZR z + 1 / 2) = z) as -> by (symmetry; apply Int_part_spec; lra).
  rewrite bool_decide_eq_false_2 by lra.
  rewrite bool_decide_eq_false_2 by lra. reflexivity.
Qed.

(** A number less than one half away from an integer is rounded to it. *)
Lemma py_round_close (n : Z) (v : R) : (Rabs (v - IZR n) < 1 / 2)%R -> py_round v = n.
Proof.
  intros Hv. pose proof (py_round_near v) as Hnear.
  apply Rabs_def2 in Hv. apply Rabs_le_both in Hnear.
  assert (py_round v - n = 0); [|lia].
  apply one_IZR_lt1. rewrite minus_IZR. lra.
Qed.

(** [round] is the rounding of the specification, which fixes the
    result. *)
Lemma py_round_nearest (v : R) : nearest_int v (py_round v).
Proof.
  split; [apply py_round_near|].
  unfold py_round. destruct (base_Int_part v) as [Hlo Hhi].
  destruct (decide (v - IZR (Int_part v) < 1 / 2)%R) as [H1|H1].
  { rewrite bool_decide_eq_true_2 by done. intros Htie.
    rewrite Rabs_left1 in Htie by lra. lra. }
  rewrite bool_decide_eq_false_2 by done.
  destruct (decide (v - IZR (Int_part v) > 1 / 2)%R) as [H2|H2].
  { rewrite bool_decide_eq_true_2 by done. rewrite plus_IZR. intros Htie.
    rewrite Rabs_right in Htie by lra. lra. }
  rewrite bool_decide_eq_false_2 by done. intros _.
  destruct (Z.even (Int_part v)) eqn:Heven; [exact Heven|].
  rewrite Z.even_add, Heven. reflexivity.
Qed.

Lemma nearest_int_unique (v : R) (n n' : Z) :
  nearest_int v n -> nearest_int v n' -> n = n'.
Proof.
  intros [Hn Hen] [Hn' Hen'].
  pose proof (Rabs_le_both _ _ Hn) as Hb. pose proof (Rabs_le_both _ _ Hn') as Hb'.
  assert (-1 <= n' - n <= 1) as Hdiff.
  { split; apply le_IZR; rewrite minus_IZR; cbn; lra. }
  destruct (decide (n' = n)) as [->|Hne]; [reflexivity|].
  assert (n' = n + 1 \/ n' = n - 1) as [-> | ->] by lia.
  - rewrite plus_IZR in Hb'.
    assert (v = IZR n + 1 / 2)%R as Hv by lra.
    assert (Z.even n = true) as E1 by (apply Hen; rewrite Hv, Rabs_left1; lra).
    assert (Z.even (n + 1) = true) as E2
      by (apply Hen'; rewrite plus_IZR, Hv, Rabs_right; lra).
    rewrite Z.even_add, E1 in E2. discriminate.
  - rewrite minus_IZR in Hb'.
    assert (v = IZR n - 1 / 2)%R as Hv by lra.
    assert (Z.even n = true) as E1 by (apply Hen; rewrite Hv, Rabs_right; lra).
    assert (Z.even (n - 1) = true) as E2
      by (apply Hen'; rewrite minus_IZR, Hv, Rabs_left1; lra).
    rewrite Z.even_sub, E1 in E2. discriminate.
Qed.

Lemma dropped_true (d : R) :
  dropped d = true <-> (d <= 0 \/ d >= MAX_DISTANCE \/ d > OBSTACLE_THRESHOLD)%R.
Proof.
  unfold dropped. rewrite !orb_true_iff, !bool_decide_eq_true. tauto.
Qed.

Lemma scan_loop_app (cx cy ca : Z) (l1 l2 : list (Z * R)) :
  forall acc : AdvancedMapper * Z,
    scan_loop cx cy ca acc (l1 ++ l2) =
    acc' ← scan_loop cx cy ca acc l1; scan_loop cx cy ca acc' l2.
Proof.
  induction l1 as [|s l1 IH]; intros acc; [reflexivity|].
  simpl. destruct (scan_body cx cy ca acc s) as [acc'| |]; simpl; [apply IH|done|done].
Qed.

Lemma init_default : init MAP_SIZE = Ok (mapper_at 50 50 0).
Proof. reflexivity. Qed.

Lemma small_mapper_wf : wf_mapper small_mapper.
Proof. split; [reflexivity|]. repeat constructor. Qed.

(** ** The densifier against its specification *)

Lemma fold_left_snoc {A B : Type} (f : B -> A) (js : list B) :
  forall acc : list A, fold_left (fun acc j => acc ++ [f j]) js acc = acc ++ (f <$> js).
Proof.
  induction js as [|j js IH]; intros acc; simpl.
  - by rewrite app_nil_r.
  - rewrite IH. by rewrite <- app_assoc.
Qed.

(** The inner loop adds the points between. *)
Lemma inner_loop_between (step : Z) (a1 : Z) (d1 : R) (a2 : Z) (d2 : R)
    (interpolated : list (Z * R)) :
  let interp_step := Z.min 5 (step / 2) in
  let num_points := Z.abs (a2 - a1) / interp_step in
  (if bool_decide (num_points > 1) then
     fold_left
       (fun acc j => acc ++ [interp_point a1 d1 a2 d2 interp_step num_points j])
       (seqZ 1 (num_points - 1)) interpolated
   else interpolated)
  = interpolated ++ between step (a1, d1) (a2, d2).
Proof.
  intros interp_step num_points. unfold between. simpl. fold (sub_step step).
  change (Z.min 5 (step / 2)) with (sub_step step) in interp_step.
  fold interp_step. fold num_points.
  case_bool_decide; [|by rewrite app_nil_r].
  rewrite fold_left_snoc. f_equal. apply list_fmap_ext. intros _ j _.
  unfold interp_point. f_equal.
  destruct (decide (a1 < a2)).
  - rewrite !bool_decide_eq_true_2 by lia. lia.
  - rewrite !bool_decide_eq_false_2 by lia. lia.
Qed.

Lemma interpolate_spec_cons (step : Z) (p1 p2 : Z * R) (rest : list (Z * R)) :
  interpolate_spec step (p1 :: p2 :: rest) =
  p1 :: between step p1 p2 ++ interpolate_spec step (p2 :: rest).
Proof. reflexivity. Qed.

Lemma pairs_out_cons (step : Z) (p1 p2 : Z * R) (rest : list (Z * R)) :
  pairs_out step (p1 :: p2 :: rest) =
  p1 :: between step p1 p2 ++ pairs_out step (p2 :: rest).
Proof. reflexivity. Qed.

Lemma interpolate_pairs_cons (step : Z) (a1 : Z) (d1 : R) (a2 : Z) (d2 : R)
    (rest interpolated : list (Z * R)) :
  interpolate_pairs step ((a1, d1) :: (a2, d2) :: rest) interpolated =
  let interp_step := Z.min 5 (step / 2) in
  let num_points := Z.abs (a2 - a1) / interp_step in
  if bool_decide (interp_step = 0) then Raise ZeroDivisionError
  else
    interpolate_pairs step ((a2, d2) :: rest)
      (if bool_decide (num_points > 1) then
         fold_left
           (fun acc j => acc ++ [interp_point a1 d1 a2 d2 interp_step num_points j])
           (seqZ 1 (num_points - 1)) (interpolated ++ [(a1, d1)])
       else interpolated ++ [(a1, d1)]).
Proof. reflexivity. Qed.

Lemma interpolate_pairs_out (step : Z) (scan_data : list (Z * R)) :
  sub_step step <> 0 ->
  forall interpolated,
    interpolate_pairs step scan_data interpolated =
    Ok (interpolated ++ pairs_out step scan_data).
Proof.
  intros Hstep. induction scan_data as [|[a1 d1] rest IH]; intros interpolated.
  - simpl. by rewrite app_nil_r.
  - destruct rest as [|[a2 d2] rest'].
    + simpl. by rewrite app_nil_r.
    + rewrite interpolate_pairs_cons. cbv zeta.
      rewrite bool_decide_eq_false_2 by exact Hstep.
      rewrite inner_loop_between. rewrite IH. rewrite pairs_out_cons.
      f_equal. rewrite <- !app_assoc. reflexivity.
Qed.

Lemma interpolate_spec_pairs_out (step : Z) (samples : list (Z * R)) :
  interpolate_spec step samples =
  pairs_out step samples ++ match last samples with Some p => [p] | None => [] end.
Proof.
  induction samples as [|p1 rest IH]; [reflexivity|].
  destruct rest as [|p2 rest']; [reflexivity|].
  rewrite interpolate_spec_cons, pairs_out_cons, IH.
  change (last (p1 :: p2 :: rest')) with (last (p2 :: rest')).
  by rewrite <- app_comm_cons, <- app_assoc.
Qed.

Lemma interpolate_scan_spec (scan_data : list (Z * R)) (step : Z) :
  sub_step step <> 0 ->
  interpolate_scan scan_data step = Ok (interpolate_spec step scan_data).
Proof.
  intros Hstep. unfold interpolate_scan. case_bool_decide as Hshort.
  - destruct scan_data as [|p1 [|p2 rest]]; [reflexivity|reflexivity|simpl in Hshort; lia].
  - rewrite interpolate_pairs_out by exact Hstep. simpl.
    rewrite interpolate_spec_pairs_out.
    destruct (last scan_data); [reflexivity|by rewrite app_nil_r].
Qed.

Lemma interpolate_scan_short (scan_data : list (Z * R)) (step : Z) :
  (length scan_data < 2)%nat -> interpolate_scan scan_data step = Ok scan_data.
Proof. intros H. unfold interpolate_scan. by rewrite bool_decide_eq_true_2. Qed.

Lemma interpolate_scan_zero_division (scan_data : list (Z * R)) (step : Z) :
  (2 <= length scan_data)%nat -> sub_step step = 0 ->
  interpolate_scan scan_data step = Raise ZeroDivisionError.
Proof.
  intros Hlen Hstep. unfold interpolate_scan.
  rewrite bool_decide_eq_false_2 by lia.
  destruct scan_data as [|[a1 d1] [|[a2 d2] rest]]; simpl in Hlen; try lia.
  rewrite interpolate_pairs_cons. cbv zeta. unfold sub_step in Hstep.
  by rewrite bool_decide_eq_true_2.
Qed.

Lemma sub_step_zero (step : Z) : sub_step step = 0 <-> step = 0 \/ step = 1.
Proof.
  unfold sub_step. split.
  - intros H. assert (step / 2 = 0) as H0 by lia.
    apply Z.div_small_iff in H0; lia.
  - intros [->| ->]; reflexivity.
Qed.

Lemma sub_step_pos (step : Z) : 2 <= step -> 1 <= sub_step step <= 5.
Proof.
  intros H. unfold sub_step.
  assert (1 <= step / 2) by (apply Z.div_le_lower_bound; lia). lia.
Qed.

Lemma sub_step_neg (step : Z) : step <= -1 -> sub_step step <= -1.
Proof.
  intros H. unfold sub_step.
  assert (step / 2 < 0) by (apply Z.div_lt_upper_bound; lia). lia.
Qed.

(** ** Bearing order *)

Lemma seqZ_sorted (n : nat) : forall m : Z, StronglySorted Z.lt (seqZ m (Z.of_nat n)).
Proof.
  induction n as [|n IH]; intros m.
  - rewrite seqZ_nil by lia. constructor.
  - rewrite seqZ_cons by lia. replace (Z.pred (Z.of_nat (S n))) with (Z.of_nat n) by lia.
    constructor; [apply IH|]. apply Forall_seqZ. intros k Hk. lia.
Qed.

(** The points between two samples have bearings strictly between theirs. *)
Lemma between_bearing (step : Z) (p1 p2 : Z * R) (b : Z) :
  2 <= step -> b ∈ (between step p1 p2).*1 ->
  Z.min p1.1 p2.1 < b < Z.max p1.1 p2.1.
Proof.
  intros Hstep Hb. pose proof (sub_step_pos step Hstep) as Hs.
  unfold between in Hb. case_bool_decide as Hsteps; [|by apply elem_of_nil in Hb].
  rewrite <- list_fmap_compose in Hb.
  apply list_elem_of_fmap in Hb as (j & -> & Hj%elem_of_seqZ). simpl.
  pose proof (Z.mul_div_le (Z.abs (p2.1 - p1.1)) (sub_step step)) as Hdiv.
  set (steps := Z.abs (p2.1 - p1.1) / sub_step step) in *.
  assert (sub_step step <= j * sub_step step) by nia.
  assert (j * sub_step step + sub_step step <= sub_step step * steps) by nia.
  case_bool_decide; lia.
Qed.

Lemma between_sorted_le (step : Z) (p1 p2 : Z * R) :
  2 <= step -> p1.1 <= p2.1 -> StronglySorted Z.le (between step p1 p2).*1.
Proof.
  intros Hstep Hle. pose proof (sub_step_pos step Hstep) as Hs.
  unfold between. case_bool_decide as Hsteps; [|constructor].
  rewrite <- list_fmap_compose.
  set (steps := Z.abs (p2.1 - p1.1) / sub_step step) in *.
  assert (p1.1 < p2.1) as Hlt.
  { destruct (decide (p1.1 = p2.1)) as [Heq|]; [|lia]. exfalso.
    unfold steps in Hsteps. rewrite Heq, Z.sub_diag in Hsteps. simpl in Hsteps.
    rewrite Z.div_0_l in Hsteps by lia. lia. }
  rewrite bool_decide_eq_true_2 by exact Hlt.
  replace (steps - 1) with (Z.of_nat (Z.to_nat (steps - 1))) by lia.
  eapply StronglySorted_fmap; [|apply seqZ_sorted].
  intros j j' Hjj. simpl. nia.
Qed.

Lemma between_sorted_ge (step : Z) (p1 p2 : Z * R) :
  2 <= step -> p1.1 >= p2.1 -> StronglySorted Z.ge (between step p1 p2).*1.
Proof.
  intros Hstep Hge. pose proof (sub_step_pos step Hstep) as Hs.
  unfold between. case_bool_decide as Hsteps; [|constructor].
  rewrite <- list_fmap_compose.
  rewrite bool_decide_eq_false_2 by lia.
  set (steps := Z.abs (p2.1 - p1.1) / sub_step step) in *.
  replace (steps - 1) with (Z.of_nat (Z.to_nat (steps - 1))) by lia.
  eapply StronglySorted_fmap; [|apply seqZ_sorted].
  intros j j' Hjj. simpl. nia.
Qed.

Section BearingOrder.
Variables (ord : relation Z) (step : Z).
Hypothesis ord_refl : forall a, ord a a.
Hypothesis ord_trans : forall a b c, ord a b -> ord b c -> ord a c.
Hypothesis between_sorted :
  forall p1 p2, ord p1.1 p2.1 -> StronglySorted ord (between step p1 p2).*1.
Hypothesis between_inside :
  forall p1 p2 b, ord p1.1 p2.1 -> b ∈ (between step p1 p2).*1 ->
                  ord p1.1 b /\ ord b p2.1.

Lemma interpolate_spec_sorted (samples : list (Z * R)) :
  StronglySorted ord samples.*1 ->
  StronglySorted ord (interpolate_spec step samples).*1 /\
  forall p b, head samples = Some p -> b ∈ (interpolate_spec step samples).*1 ->
              ord p.1 b.
Proof.
  induction samples as [|p1 rest IH]; intros Hsorted.
  - split; [constructor|]. intros p b [=].
  - destruct rest as [|p2 rest'].
    + split; [repeat constructor|].
      intros p b [= <-] Hb. apply list_elem_of_singleton in Hb as ->. apply ord_refl.
    + rewrite interpolate_spec_cons.
      rewrite !fmap_cons in Hsorted.
      apply StronglySorted_cons in Hsorted as [Hall Hrest].
      apply Forall_cons in Hall as [H12 _].
      destruct (IH Hrest) as [IHsorted IHhead].
      specialize (IHhead p2). specialize (IHhead) with (1 := eq_refl).
      assert (forall b, b ∈ (between step p1 p2 ++ interpolate_spec step (p2 :: rest')).*1 ->
                        ord p1.1 b) as Hfirst.
      { intros b Hb. rewrite fmap_app in Hb. apply elem_of_app in Hb as [Hb|Hb].
        - by apply (between_inside p1 p2 b).
        - eapply ord_trans; [exact H12|]. by apply IHhead. }
      split.
      * rewrite fmap_cons. apply StronglySorted_cons. split.
        { apply Forall_forall. exact Hfirst. }
        rewrite fmap_app. apply StronglySorted_app_2; [|by apply between_sorted|exact IHsorted].
        intros b1 b2 Hb1 Hb2. eapply ord_trans; [|by apply IHhead].
        by apply (between_inside p1 p2 b1).
      * intros p b [= <-] Hb. rewrite fmap_cons in Hb.
        apply elem_of_cons in Hb as [->|Hb]; [apply ord_refl|by apply Hfirst].
Qed.
End BearingOrder.

Lemma between_length (step : Z) (p1 p2 : Z * R) :
  let steps := Z.abs (p2.1 - p1.1) / sub_step step in
  Z.of_nat (length (between step p1 p2)) = if bool_decide (steps > 1) then steps - 1 else 0.
Proof.
  intros steps. unfold between. fold steps. case_bool_decide; [|reflexivity].
  rewrite length_fmap, length_seqZ. lia.
Qed.

(** A negative sub-step leaves no room for a point between two samples. *)
Lemma between_neg (step : Z) (p1 p2 : Z * R) : sub_step step < 0 -> between step p1 p2 = [].
Proof.
  intros Hneg. unfold between. rewrite bool_decide_eq_false_2; [reflexivity|].
  pose proof (Z.div_mod (Z.abs (p2.1 - p1.1)) (sub_step step)) as Hdm.
  pose proof (Z.mod_neg_bound (Z.abs (p2.1 - p1.1)) (sub_step step) Hneg) as Hm.
  nia.
Qed.

Lemma interpolate_spec_neg (step : Z) (samples : list (Z * R)) :
  sub_step step < 0 -> interpolate_spec step samples = samples.
Proof.
  intros Hneg. induction samples as [|p1 rest IH]; [reflexivity|].
  destruct rest as [|p2 rest']; [reflexivity|].
  rewrite interpolate_spec_cons, between_neg, IH by exact Hneg. reflexivity.
Qed.

(** ** Persistence: the round trip *)

Lemma of_le32_le32 (n : Z) :
  0 <= n < 4294967296 ->
  match le32 n with
  | [b0; b1; b2; b3] => of_le32 b0 b1 b2 b3
  | _ => -1
  end = n.
Proof.
  intros Hn. unfold le32, of_le32.
  Z.div_mod_to_equations. lia.
Qed.

Lemma int8_of_byte_of_int8 (v : Z) : -128 <= v <= 127 -> int8_of_byte (byte_of_int8 v) = v.
Proof.
  intros Hv. unfold int8_of_byte, byte_of_int8.
  case_bool_decide; Z.div_mod_to_equations; lia.
Qed.

Lemma rows_of_concat (width : nat) (rows : list (list Z)) :
  Forall (fun row => length row = width) rows ->
  rows_of (length rows) width (concat rows) = rows.
Proof.
  induction 1 as [|row rows Hrow _ IH]; [reflexivity|].
  simpl. rewrite take_app_length' by (symmetry; exact Hrow).
  rewrite drop_app_length' by (symmetry; exact Hrow). by rewrite IH.
Qed.

Lemma length_concat_rows (width : nat) (rows : list (list Z)) :
  Forall (fun row => length row = width) rows ->
  length (concat rows) = (length rows * width)%nat.
Proof.
  induction 1 as [|row rows Hrow _ IH]; [reflexivity|].
  simpl. rewrite length_app, IH, Hrow. reflexivity.
Qed.

(** A name and the name with a suffix appended are two names. *)
Lemma length_append (s t : string) :
  String.length (s +:+ t) = (String.length s + String.length t)%nat.
Proof.
  induction s as [|c s IH]; [reflexivity|].
  simpl. by rewrite IH.
Qed.

Lemma append_npy_ne (filename : string) : filename <> filename +:+ ".npy".
Proof.
  intros Heq. apply (f_equal String.length) in Heq.
  rewrite length_append in Heq. cbn in Heq. lia.
Qed.

Lemma npy_file_endswith (filename : string) :
  endswith filename ".npy" = true -> npy_file filename = filename.
Proof. intros H. unfold npy_file. by rewrite H. Qed.

Lemma npy_file_append (filename : string) :
  endswith filename ".npy" = false -> npy_file filename = filename +:+ ".npy".
Proof. intros H. unfold npy_file. by rewrite H. Qed.

(** A map of the three occupancy states is an [int8] array. *)
Lemma three_state_int8 (g : grid) :
  Forall (Forall (fun v => v = UNKNOWN \/ v = FREE \/ v = OCCUPIED)) g -> int8_cells g.
Proof.
  intros Hg. eapply Forall_impl; [exact Hg|]. intros row Hrow.
  eapply Forall_impl; [exact Hrow|]. intros v. unfold UNKNOWN, FREE, OCCUPIED. simpl. lia.
Qed.

Lemma np_load_np_save (n : Z) (g : grid) :
  square n g -> n < 4294967296 -> int8_cells g -> np_load (np_save g) = Ok g.
Proof.
  intros [Hlen Hrows] Hn Hcells.
  assert (0 <= n) as Hn0 by lia.
  assert (match g with [] => 0 | row :: _ => Z.of_nat (length row) end = n) as Hwidth.
  { destruct g as [|row g']; [simpl in Hlen; lia|]. by apply Forall_cons in Hrows as [? _]. }
  unfold np_save. rewrite Hwidth, Hlen.
  pose proof (of_le32_le32 n (conj Hn0 Hn)) as Hle.
  unfold le32 in *. cbn [app]. unfold np_load.
  rewrite Hle.
  assert (Forall (fun row => length row = Z.to_nat n) (map (map byte_of_int8) g)) as Hbytes.
  { apply Forall_fmap. eapply Forall_impl; [exact Hrows|].
    intros row Hrow. simpl in Hrow. unfold compose. rewrite length_map. lia. }
  rewrite bool_decide_eq_true_2; cycle 1.
  { rewrite (length_concat_rows _ _ Hbytes), length_map. lia. }
  f_equal. replace (Z.to_nat n) with (length (map (map byte_of_int8) g)) at 1
    by (rewrite length_map; lia).
  rewrite (rows_of_concat _ _ Hbytes).
  rewrite <- list_fmap_compose. rewrite <- (list_fmap_id g) at 2.
  apply Forall_fmap_ext_1. eapply Forall_impl; [exact Hcells|].
  intros row Hrow. simpl. rewrite <- list_fmap_compose. rewrite <- (list_fmap_id row) at 2.
  apply Forall_fmap_ext_1. eapply Forall_impl; [exact Hrow|].
  intros v Hv. simpl. by apply int8_of_byte_of_int8.
Qed.

(** ** Writes outside the map *)

Lemma grid_set_out (n : Z) (g : grid) (x y v : Z) :
  square n g -> ~ (- n <= x < n) \/ ~ (- n <= y < n) ->
  grid_set g y x v = Raise IndexError.
Proof.
  intros Hsq Hout. destruct (Hsq) as [Hg _]. unfold grid_set.
  destruct (decide (- n <= y < n)) as [Hy|Hy]; cycle 1.
  { rewrite np_index_out by lia. reflexivity. }
  destruct (np_index (length g) y) as [r|] eqn:Hr; [|reflexivity].
  destruct (g !! r) as [row|] eqn:Hrow; [|reflexivity].
  pose proof (square_row _ _ _ _ Hsq Hrow).
  rewrite np_index_out by lia. reflexivity.
Qed.

Lemma grid_set_canon (n : Z) (g : grid) (x y v : Z) :
  square n g -> - n <= x < n -> - n <= y < n ->
  in_map n (canon n x) (canon n y) = true /\
  grid_set g y x v = grid_set g (canon n y) (canon n x) v.
Proof.
  intros Hsq Hx Hy. destruct (Hsq) as [Hg _]. split.
  { unfold in_map, canon. repeat case_bool_decide; simpl; try reflexivity; lia. }
  unfold grid_set.
  rewrite (np_index_canon (length g) y), Hg by lia.
  destruct (np_index (length g) _) as [r|] eqn:Hr; [|reflexivity].
  destruct (g !! r) as [row|] eqn:Hrow; [|reflexivity].
  pose proof (square_row _ _ _ _ Hsq Hrow) as Hlen.
  rewrite (np_index_canon (length row) x), Hlen by lia.
  reflexivity.
Qed.

(** ** The shape of the ray *)

Section BresenhamShape.
Variables (x1 y1 x2 y2 : Z).

Let dx : Z := Z.abs (x2 - x1).
Let dy : Z := Z.abs (y2 - y1).
Let sx : Z := if bool_decide (x1 < x2) then 1 else -1.
Let sy : Z := if bool_decide (y1 < y2) then 1 else -1.

Local Abbreviation at_counts := (on_line x1 y1 dx dy sx sy).

(** One iteration, with the counts it produces: the major axis always
    advances, and the minor count stays the nearest one. *)
Lemma advance_near_line (a b : Z) (s : Z * Z * Z) :
  at_counts a b s -> near_line dx dy a b -> ~ (a = dx /\ b = dy) ->
  exists a' b', at_counts a' b' (advance dx dy sx sy s) /\ near_line dx dy a' b' /\
                a <= a' <= a + 1 /\ b <= b' <= b + 1 /\
                (dy <= dx -> a' = a + 1) /\ (dx <= dy -> b' = b + 1).
Proof.
  intros (Ha & Hb & ->) [Hx Hy] Hne. unfold advance.
  assert (0 <= dx) as Hdx by (unfold dx; lia).
  assert (0 <= dy) as Hdy by (unfold dy; lia).
  assert (0 < dx \/ 0 < dy) as Hpos by lia.
  destruct (decide (2 * ((b + 1) * dx - (a + 1) * dy) > - dy)) as [Hxs|Hxs];
    [rewrite (bool_decide_eq_true_2 _ Hxs)|rewrite (bool_decide_eq_false_2 _ Hxs)];
    (destruct (decide (2 * ((b + 1) * dx - (a + 1) * dy) < dx)) as [Hys|Hys];
     [rewrite (bool_decide_eq_true_2 _ Hys)|rewrite (bool_decide_eq_false_2 _ Hys)]).
  - exists (a + 1), (b + 1). unfold on_line, near_line.
    split; [split; [nia|split; [nia|f_equal; [f_equal|]; lia]]|].
    split; [|lia]. split; intros Hle.
    + specialize (Hx Hle). nia.
    + specialize (Hy Hle). nia.
  - exists (a + 1), b. unfold on_line, near_line.
    split; [split; [nia|split; [nia|f_equal; [f_equal|]; lia]]|].
    split; [|split; [lia|split; [lia|split; [lia|]]]].
    + split; intros Hle.
      * specialize (Hx Hle). nia.
      * specialize (Hy Hle). nia.
    + intros Hle. specialize (Hy Hle). nia.
  - exists a, (b + 1). unfold on_line, near_line.
    split; [split; [nia|split; [nia|f_equal; [f_equal|]; lia]]|].
    split; [|split; [lia|split; [lia|split; [|lia]]]].
    + split; intros Hle.
      * specialize (Hx Hle). nia.
      * specialize (Hy Hle). nia.
    + intros Hle. specialize (Hx Hle). nia.
  - exfalso. apply Hne. nia.
Qed.

Lemma near_line_start : 0 < dx \/ 0 < dy -> near_line dx dy 0 0.
Proof. intros Hpos. unfold near_line. split; intros Hle; lia. Qed.

Local Abbreviation the_ray := (ray dx dy sx sy x2 y2).

(** The loop runs once for each unit of the longer side. *)
Lemma ray_length_major (fuel : nat) :
  forall (a b : Z) (s : Z * Z * Z),
    at_counts a b s -> near_line dx dy a b ->
    (dx - a) + (dy - b) <= Z.of_nat fuel ->
    (dy <= dx -> Z.of_nat (length (the_ray fuel s)) = dx - a) /\
    (dx <= dy -> Z.of_nat (length (the_ray fuel s)) = dy - b).
Proof.
  induction fuel as [|fuel IH]; intros a b s Hs Hnear Hfuel;
    pose proof (on_line_test x1 y1 x2 y2 a b s Hs) as Htest;
    destruct s as [[x y] err]; simpl in Htest; cbn [ray].
  - destruct (Hs) as (? & ? & _).
    rewrite bool_decide_eq_true_2 by (apply Htest; fold dx dy; lia). simpl. lia.
  - case_bool_decide as Hend.
    { apply Htest in Hend. fold dx dy in Hend. simpl. lia. }
    destruct (advance_near_line a b _ Hs Hnear)
      as (a' & b' & Hs' & Hnear' & Ha' & Hb' & Hmx & Hmy).
    { fold dx dy in Htest. rewrite <- Htest. exact Hend. }
    destruct (IH a' b' _ Hs' Hnear') as [IHx IHy]; [lia|].
    cbn [length]. split; intros Hle.
    + rewrite Nat2Z.inj_succ, (IHx Hle), (Hmx Hle). lia.
    + rewrite Nat2Z.inj_succ, (IHy Hle), (Hmy Hle). lia.
Qed.

(** Every visited cell carries counts that satisfy the rounding invariant,
    and counts never decrease along the ray. *)
Lemma ray_near_line (fuel : nat) :
  forall (a b : Z) (s : Z * Z * Z) (c : Z * Z),
    at_counts a b s -> near_line dx dy a b -> c ∈ the_ray fuel s ->
    exists a' b', a <= a' <= dx /\ b <= b' <= dy /\ near_line dx dy a' b' /\
                  c = (x1 + sx * a', y1 + sy * b').
Proof.
  induction fuel as [|fuel IH]; intros a b s c Hs Hnear Hc;
    pose proof (on_line_test x1 y1 x2 y2 a b s Hs) as Htest;
    destruct s as [[x y] err]; simpl in Htest, Hc.
  - case_bool_decide; by apply elem_of_nil in Hc.
  - case_bool_decide as Hend; [by apply elem_of_nil in Hc|].
    apply elem_of_cons in Hc as [->|Hc].
    + exists a, b. destruct Hs as (Ha & Hb & Heq). injection Heq as -> -> _.
      split; [lia|]. split; [lia|]. split; [exact Hnear|reflexivity].
    + destruct (advance_near_line a b _ Hs Hnear)
        as (a' & b' & Hs' & Hnear' & Ha' & Hb' & _).
      { fold dx dy in Htest. rewrite <- Htest. exact Hend. }
      destruct (IH a' b' _ c Hs' Hnear' Hc) as (a'' & b'' & ? & ? & ? & ?).
      exists a'', b''. split; [lia|]. split; [lia|]. by split.
Qed.

Lemma cell_injective (a b a' b' : Z) :
  (x1 + sx * a, y1 + sy * b) = (x1 + sx * a', y1 + sy * b') -> a = a' /\ b = b'.
Proof. unfold sx, sy. intros [= Hx Hy]. repeat case_bool_decide; lia. Qed.

(** The cells visited and then the end point: a path of king's moves that
    starts where the loop stands. *)
Lemma ray_king_path (fuel : nat) :
  forall (a b : Z) (s : Z * Z * Z),
    at_counts a b s -> near_line dx dy a b ->
    (dx - a) + (dy - b) <= Z.of_nat fuel ->
    head (the_ray fuel s ++ [(x2, y2)]) = Some s.1 /\
    king_path (the_ray fuel s ++ [(x2, y2)]).
Proof.
  induction fuel as [|fuel IH]; intros a b s Hs Hnear Hfuel;
    pose proof (on_line_test x1 y1 x2 y2 a b s Hs) as Htest;
    destruct s as [[x y] err]; simpl in Htest; cbn [ray fst].
  - destruct (Hs) as (? & ? & _).
    assert (x = x2 /\ y = y2) as [-> ->] by (apply Htest; fold dx dy; lia).
    by rewrite bool_decide_eq_true_2.
  - case_bool_decide as Hend; [by destruct Hend as [-> ->]|].
    destruct (advance_near_line a b _ Hs Hnear)
      as (a' & b' & Hs' & Hnear' & Ha' & Hb' & Hmx & Hmy).
    { fold dx dy in Htest. rewrite <- Htest. exact Hend. }
    destruct (IH a' b' _ Hs' Hnear') as [IHhead IHpath]; [lia|].
    split; [reflexivity|]. cbn [app king_path].
    destruct (Hs') as (_ & _ & Hadv). rewrite Hadv in IHhead, IHpath |- *.
    destruct (the_ray fuel _ ++ [(x2, y2)]) as [|c' rest] eqn:Hrest; [done|].
    split; [|exact IHpath]. simpl in IHhead. injection IHhead as ->.
    destruct Hs as (_ & _ & Heq). injection Heq as -> -> _.
    unfold king_step. simpl.
    assert (a' <> a \/ b' <> b) as Hmoved by (unfold dx, dy in *; lia).
    split; [unfold sx; case_bool_decide; lia|].
    split; [unfold sy; case_bool_decide; lia|].
    intros Heq. apply cell_injective in Heq. lia.
Qed.

(** No cell is visited twice. *)
Lemma ray_NoDup (fuel : nat) :
  forall (a b : Z) (s : Z * Z * Z),
    at_counts a b s -> near_line dx dy a b -> NoDup (the_ray fuel s).
Proof.
  induction fuel as [|fuel IH]; intros a b s Hs Hnear;
    pose proof (on_line_test x1 y1 x2 y2 a b s Hs) as Htest;
    destruct s as [[x y] err]; simpl in Htest |- *.
  - case_bool_decide; constructor.
  - case_bool_decide as Hend; [constructor|].
    destruct (advance_near_line a b _ Hs Hnear)
      as (a' & b' & Hs' & Hnear' & Ha' & Hb' & Hmx & Hmy).
    { fold dx dy in Htest. rewrite <- Htest. exact Hend. }
    constructor; [|by apply (IH a' b')].
    intros Hin. destruct (ray_near_line fuel a' b' _ _ Hs' Hnear' Hin)
      as (a'' & b'' & Ha'' & Hb'' & _ & Heq).
    destruct Hs as (_ & _ & Hpos). injection Hpos as -> -> _.
    apply cell_injective in Heq. unfold dx, dy in *. lia.
Qed.
End BresenhamShape.

(** ** The map after an update, in closed form *)

(** Two square arrays that read the same everywhere are the same array. *)
Lemma square_ext (n : Z) (g g' : grid) :
  square n g -> square n g' ->
  (forall x y, in_map n x y = true -> grid_get g y x = grid_get g' y x) ->
  g = g'.
Proof.
  intros Hsq Hsq' Hread. destruct (Hsq) as [Hlen _], (Hsq') as [Hlen' _].
  apply list_eq. intros r.
  destruct (decide (r < length g)%nat) as [Hr|Hr]; cycle 1.
  { rewrite !lookup_ge_None_2; [done|lia|lia]. }
  destruct (lookup_lt_is_Some_2 g r Hr) as [row Hrow].
  destruct (lookup_lt_is_Some_2 g' r) as [row' Hrow']; [lia|].
  rewrite Hrow, Hrow'. f_equal.
  pose proof (square_row _ _ _ _ Hsq Hrow) as Hw.
  pose proof (square_row _ _ _ _ Hsq' Hrow') as Hw'.
  apply list_eq. intros c.
  destruct (decide (c < length row)%nat) as [Hc|Hc]; cycle 1.
  { rewrite !lookup_ge_None_2; [done|lia|lia]. }
  destruct (lookup_lt_is_Some_2 row c Hc) as [v Hv].
  destruct (lookup_lt_is_Some_2 row' c) as [v' Hv']; [lia|].
  specialize (Hread (Z.of_nat c) (Z.of_nat r)).
  unfold grid_get in Hread.
  rewrite !np_index_in, !Nat2Z.id in Hread by lia.
  rewrite Hrow, Hrow' in Hread.
  rewrite !np_index_in, !Nat2Z.id in Hread by lia.
  rewrite Hv, Hv' in Hread. rewrite Hv, Hv'. f_equal.
  assert (Ok v = Ok v') as [= ->]; [|done].
  apply Hread. unfold in_map. rewrite !bool_decide_eq_true_2 by lia. done.
Qed.

Lemma new_obstacles_cons (g : grid) (h : Z * Z) (hits : list (Z * Z)) :
  new_obstacles g (h :: hits) =
  (if bool_decide (grid_get g h.2 h.1 = Ok OCCUPIED) then ∅ else {[h]})
  ∪ new_obstacles g hits.
Proof.
  unfold new_obstacles.
  destruct (decide (grid_get g h.2 h.1 <> Ok OCCUPIED)) as [Hne|He].
  - rewrite filter_cons_True by done.
    rewrite bool_decide_eq_false_2 by done. reflexivity.
  - rewrite filter_cons_False by done.
    rewrite bool_decide_eq_true_2 by (by apply dec_stable).
    by rewrite union_empty_l_L.
Qed.

Lemma new_obstacles_nil (g : grid) : new_obstacles g [] = ∅.
Proof. reflexivity. Qed.

Lemma elem_of_new_obstacles (g : grid) (hits : list (Z * Z)) (h : Z * Z) :
  h ∈ new_obstacles g hits <-> h ∈ hits /\ grid_get g h.2 h.1 <> Ok OCCUPIED.
Proof.
  unfold new_obstacles. rewrite elem_of_list_to_set, list_elem_of_filter. tauto.
Qed.

(** The array and the count after the accepted samples of a scan. *)
Lemma apply_hits_closed (n cx cy : Z) (hits : list (Z * Z)) :
  forall (g g' : grid) (k k' : Z),
    square n g -> Forall (fun h => in_map n h.1 h.2 = true) hits ->
    apply_hits n cx cy g k hits = Ok (g', k') ->
    k' = k + Z.of_nat (size (new_obstacles g hits)) /\
    forall x y, in_map n x y = true ->
      grid_get g' y x =
      if bool_decide ((x, y) ∈ hits) then Ok OCCUPIED
      else if bool_decide (on_some_ray cx cy hits (x, y) /\ grid_get g y x <> Ok OCCUPIED)
           then Ok FREE else grid_get g y x.
Proof.
  induction hits as [|[xh yh] rest IH]; intros g g' k k' Hsq Hin Hrun.
  - injection Hrun as <- <-. split; [rewrite new_obstacles_nil, size_empty; lia|].
    intros x y _. rewrite bool_decide_eq_false_2 by (by intros ?%elem_of_nil).
    rewrite bool_decide_eq_false_2; [done|]. intros [Hex _]. by apply Exists_nil in Hex.
  - apply Forall_cons in Hin as [Hh Hrest]. simpl in Hh.
    destruct (apply_hit_square n g cx cy xh yh Hsq Hh) as (g1 & k1 & Hrun1 & Hsq1 & Hk1 & Hg1).
    simpl in Hrun. rewrite Hrun1 in Hrun. simpl in Hrun.
    destruct (IH g1 g' _ k' Hsq1 Hrest Hrun) as [IHk IHg].
    assert (new_obstacles g1 rest = new_obstacles g rest ∖ {[(xh, yh)]}) as Hnew.
    { apply set_eq. intros h. rewrite elem_of_difference, !elem_of_new_obstacles.
      rewrite elem_of_singleton.
      split.
      - intros [Hhr Hne]. 
        assert (in_map n h.1 h.2 = true) as Hhin.
        { rewrite Forall_forall in Hrest. by apply Hrest. }
        rewrite (Hg1 _ _ Hhin) in Hne.
        destruct (decide (h = (xh, yh))) as [->|Hneq].
        { simpl in Hne. by rewrite bool_decide_eq_true_2 in Hne. }
        split; [split; [done|]|done].
        intros Hocc. apply Hne.
        rewrite bool_decide_eq_false_2 by (destruct h; done).
        rewrite bool_decide_eq_false_2; [done|]. by intros [_ ?].
      - intros [[Hhr Hne] Hneq]. split; [done|].
        assert (in_map n h.1 h.2 = true) as Hhin.
        { rewrite Forall_forall in Hrest. by apply Hrest. }
        rewrite (Hg1 _ _ Hhin).
        rewrite bool_decide_eq_false_2 by (destruct h; done).
        destruct (bool_decide (_ /\ _)); [by intros [=]|exact Hne]. }
    split.
    + rewrite IHk, Hk1, Hnew, new_obstacles_cons. simpl.
      destruct (decide (grid_get g yh xh = Ok OCCUPIED)) as [Hocc|Hocc];
        [rewrite !(bool_decide_eq_true_2 _ Hocc)|rewrite !(bool_decide_eq_false_2 _ Hocc)].
      * rewrite union_empty_l_L.
        assert ((xh, yh) ∉ new_obstacles g rest) as Hnot.
        { rewrite elem_of_new_obstacles. simpl. tauto. }
        rewrite (difference_disjoint_L (new_obstacles g rest))
          by (by apply disjoint_singleton_r).
        lia.
      * pose proof (size_union_alt (C:=gset (Z * Z)) {[(xh, yh)]} (new_obstacles g rest)) as Hsz.
        rewrite size_singleton in Hsz. lia.
    + intros x y Hxy. rewrite (IHg x y Hxy), (Hg1 x y Hxy).
      destruct (decide ((x, y) ∈ rest)) as [Hr|Hr].
      { rewrite !bool_decide_eq_true_2; [done|by right|done]. }
      rewrite (bool_decide_eq_false_2 ((x, y) ∈ rest)) by done.
      destruct (decide ((x, y) = (xh, yh))) as [Heq|Hneq].
      { rewrite (bool_decide_eq_true_2 ((x, y) = (xh, yh))) by done.
        rewrite (bool_decide_eq_true_2 ((x, y) ∈ (xh, yh) :: rest)) by (rewrite Heq; left).
        rewrite bool_decide_eq_false_2; [done|]. by intros [_ ?]. }
      rewrite (bool_decide_eq_false_2 ((x, y) = (xh, yh))) by done.
      rewrite (bool_decide_eq_false_2 ((x, y) ∈ (xh, yh) :: rest))
        by (rewrite elem_of_cons; tauto).
      unfold on_some_ray. 
      destruct (decide (grid_get g y x = Ok OCCUPIED)) as [Hocc|Hnocc].
      { rewrite (bool_decide_eq_false_2 (_ ∈ ray_cells _ _ _ _ /\ _)) by (by intros [_ ?]).
        rewrite !bool_decide_eq_false_2; [done|by intros [_ ?]|by intros [_ ?]]. }
      destruct (decide ((x, y) ∈ ray_cells cx cy xh yh)) as [Hray|Hnray].
      { rewrite (bool_decide_eq_true_2 (_ ∈ ray_cells _ _ _ _ /\ _)) by done.
        rewrite (bool_decide_eq_true_2 (Exists _ (_ :: _) /\ _))
          by (split; [by left|done]).
        destruct (bool_decide (_ /\ _)); reflexivity. }
      rewrite (bool_decide_eq_false_2 (_ ∈ ray_cells _ _ _ _ /\ _)) by (by intros [? _]).
      erewrite bool_decide_ext; [reflexivity|].
      rewrite Exists_cons. simpl. tauto.
Qed.

Lemma update_map_from_scan_closed (self : AdvancedMapper) (scan_data : list (Z * R))
    (cx cy ca : option Z) :
  wf_mapper self ->
  let car_x := default (car_x self) cx in
  let car_y := default (car_y self) cy in
  let hits := omap (hit_of self car_x car_y (default (car_angle self) ca)) scan_data in
  exists g',
    update_map_from_scan self scan_data cx cy ca =
      Ok (with_map self g', Z.of_nat (size (new_obstacles (occupancy_map self) hits))) /\
    square (map_size self) g' /\
    forall x y, in_map (map_size self) x y = true ->
      grid_get g' y x =
      if bool_decide ((x, y) ∈ hits) then Ok OCCUPIED
      else if bool_decide (on_some_ray car_x car_y hits (x, y) /\
                           grid_get (occupancy_map self) y x <> Ok OCCUPIED)
           then Ok FREE else grid_get (occupancy_map self) y x.
Proof.
  intros Hwf car_x car_y hits.
  destruct (update_map_from_scan_square self scan_data cx cy ca Hwf) as (g' & k & Hrun & Hsq).
  exists g'. pose proof Hrun as Hrun'.
  unfold update_map_from_scan in Hrun'. rewrite scan_loop_hits in Hrun'.
  fold car_x car_y hits in Hrun'.
  destruct (apply_hits _ _ _ _ _ _) as [[g1 k1]| |] eqn:Hhits; try discriminate.
  injection Hrun' as <- <-.
  destruct (apply_hits_closed _ _ _ hits _ _ _ _ Hwf (omap_hit_of_in_map self _ _ _ _) Hhits)
    as [Hk Hg].
  split; [rewrite Hrun; f_equal; f_equal; lia|]. split; [exact Hsq|exact Hg].
Qed.

Lemma on_some_ray_perm (cx cy : Z) (hits hits' : list (Z * Z)) (c : Z * Z) :
  hits ≡ₚ hits' -> on_some_ray cx cy hits c <-> on_some_ray cx cy hits' c.
Proof.
  intros Hp. unfold on_some_ray. rewrite !Exists_exists.
  split; intros (h & Hh & Hc); exists h; split; try done.
  - by rewrite <- Hp.
  - by rewrite Hp.
Qed.

Lemma new_obstacles_perm (g : grid) (hits hits' : list (Z * Z)) :
  hits ≡ₚ hits' -> new_obstacles g hits = new_obstacles g hits'.
Proof.
  intros Hp. apply set_eq. intros h. rewrite !elem_of_new_obstacles. by rewrite Hp.
Qed.

(** ** How far a hit can be *)

(** Rounding a point at most [m] away from an integer lands at most [m]
    away from it. *)
Lemma py_round_within (c m : Z) (r : R) :
  (- IZR m <= r <= IZR m)%R -> Z.abs (py_round (IZR c + r) - c) <= m.
Proof.
  intros Hr. pose proof (py_round_near (IZR c + r)) as Hnear.
  apply Rabs_le_both in Hnear.
  set (p := py_round (IZR c + r)) in *.
  assert (p - c < m + 1).
  { apply lt_IZR. rewrite minus_IZR, plus_IZR. lra. }
  assert (- m - 1 < p - c).
  { apply lt_IZR. rewrite !minus_IZR, opp_IZR. lra. }
  lia.
Qed.

Lemma py_round_ge (lo : Z) (v : R) : (IZR lo <= v)%R -> lo <= py_round v.
Proof.
  intros Hv. pose proof (py_round_near v) as Hnear. apply Rabs_le_both in Hnear.
  assert (lo - 1 < py_round v); [|lia].
  apply lt_IZR. rewrite minus_IZR. lra.
Qed.

Lemma py_round_le (hi : Z) (v : R) : (v <= IZR hi)%R -> py_round v <= hi.
Proof.
  intros Hv. pose proof (py_round_near v) as Hnear. apply Rabs_le_both in Hnear.
  assert (py_round v < hi + 1); [|lia].
  apply lt_IZR. rewrite plus_IZR. lra.
Qed.

(** ** Binary64 and the C library *)

(** Near a right angle the sine is nearly 1 and the cosine nearly 0. *)
Lemma sin_cos_near_right_angle (x : R) :
  (102943 / 65536 <= x <= 102944 / 65536)%R ->
  (9998 / 10000 <= sin x <= 1 /\ - (2 / 100) <= cos x <= 2 / 100)%R.
Proof.
  intros [Ha Hb].
  assert (3 < PI)%R as Hpi by (pose proof PI2_3_2; lra).
  destruct (SIN x) as [Hlb _]; [lra|lra|].
  assert (9998 / 10000 <= sin_lb x)%R as Hl.
  { unfold sin_lb, sin_approx, sin_term. cbn [sum_f_R0 fact Nat.mul Nat.add INR pow].
    set (a := (102943 / 65536)%R) in *. set (b := (102944 / 65536)%R) in *.
    assert (0 <= a)%R as Ha0 by (unfold a; lra).
    assert (0 <= x)%R as Hx0 by lra.
    pose proof (pow_incr x b 3 (conj Hx0 Hb)) as H3.
    pose proof (pow_incr a x 5 (conj Ha0 Ha)) as H5.
    pose proof (pow_incr x b 7 (conj Hx0 Hb)) as H7.
    cbn [pow] in H3, H5, H7. unfold a, b in *. lra. }
  pose proof (SIN_bound x) as [_ Hs1].
  split; [lra|].
  pose proof (sin2_cos2 x) as Hsq. unfold Rsqr in Hsq.
  assert (cos x * cos x <= (2 / 100) * (2 / 100))%R as Hc by nra.
  split; nra.
Qed.

(** Arithmetic without rounding error satisfies the laws. *)
Lemma exact_arithmetic_laws : Float64Laws (F64 := exact_arithmetic).
Proof.
  split; cbn.
  - intros x y Hxy. exact Hxy.
  - reflexivity.
  - apply cos_0.
  - apply sin_0.
  - apply COS_bound.
  - apply SIN_bound.
  - intros x _. rewrite Rminus_diag, Rabs_R0. lra.
  - intros x _. rewrite Rminus_diag, Rabs_R0. lra.
Qed.

Section FloatLawFacts.
Context {L : Float64Laws}.

Lemma fl_int (n : Z) : Z.abs n <= 2 ^ 53 -> fl (IZR n) = IZR n.
Proof.
  intros Hn. pose proof (fl_exact n 0 Hn) as H. change (IZR (2 ^ 0)) with 1%R in H.
  rewrite Rdiv_1_r in H. apply H. lia.
Qed.

(** Rounding does not leave an interval whose ends are floats. *)
Lemma fl_between (lo hi k : Z) (x : R) :
  Z.abs lo <= 2 ^ 53 -> Z.abs hi <= 2 ^ 53 -> 0 <= k <= 1000 ->
  (IZR lo / IZR (2 ^ k) <= x <= IZR hi / IZR (2 ^ k))%R ->
  (IZR lo / IZR (2 ^ k) <= fl x <= IZR hi / IZR (2 ^ k))%R.
Proof.
  intros Hlo Hhi Hk [H1 H2]. split.
  - rewrite <- (fl_exact lo k) by done. by apply fl_mono.
  - rewrite <- (fl_exact hi k) by done. by apply fl_mono.
Qed.

Lemma fl_between_int (lo hi : Z) (x : R) :
  Z.abs lo <= 2 ^ 53 -> Z.abs hi <= 2 ^ 53 ->
  (IZR lo <= x <= IZR hi)%R -> (IZR lo <= fl x <= IZR hi)%R.
Proof.
  intros Hlo Hhi [H1 H2]. split.
  - rewrite <- (fl_int lo) by done. by apply fl_mono.
  - rewrite <- (fl_int hi) by done. by apply fl_mono.
Qed.

Lemma radians_0 : radians 0 = 0%R.
Proof.
  unfold radians, fmul, of_int. rewrite (fl_int 0) by (cbn; lia).
  rewrite Rmult_0_l. apply (fl_int 0). cbn. lia.
Qed.

(** [math.radians(90)] and [math.radians(-90)], to within [2^-16]. *)
Lemma radians_90 :
  (IZR 102943 / IZR (2 ^ 16) <= radians 90 <= IZR 102944 / IZR (2 ^ 16))%R.
Proof.
  unfold radians, fmul, of_int. rewrite (fl_int 90) by (cbn; lia).
  apply fl_between; [cbn; lia|cbn; lia|lia|].
  unfold deg_to_rad. cbn [Z.pow Z.pow_pos Pos.iter Z.mul Pos.mul]. lra.
Qed.

Lemma radians_minus_90 :
  (IZR (-102944) / IZR (2 ^ 16) <= radians (-90) <= IZR (-102943) / IZR (2 ^ 16))%R.
Proof.
  unfold radians, fmul, of_int. rewrite (fl_int (-90)) by (cbn; lia).
  apply fl_between; [cbn; lia|cbn; lia|lia|].
  unfold deg_to_rad. cbn [Z.pow Z.pow_pos Pos.iter Z.mul Pos.mul]. lra.
Qed.

(** The library's cosine and sine of these two angles. *)
Lemma math_cos_sin_90 :
  (Rabs (math_cos (radians 90) - IZR 0) <= 21 / 1000)%R /\
  (Rabs (math_sin (radians 90) - IZR 1) <= 21 / 1000)%R.
Proof.
  pose proof radians_90 as Hr. change (IZR (2 ^ 16)) with 65536%R in Hr.
  destruct (sin_cos_near_right_angle _ Hr) as [Hs Hc].
  pose proof (math_sin_near (radians 90)) as Hsn.
  pose proof (math_cos_near (radians 90)) as Hcn.
  apply Rabs_le_both in Hsn; [|lra]. apply Rabs_le_both in Hcn; [|lra].
  split; apply Rabs_le; lra.
Qed.

Lemma math_cos_sin_minus_90 :
  (Rabs (math_cos (radians (-90)) - IZR 0) <= 21 / 1000)%R /\
  (Rabs (math_sin (radians (-90)) - IZR (-1)) <= 21 / 1000)%R.
Proof.
  pose proof radians_minus_90 as Hr. change (IZR (2 ^ 16)) with 65536%R in Hr.
  assert (102943 / 65536 <= - radians (-90) <= 102944 / 65536)%R as Hr' by lra.
  destruct (sin_cos_near_right_angle _ Hr') as [Hs Hc].
  rewrite sin_neg in Hs. rewrite cos_neg in Hc.
  pose proof (math_sin_near (radians (-90))) as Hsn.
  pose proof (math_cos_near (radians (-90))) as Hcn.
  apply Rabs_le_both in Hsn; [|lra]. apply Rabs_le_both in Hcn; [|lra].
  split; apply Rabs_le; lra.
Qed.

Lemma math_cos_sin_0 :
  (Rabs (math_cos (radians 0) - IZR 1) <= 21 / 1000)%R /\
  (Rabs (math_sin (radians 0) - IZR 0) <= 21 / 1000)%R.
Proof.
  rewrite radians_0, math_cos_0, math_sin_0, !Rminus_diag, Rabs_R0. lra.
Qed.

(** A float within a quarter of a whole number rounds to it. *)
Lemma py_round_fl_near (n : Z) (x : R) :
  Z.abs n <= 2 ^ 50 -> (Rabs (x - IZR n) <= 1 / 4)%R -> py_round (fl x) = n.
Proof.
  intros Hn Hx. apply Rabs_le_both in Hx.
  assert (IZR (4 * n - 1) / IZR (2 ^ 2) <= fl x <= IZR (4 * n + 1) / IZR (2 ^ 2))%R
    as [Hlo Hhi].
  { apply fl_between; [lia|lia|lia|].
    rewrite minus_IZR, plus_IZR, mult_IZR. change (IZR (2 ^ 2)) with 4%R. lra. }
  rewrite minus_IZR, mult_IZR in Hlo. rewrite plus_IZR, mult_IZR in Hhi.
  change (IZR (2 ^ 2)) with 4%R in Hlo, Hhi.
  apply py_round_close. apply Rabs_def1; lra.
Qed.

(** The projection of a whole distance of at most 10 cm on an axis, the
    library's cosine or sine being within [21 / 1000] of -1, 0 or 1. *)
Lemma fmul_near (d u : Z) (t : R) :
  0 <= d <= 10 -> -1 <= u <= 1 -> (Rabs (t - IZR u) <= 21 / 1000)%R ->
  (Rabs (fmul (IZR d) t - IZR (d * u)) <= 1 / 4)%R.
Proof.
  intros Hd Hu Ht. apply Rabs_le_both in Ht.
  assert (0 <= IZR d <= 10)%R as Hd'.
  { split; [apply (IZR_le 0)|apply (IZR_le _ 10)]; lia. }
  assert (IZR (4 * (d * u) - 1) / IZR (2 ^ 2) <= fmul (IZR d) t
          <= IZR (4 * (d * u) + 1) / IZR (2 ^ 2))%R as [Hlo Hhi].
  { unfold fmul. apply fl_between; [nia|nia|lia|].
    rewrite minus_IZR, plus_IZR, !mult_IZR. change (IZR (2 ^ 2)) with 4%R.
    assert (u = -1 \/ u = 0 \/ u = 1) as [-> | [-> | ->]] by lia; split; nra. }
  rewrite minus_IZR, !mult_IZR in Hlo. rewrite plus_IZR, !mult_IZR in Hhi.
  change (IZR (2 ^ 2)) with 4%R in Hlo, Hhi. rewrite mult_IZR. apply Rabs_le. lra.
Qed.

Lemma py_round_fmul (d u : Z) (t : R) :
  0 <= d <= 10 -> -1 <= u <= 1 -> (Rabs (t - IZR u) <= 21 / 1000)%R ->
  py_round (fmul (IZR d) t) = d * u.
Proof.
  intros Hd Hu Ht. apply py_round_close.
  eapply Rle_lt_trans; [by apply fmul_near|lra].
Qed.

Lemma py_round_fadd_fmul (c d u : Z) (t : R) :
  Z.abs c <= 1000 -> 0 <= d <= 10 -> -1 <= u <= 1 ->
  (Rabs (t - IZR u) <= 21 / 1000)%R ->
  py_round (fadd (of_int c) (fmul (IZR d) t)) = c + d * u.
Proof.
  intros Hc Hd Hu Ht. unfold fadd, of_int. rewrite (fl_int c) by lia.
  apply py_round_fl_near; [nia|].
  pose proof (fmul_near d u t Hd Hu Ht) as He. rewrite plus_IZR.
  replace (IZR c + fmul (IZR d) t - (IZR c + IZR (d * u)))%R
    with (fmul (IZR d) t - IZR (d * u))%R by lra.
  exact He.
Qed.

(** The cell a float sum rounds to, when it is in a map of at most [2^51]
    rows: the integer operand is then exact, and the result is as far from
    it as the other operand at most. *)
Lemma py_round_fadd_within (c m N : Z) (e : R) :
  m <= 2 ^ 51 -> N <= 2 ^ 51 -> (- IZR m <= e <= IZR m)%R ->
  0 <= py_round (fadd (of_int c) e) < N ->
  Z.abs (py_round (fadd (of_int c) e) - c) <= m.
Proof.
  intros Hm HN He. unfold fadd, of_int.
  assert (0 <= m) as Hm0.
  { apply le_IZR. lra. }
  assert (IZR m <= IZR (2 ^ 51))%R as Hm' by (by apply IZR_le).
  destruct (decide (Z.abs c <= 2 ^ 52)) as [Hc|Hc].
  - intros _. rewrite (fl_int c) by lia.
    assert (IZR (c - m) <= fl (IZR c + e) <= IZR (c + m))%R as [Hlo Hhi].
    { apply fl_between_int; [lia|lia|]. rewrite minus_IZR, plus_IZR. lra. }
    apply py_round_ge in Hlo. apply py_round_le in Hhi. lia.
  - intros [Hp0 HpN]. exfalso.
    destruct (decide (2 ^ 52 < c)) as [Hpos|Hneg].
    + assert (IZR (2 ^ 52) <= fl (IZR c))%R as H1.
      { rewrite <- (fl_int (2 ^ 52)) by lia. apply fl_mono, IZR_le. lia. }
      assert (IZR (2 ^ 51) <= fl (fl (IZR c) + e))%R as H2.
      { rewrite <- (fl_int (2 ^ 51)) by lia. apply fl_mono.
        change (2 ^ 52) with (2 ^ 51 + 2 ^ 51) in H1. rewrite plus_IZR in H1. lra. }
      apply py_round_ge in H2. lia.
    + assert (fl (IZR c) <= IZR (- 2 ^ 52))%R as H1.
      { rewrite <- (fl_int (- 2 ^ 52)) by lia. apply fl_mono, IZR_le. lia. }
      assert (fl (fl (IZR c) + e) <= IZR (- 2 ^ 51))%R as H2.
      { rewrite <- (fl_int (- 2 ^ 51)) by lia. apply fl_mono.
        change (- 2 ^ 52) with (- 2 ^ 51 + - 2 ^ 51) in H1.
        rewrite plus_IZR in H1. rewrite opp_IZR in *. lra. }
      apply py_round_le in H2. lia.
Qed.

(** The projection of a reading of at most [m] centimetres is at most [m]
    long. *)
Lemma fmul_within (m : Z) (d t : R) :
  m <= 2 ^ 51 -> (0 <= d <= IZR m)%R -> (-1 <= t <= 1)%R ->
  (- IZR m <= fmul d t <= IZR m)%R.
Proof.
  intros Hm Hd Ht. unfold fmul.
  assert (0 <= m) as Hm0 by (apply le_IZR; lra).
  rewrite <- opp_IZR. apply fl_between_int; [lia|lia|].
  rewrite opp_IZR. nra.
Qed.

(** The cell of a reading of at most [m] centimetres is at most [m] cells
    from the car along each axis. *)
Lemma polar_to_cartesian_within (self : AdvancedMapper) (angle : Z) (d : R)
    (cx cy ca : option Z) (m x y : Z) :
  map_size self <= 2 ^ 51 -> m <= 2 ^ 51 ->
  (0 <= d <= IZR m)%R ->
  polar_to_cartesian self angle d cx cy ca = Some (x, y) ->
  Z.abs (x - default (car_x self) cx) <= m /\ Z.abs (y - default (car_y self) cy) <= m.
Proof.
  intros HN Hm Hd. unfold polar_to_cartesian. cbv zeta.
  destruct (bool_decide _ && bool_decide _) eqn:Hin; [|discriminate].
  apply andb_prop in Hin as [Hx Hy]. apply bool_decide_eq_true in Hx, Hy.
  intros [= <- <-].
  split; (eapply py_round_fadd_within; [exact Hm|exact HN| |done]);
    apply fmul_within; try done.
  - apply math_cos_range.
  - apply math_sin_range.
Qed.

Lemma hit_of_within (self : AdvancedMapper) (cx cy ca : Z) (s : Z * R) (h : Z * Z) :
  map_size self <= 2 ^ 51 ->
  hit_of self cx cy ca s = Some h ->
  Z.abs (h.1 - cx) <= 80 /\ Z.abs (h.2 - cy) <= 80.
Proof.
  intros HN. unfold hit_of. destruct (dropped s.2) eqn:Hdrop; [discriminate|].
  destruct h as [x y]. intros Hhit.
  apply (polar_to_cartesian_within self s.1 s.2 (Some cx) (Some cy) (Some ca) 80 x y);
    [exact HN|lia| |exact Hhit].
  unfold dropped in Hdrop. apply orb_false_elim in Hdrop as [Hdrop H80].
  apply orb_false_elim in Hdrop as [H0 _].
  apply bool_decide_eq_false in H0, H80. unfold OBSTACLE_THRESHOLD in H80. lra.
Qed.

(** Straight ahead by 10 cm from the default pose. *)
Lemma polar_to_cartesian_ahead :
  polar_to_cartesian (mapper_at 50 50 0) 0 10 None None None = Some (60, 50).
Proof.
  destruct math_cos_sin_0 as [Hc0 Hs0].
  unfold polar_to_cartesian. cbv zeta.
  cbn [default car_x car_y car_angle mapper_at map_size]. change (0 - 0) with 0.
  rewrite (py_round_fadd_fmul 50 10 1 _ ltac:(lia) ltac:(lia) ltac:(lia) Hc0).
  rewrite (py_round_fadd_fmul 50 10 0 _ ltac:(lia) ltac:(lia) ltac:(lia) Hs0).
  reflexivity.
Qed.

(** A reading of 0 lands on the cell of the pose. *)
Lemma polar_to_cartesian_0 (self : AdvancedMapper) (angle : Z) (cx cy ca : option Z) :
  map_size self <= 2 ^ 51 ->
  in_map (map_size self) (default (car_x self) cx) (default (car_y self) cy) = true ->
  polar_to_cartesian self angle 0 cx cy ca
    = Some (default (car_x self) cx, default (car_y self) cy).
Proof.
  intros HN Hin. pose proof Hin as Hin'. unfold in_map in Hin'.
  apply andb_prop in Hin' as [Hx%bool_decide_eq_true Hy%bool_decide_eq_true].
  unfold polar_to_cartesian, fadd, fmul, of_int. cbv zeta.
  rewrite !Rmult_0_l, (fl_int 0) by lia. rewrite !Rplus_0_r.
  rewrite !(fl_int (default (car_x self) cx)) by lia.
  rewrite !(fl_int (default (car_y self) cy)) by lia.
  rewrite !py_round_IZR. unfold in_map in Hin. by rewrite Hin.
Qed.
End FloatLawFacts.

(** ** What interpolation keeps *)

Lemma interpolate_spec_sublist (step : Z) (samples : list (Z * R)) :
  samples `sublist_of` interpolate_spec step samples.
Proof.
  induction samples as [|p1 rest IH]; [constructor|].
  destruct rest as [|p2 rest']; [reflexivity|].
  rewrite interpolate_spec_cons. apply sublist_skip.
  by apply sublist_inserts_l.
Qed.

(** A point between two samples has a distance strictly between any
    bounds the two samples respect. *)
Lemma between_distance (step : Z) (p1 p2 p : Z * R) (lo hi : R) :
  (lo < p1.2 < hi)%R -> (lo < p2.2 < hi)%R -> p ∈ between step p1 p2 ->
  (lo < p.2 < hi)%R.
Proof.
  intros H1 H2. unfold between. case_bool_decide as Hsteps; [|by intros ?%elem_of_nil].
  intros (j & -> & Hj%elem_of_seqZ)%list_elem_of_fmap. simpl.
  set (n := Z.abs (p2.1 - p1.1) / sub_step step) in *.
  assert (0 < IZR j / IZR n < 1)%R as Ht.
  { assert (0 < IZR n)%R by (apply IZR_lt; lia).
    assert (0 < IZR j)%R by (apply IZR_lt; lia).
    assert (IZR j < IZR n)%R by (apply IZR_lt; lia).
    split.
    - by apply Rdiv_lt_0_compat.
    - apply Rmult_lt_reg_r with (IZR n); [done|].
      unfold Rdiv. rewrite Rmult_assoc, Rinv_l by lra. lra. }
  set (t := (IZR j / IZR n)%R) in *. nra.
Qed.

Lemma interpolate_spec_distance (step : Z) (samples : list (Z * R)) (lo hi : R) :
  Forall (fun p => (lo < p.2 < hi)%R) samples ->
  Forall (fun p => (lo < p.2 < hi)%R) (interpolate_spec step samples).
Proof.
  induction samples as [|p1 rest IH]; intros Hall; [constructor|].
  destruct rest as [|p2 rest']; [exact Hall|].
  rewrite interpolate_spec_cons.
  apply Forall_cons in Hall as [H1 Hrest]. pose proof Hrest as Hrest'.
  apply Forall_cons in Hrest' as [H2 _].
  constructor; [exact H1|]. apply Forall_app. split; [|by apply IH].
  apply Forall_forall. intros p Hp.
  exact (between_distance step p1 p2 p lo hi H1 H2 Hp).
Qed.

(** Whenever [interpolate_scan] returns, it returns the interpolation of
    the specification. *)
Lemma interpolate_scan_returns (scan_data out : list (Z * R)) (step : Z) :
  interpolate_scan scan_data step = Ok out -> out = interpolate_spec step scan_data.
Proof.
  intros Hrun. destruct (decide (sub_step step = 0)) as [Hzero|Hnz].
  - destruct (decide (length scan_data < 2)%nat) as [Hshort|Hlong].
    + rewrite interpolate_scan_short in Hrun by done. injection Hrun as <-.
      by destruct scan_data as [|p1 [|p2 rest]]; [..|simpl in Hshort; lia].
    + rewrite interpolate_scan_zero_division in Hrun by (done || lia). discriminate.
  - rewrite interpolate_scan_spec in Hrun by done. by injection Hrun.
Qed.

(** ** The sweep *)

Lemma py_range_elements (start stop step : Z) (angles : list Z) (a : Z) :
  py_range start stop step = Ok angles -> a ∈ angles ->
  exists i, 0 <= i /\ a = start + i * step /\
            (0 < step -> a < stop) /\ (step < 0 -> stop < a).
Proof.
  unfold py_range. case_bool_decide as Hz; [discriminate|]. intros [= <-].
  intros (i & -> & Hi%elem_of_seqZ)%list_elem_of_fmap.
  exists i. split; [lia|]. split; [reflexivity|]. split; intros Hs.
  - rewrite bool_decide_eq_true_2 in Hi by done.
    pose proof (Z.mul_div_le (stop - start + step - 1) step Hs). nia.
  - rewrite bool_decide_eq_false_2 in Hi by lia.
    pose proof (Z.mul_div_le (start - stop - step - 1) (- step)). nia.
Qed.

Lemma py_range_sorted (start stop step : Z) (angles : list Z) :
  py_range start stop step = Ok angles ->
  (0 < step -> StronglySorted Z.lt angles) /\ (step < 0 -> StronglySorted Z.gt angles).
Proof.
  unfold py_range. case_bool_decide as Hz; [discriminate|]. intros [= <-].
  set (len := if bool_decide (0 < step) then _ else _).
  destruct (decide (len <= 0)) as [Hle|Hpos].
  { rewrite seqZ_nil by done. split; constructor. }
  replace len with (Z.of_nat (Z.to_nat len)) by lia.
  split; intros Hs; (eapply StronglySorted_fmap; [|apply seqZ_sorted]); intros i j Hij; nia.
Qed.

Lemma sublist_StronglySorted {A : Type} (R : relation A) (l1 l2 : list A) :
  l1 `sublist_of` l2 -> StronglySorted R l2 -> StronglySorted R l1.
Proof.
  induction 1 as [|x l1 l2 Hsub IH|x l1 l2 Hsub IH]; intros Hsorted; [constructor|..].
  - apply StronglySorted_cons in Hsorted as [Hall Hs]. constructor; [by apply IH|].
    apply Forall_forall. intros y Hy. rewrite Forall_forall in Hall. apply Hall.
    eapply elem_of_submseteq; [exact Hy|]. by apply sublist_submseteq.
  - apply StronglySorted_cons in Hsorted as [_ Hs]. by apply IH.
Qed.

Section ScanFacts.
Context {V U : Type} `{!Servo V} `{!Ultrasonic U}.

(** What the loop adds to the list: valid samples, at bearings taken in
    order from the sweep. *)
Lemma scan_loop_kept (angles : list Z) :
  forall (servo : V) (us : U) (acc : list (Z * R)),
    exists servo' us' kept,
      fold_left scan_step angles (servo, us, acc) = (servo', us', acc ++ kept) /\
      kept.*1 `sublist_of` angles /\ Forall valid_sample kept.
Proof.
  induction angles as [|a angles IH]; intros servo us acc.
  - exists servo, us, []. rewrite app_nil_r. by repeat split.
  - cbn [fold_left]. unfold scan_step at 2.
    destruct (sense us) as [d us1] eqn:Hsense.
    destruct (bool_decide (0 < d)%R && bool_decide (d < MAX_DISTANCE)%R) eqn:Hvalid.
    + destruct (IH (set_angle a servo) us1 (acc ++ [(a, d)])) as (s' & u' & kept & Hrun & Hsub & Hall).
      exists s', u', ((a, d) :: kept). rewrite Hrun, <- app_assoc.
      split; [reflexivity|]. split; [by apply sublist_skip|].
      constructor; [|exact Hall].
      apply andb_prop in Hvalid as [H0%bool_decide_eq_true H1%bool_decide_eq_true].
      by split.
    + destruct (IH (set_angle a servo) us1 acc) as (s' & u' & kept & Hrun & Hsub & Hall).
      exists s', u', kept. split; [exact Hrun|]. split; [by apply sublist_cons|exact Hall].
Qed.
End ScanFacts.

(** ** The display *)

Lemma string_length_app (s t : string) :
  String.length (s +:+ t) = (String.length s + String.length t)%nat.
Proof. induction s as [|a s IH]; simpl; [reflexivity|by rewrite IH]. Qed.

Lemma tally_cons (g : grid) (v : Z) (c : Z * Z) (cs : list (Z * Z)) :
  tally g v (c :: cs) =
  (if bool_decide (grid_get g c.2 c.1 = Ok v) then 1 else 0) + tally g v cs.
Proof.
  unfold tally. case_bool_decide as Hc.
  - rewrite filter_cons_True by done. simpl length. lia.
  - rewrite filter_cons_False by done. lia.
Qed.

Lemma drawn_cells_cons (self : AdvancedMapper) (show_car : bool) (y x : Z) (xs : list Z) :
  drawn_cells self show_car y (x :: xs) =
  if show_car && bool_decide (x = car_x self) && bool_decide (y = car_y self)
  then drawn_cells self show_car y xs
  else (x, y) :: drawn_cells self show_car y xs.
Proof.
  unfold drawn_cells. rewrite fmap_cons.
  destruct (show_car && bool_decide (x = car_x self) && bool_decide (y = car_y self)) eqn:Hcar.
  - apply andb_prop in Hcar as [[-> ->%bool_decide_eq_true]%andb_prop ->%bool_decide_eq_true].
    rewrite filter_cons_False; [reflexivity|]. intros Hn. by apply Hn.
  - rewrite filter_cons_True; [reflexivity|]. intros [-> [= -> ->]].
    by rewrite !bool_decide_eq_true_2 in Hcar.
Qed.

(** One row: a character a cell, and the counters up by the row's cells in
    each state. *)
Lemma show_cells_row (self : AdvancedMapper) (show_car : bool) (y : Z) (xs : list Z) :
  wf_mapper self -> 0 <= y < map_size self ->
  Forall (fun x => 0 <= x < map_size self) xs ->
  forall (line : string) (o f u : Z),
  exists line' u',
    for_each (show_cell self show_car y) xs (line, o, f, u) =
      Ok (line',
          o + tally (occupancy_map self) OCCUPIED (drawn_cells self show_car y xs),
          f + tally (occupancy_map self) FREE (drawn_cells self show_car y xs),
          u') /\
    String.length line' = (String.length line + length xs)%nat /\
    u' - u + tally (occupancy_map self) OCCUPIED (drawn_cells self show_car y xs)
           + tally (occupancy_map self) FREE (drawn_cells self show_car y xs)
      = Z.of_nat (length (drawn_cells self show_car y xs)).
Proof.
  intros Hwf Hy Hxs. induction Hxs as [|x xs Hx Hxs IH]; intros line o f u.
  - exists line, u. cbn. unfold tally. cbn. split; [by rewrite !Z.add_0_r|]. split; lia.
  - cbn [for_each]. rewrite drawn_cells_cons. unfold show_cell at 2.
    destruct (show_car && bool_decide (x = car_x self) && bool_decide (y = car_y self)).
    { cbn [mbind outcome_bind].
      destruct (IH (line +:+ "C") o f u) as (line' & u' & Hrun & Hlen & Hsum).
      exists line', u'. split; [exact Hrun|]. split; [|exact Hsum].
      rewrite Hlen, string_length_app. simpl. lia. }
    assert (in_map (map_size self) x y = true) as Hin.
    { unfold in_map. by rewrite !bool_decide_eq_true_2. }
    destruct (grid_get_in _ _ _ _ Hwf Hin) as (v & Hv).
    rewrite Hv. cbn [mbind outcome_bind]. rewrite !tally_cons. cbn [fst snd].
    rewrite Hv. cbn [length].
    destruct (decide (v = OCCUPIED)) as [->|Hocc].
    + rewrite bool_decide_eq_true_2 by done.
      destruct (IH (line +:+ "1") (o + 1) f u) as (line' & u' & Hrun & Hlen & Hsum).
      exists line', u'. cbn [mbind outcome_bind]. rewrite Hrun.
      rewrite bool_decide_eq_true_2 by done.
      rewrite (bool_decide_eq_false_2 (Ok OCCUPIED = Ok FREE)) by (by intros [=]).
      split; [by rewrite ?Z.add_0_l, ?Z.add_assoc|]. split; [|lia].
      rewrite Hlen, string_length_app. simpl. lia.
    + rewrite (bool_decide_eq_false_2 (v = OCCUPIED)) by done.
      rewrite (bool_decide_eq_false_2 (Ok v = Ok OCCUPIED)) by (by intros [=]).
      destruct (decide (v = FREE)) as [->|Hfree].
      * rewrite bool_decide_eq_true_2 by done.
        destruct (IH (line +:+ ".") o (f + 1) u) as (line' & u' & Hrun & Hlen & Hsum).
        exists line', u'. cbn [mbind outcome_bind]. rewrite Hrun.
        rewrite bool_decide_eq_true_2 by done.
        split; [by rewrite ?Z.add_0_l, ?Z.add_assoc|]. split; [|lia].
        rewrite Hlen, string_length_app. simpl. lia.
      * rewrite (bool_decide_eq_false_2 (v = FREE)) by done.
        rewrite (bool_decide_eq_false_2 (Ok v = Ok FREE)) by (by intros [=]).
        destruct (IH (line +:+ "?") o f (u + 1)) as (line' & u' & Hrun & Hlen & Hsum).
        exists line', u'. cbn [mbind outcome_bind]. rewrite Hrun.
        split; [by rewrite ?Z.add_0_l, ?Z.add_assoc|]. split; [|lia].
        rewrite Hlen, string_length_app. simpl. lia.
Qed.

Lemma tally_app (g : grid) (v : Z) (cs cs' : list (Z * Z)) :
  tally g v (cs ++ cs') = tally g v cs + tally g v cs'.
Proof. unfold tally. rewrite filter_app, length_app. lia. Qed.

Lemma tally_two_states (g : grid) (cs : list (Z * Z)) :
  0 <= tally g OCCUPIED cs /\ 0 <= tally g FREE cs /\
  tally g OCCUPIED cs + tally g FREE cs <= Z.of_nat (length cs).
Proof.
  induction cs as [|c cs IH]; [unfold tally; simpl; lia|].
  rewrite !tally_cons. cbn [length].
  destruct (grid_get g c.2 c.1) as [v| |].
  - destruct (decide (v = OCCUPIED)) as [->|Hocc].
    + rewrite bool_decide_eq_true_2 by done.
      rewrite bool_decide_eq_false_2 by (by intros [=]). lia.
    + rewrite (bool_decide_eq_false_2 (Ok v = Ok OCCUPIED)) by (by intros [=]).
      case_bool_decide; lia.
  - rewrite !bool_decide_eq_false_2 by done. lia.
  - rewrite !bool_decide_eq_false_2 by done. lia.
Qed.

(** The whole picture: a line a row, and the counters of the summary. *)
Lemma show_rows (self : AdvancedMapper) (show_car : bool) (ys : list Z) :
  wf_mapper self -> Forall (fun y => 0 <= y < map_size self) ys ->
  forall (lines : list string) (o f u : Z),
  exists new u',
    for_each (show_row self show_car) ys (lines, o, f, u) =
      Ok (lines ++ new,
          o + tally (occupancy_map self) OCCUPIED (drawn_map self show_car ys),
          f + tally (occupancy_map self) FREE (drawn_map self show_car ys),
          u') /\
    length new = length ys /\
    Forall (fun line => String.length line = (Z.to_nat (map_size self) + 2)%nat) new /\
    u' - u + tally (occupancy_map self) OCCUPIED (drawn_map self show_car ys)
           + tally (occupancy_map self) FREE (drawn_map self show_car ys)
      = Z.of_nat (length (drawn_map self show_car ys)).
Proof.
  intros Hwf Hys. induction Hys as [|y ys Hy Hys IH]; intros lines o f u.
  - exists [], u. cbn. unfold tally. cbn. rewrite app_nil_r, !Z.add_0_r.
    split; [reflexivity|]. split; [reflexivity|]. split; [constructor|lia].
  - cbn [for_each]. unfold show_row at 2.
    assert (Forall (fun x => 0 <= x < map_size self) (seqZ 0 (map_size self))) as Hxs.
    { apply Forall_seqZ. intros x Hx. lia. }
    destruct (show_cells_row self show_car y _ Hwf Hy Hxs "|" o f u)
      as (line & u1 & Hrow & Hlen & Hsum).
    rewrite Hrow. cbn [mbind outcome_bind].
    destruct (IH (lines ++ [line +:+ "|"])
                 (o + tally (occupancy_map self) OCCUPIED
                        (drawn_cells self show_car y (seqZ 0 (map_size self))))
                 (f + tally (occupancy_map self) FREE
                        (drawn_cells self show_car y (seqZ 0 (map_size self)))) u1)
      as (new & u' & Hrun & Hnew & Hall & Hsum').
    exists ((line +:+ "|") :: new), u'. rewrite Hrun.
    unfold drawn_map. rewrite fmap_cons. cbn [concat].
    rewrite !tally_app, length_app. fold (drawn_map self show_car ys).
    split; [by rewrite <- app_assoc, !Z.add_assoc|].
    split; [simpl; lia|]. split; [|lia].
    constructor; [|exact Hall].
    rewrite string_length_app, Hlen, length_seqZ. simpl. lia.
Qed.

Lemma length_filter_but_one {A : Type} `{EqDecision A} (b : bool) (c0 : A) (l : list A) :
  NoDup l ->
  Z.of_nat (length (filter (fun c => ~ (b = true /\ c = c0)) l)) =
  Z.of_nat (length l) - (if b && bool_decide (c0 ∈ l) then 1 else 0).
Proof.
  induction 1 as [|c l Hc Hnd IH].
  - simpl. rewrite andb_false_r. lia.
  - destruct (decide (b = true /\ c = c0)) as [[-> ->]|Hne].
    + rewrite filter_cons_False by (intros Hn; by apply Hn).
      rewrite IH. cbn [andb length].
      rewrite (bool_decide_eq_false_2 (c0 ∈ l)) by done.
      rewrite bool_decide_eq_true_2 by left. lia.
    + rewrite filter_cons_True by done. cbn [length]. rewrite Nat2Z.inj_succ, IH.
      destruct b; cbn [andb]; [|lia].
      assert (c <> c0) as Hcc by (intros ->; by apply Hne).
      destruct (decide (c0 ∈ l)) as [Hin|Hout].
      * rewrite !bool_decide_eq_true_2; [lia| |done]. by right.
      * rewrite !bool_decide_eq_false_2; [lia| |done].
        intros [Heq|Hin]%elem_of_cons; [by apply Hcc|by apply Hout].
Qed.

Lemma length_drawn_cells (self : AdvancedMapper) (show_car : bool) (y : Z) :
  0 <= map_size self ->
  Z.of_nat (length (drawn_cells self show_car y (seqZ 0 (map_size self)))) =
  map_size self -
  (if show_car && bool_decide (0 <= car_x self < map_size self)
      && bool_decide (y = car_y self) then 1 else 0).
Proof.
  intros Hn. unfold drawn_cells. rewrite length_filter_but_one; cycle 1.
  { apply NoDup_fmap_2; [|apply NoDup_seqZ]. by intros x x' [= ->]. }
  rewrite length_fmap, length_seqZ, Z2Nat.id by done. f_equal.
  destruct show_car; cbn [andb]; [|reflexivity].
  destruct (decide (0 <= car_x self < map_size self /\ y = car_y self)) as [[Hx ->]|Hne].
  - rewrite !bool_decide_eq_true_2; [reflexivity|done|done|].
    apply list_elem_of_fmap. exists (car_x self). split; [reflexivity|].
    apply elem_of_seqZ. lia.
  - rewrite bool_decide_eq_false_2.
    + repeat case_bool_decide; try reflexivity. exfalso. by apply Hne.
    + intros (x & [= Hcx Hcy] & Hx%elem_of_seqZ)%list_elem_of_fmap. apply Hne. lia.
Qed.

Lemma length_drawn_map (self : AdvancedMapper) (show_car : bool) (ys : list Z) :
  0 <= map_size self -> NoDup ys ->
  Z.of_nat (length (drawn_map self show_car ys)) =
  Z.of_nat (length ys) * map_size self -
  (if show_car && bool_decide (0 <= car_x self < map_size self)
      && bool_decide (car_y self ∈ ys) then 1 else 0).
Proof.
  intros Hn. induction 1 as [|y ys Hy Hnd IH].
  - simpl. rewrite andb_false_r. lia.
  - unfold drawn_map. rewrite fmap_cons. cbn [concat]. fold (drawn_map self show_car ys).
    rewrite length_app, Nat2Z.inj_add, IH, length_drawn_cells by done. cbn [length].
    destruct (show_car && bool_decide (0 <= car_x self < map_size self)); cbn [andb]; [|lia].
    destruct (decide (y = car_y self)) as [->|Hne].
    + rewrite (bool_decide_eq_true_2 (car_y self = car_y self)) by done.
      rewrite (bool_decide_eq_false_2 (car_y self ∈ ys)) by done.
      rewrite bool_decide_eq_true_2 by left. lia.
    + rewrite (bool_decide_eq_false_2 (y = car_y self)) by done.
      destruct (decide (car_y self ∈ ys)) as [Hin|Hout].
      * rewrite !bool_decide_eq_true_2; [lia| |done]. by right.
      * rewrite !bool_decide_eq_false_2; [lia| |done].
        intros [Heq|Hin]%elem_of_cons; [by apply Hne|by apply Hout].
Qed.

Lemma ray_cells_same (x y : Z) : ray_cells x y x y = [].
Proof.
  unfold ray_cells. rewrite !Z.sub_diag. change (Z.to_nat (Z.abs 0 + Z.abs 0)) with 0%nat.
  cbn [ray]. by rewrite bool_decide_eq_true_2.
Qed.

Lemma mapper_at_wf (x y heading : Z) : wf_mapper (mapper_at x y heading).
Proof. split; [reflexivity|]. apply Forall_replicate. reflexivity. Qed.

Lemma size_list_to_set_le (l : list (Z * Z)) :
  (size (list_to_set (C := gset (Z * Z)) l) <= length l)%nat.
Proof.
  induction l as [|a l IH]; [by rewrite list_to_set_nil, size_empty|].
  rewrite list_to_set_cons. cbn [length].
  pose proof (size_union_alt (C := gset (Z * Z)) {[a]} (list_to_set l)) as Hsz.
  rewrite size_singleton in Hsz.
  assert (size (list_to_set (C := gset (Z * Z)) l ∖ {[a]}) <= size (list_to_set (C := gset (Z * Z)) l))%nat
    as Hle by (apply subseteq_size, subseteq_difference_l; reflexivity).
  lia.
Qed.

Lemma length_omap_le {A B : Type} (f : A -> option B) (l : list A) :
  (length (omap f l) <= length l)%nat.
Proof.
  induction l as [|a l IH]; [reflexivity|].
  cbn [omap list_omap length]. destruct (f a); cbn [length]; lia.
Qed.

Lemma size_new_obstacles_le (g : grid) (hits : list (Z * Z)) :
  (size (new_obstacles g hits) <= length hits)%nat.
Proof.
  unfold new_obstacles. etrans; [apply size_list_to_set_le|]. apply length_filter.
Qed.

(** A point between two samples has a distance within any bounds the two
    samples respect. *)
Lemma between_distance_le (step : Z) (p1 p2 p : Z * R) (lo hi : R) :
  (lo <= p1.2 <= hi)%R -> (lo <= p2.2 <= hi)%R -> p ∈ between step p1 p2 ->
  (lo <= p.2 <= hi)%R.
Proof.
  intros H1 H2. unfold between. case_bool_decide as Hsteps; [|by intros ?%elem_of_nil].
  intros (j & -> & Hj%elem_of_seqZ)%list_elem_of_fmap. simpl.
  set (n := Z.abs (p2.1 - p1.1) / sub_step step) in *.
  assert (0 < IZR j / IZR n < 1)%R as Ht.
  { assert (0 < IZR n)%R by (apply IZR_lt; lia).
    assert (0 < IZR j)%R by (apply IZR_lt; lia).
    assert (IZR j < IZR n)%R by (apply IZR_lt; lia).
    split.
    - by apply Rdiv_lt_0_compat.
    - apply Rmult_lt_reg_r with (IZR n); [done|].
      unfold Rdiv. rewrite Rmult_assoc, Rinv_l by lra. lra. }
  set (t := (IZR j / IZR n)%R) in *. nra.
Qed.

Lemma interpolate_spec_distance_le (step : Z) (samples : list (Z * R)) (lo hi : R) :
  Forall (fun p => (lo <= p.2 <= hi)%R) samples ->
  Forall (fun p => (lo <= p.2 <= hi)%R) (interpolate_spec step samples).
Proof.
  induction samples as [|p1 rest IH]; intros Hall; [constructor|].
  destruct rest as [|p2 rest']; [exact Hall|].
  rewrite interpolate_spec_cons.
  apply Forall_cons in Hall as [H1 Hrest]. pose proof Hrest as Hrest'.
  apply Forall_cons in Hrest' as [H2 _].
  constructor; [exact H1|]. apply Forall_app. split; [|by apply IH].
  apply Forall_forall. intros p Hp.
  exact (between_distance_le step p1 p2 p lo hi H1 H2 Hp).
Qed.

Lemma interpolate_spec_head (step : Z) (samples : list (Z * R)) :
  head (interpolate_spec step samples) = head samples.
Proof. by destruct samples as [|p1 [|p2 rest]]. Qed.

Lemma interpolate_spec_last (step : Z) (samples : list (Z * R)) :
  last (interpolate_spec step samples) = last samples.
Proof.
  rewrite interpolate_spec_pairs_out. destruct (last samples) as [p|] eqn:Hlast.
  - apply last_snoc.
  - apply last_None in Hlast as ->. reflexivity.
Qed.

Lemma py_range_returns (start stop step : Z) :
  step <> 0 -> exists angles, py_range start stop step = Ok angles.
Proof. intros Hstep. unfold py_range. rewrite bool_decide_eq_false_2 by done. eauto. Qed.

Lemma py_range_empty (start stop step : Z) :
  step < 0 -> start <= stop -> py_range start stop step = Ok [].
Proof.
  intros Hstep Hle. unfold py_range. rewrite !bool_decide_eq_false_2 by lia.
  rewrite seqZ_nil; [reflexivity|].
  assert ((start - stop - step - 1) / - step < 1); [|lia].
  apply Z.div_lt_upper_bound; lia.
Qed.

Lemma interpolate_spec_bearing_range (step : Z) (samples : list (Z * R)) (lo hi : Z) :
  2 <= step ->
  Forall (fun a => lo <= a <= hi) samples.*1 ->
  Forall (fun a => lo <= a <= hi) (interpolate_spec step samples).*1.
Proof.
  intros Hstep. induction samples as [|p1 rest IH]; intros Hall; [constructor|].
  destruct rest as [|p2 rest']; [exact Hall|].
  rewrite interpolate_spec_cons. rewrite fmap_cons, fmap_app.
  rewrite !fmap_cons in Hall, IH.
  apply Forall_cons in Hall as [H1 Hrest]. pose proof Hrest as Hrest'.
  apply Forall_cons in Hrest' as [H2 _].
  constructor; [exact H1|]. apply Forall_app. split; [|by apply IH].
  apply Forall_forall. intros b Hb.
  pose proof (between_bearing step p1 p2 b Hstep Hb). lia.
Qed.

Lemma interpolate_spec_sorted_le (step : Z) (samples : list (Z * R)) :
  2 <= step -> StronglySorted Z.le samples.*1 ->
  StronglySorted Z.le (interpolate_spec step samples).*1.
Proof.
  intros Hstep Hsorted.
  refine (proj1 (interpolate_spec_sorted Z.le step _ _ _ _ samples Hsorted)).
  - intros a. lia.
  - intros a b c. lia.
  - intros p1 p2. by apply between_sorted_le.
  - intros p1 p2 b Hle Hb. pose proof (between_bearing step p1 p2 b Hstep Hb). lia.
Qed.

Lemma StronglySorted_lt_le (l : list Z) : StronglySorted Z.lt l -> StronglySorted Z.le l.
Proof.
  induction 1 as [|a l Hs IH Hall]; constructor; [exact IH|].
  eapply Forall_impl; [exact Hall|]. intros b Hb. simpl in Hb. lia.
Qed.

Lemma filter_all {A : Type} (P : A -> Prop) `{!forall x, Decision (P x)} (l : list A) :
  Forall P l -> filter P l = l.
Proof.
  induction 1 as [|x l Hx Hl IH]; [reflexivity|].
  by rewrite filter_cons_True, IH.
Qed.

Lemma filter_none {A : Type} (P : A -> Prop) `{!forall x, Decision (P x)} (l : list A) :
  Forall (fun x => ~ P x) l -> filter P l = [].
Proof.
  induction 1 as [|x l Hx Hl IH]; [reflexivity|].
  by rewrite filter_cons_False.
Qed.

Section ScanRun.
Context {V U : Type} `{!Servo V} `{!Ultrasonic U}.

(** The sweep, then the optional interpolation of what it kept. *)
Lemma scan_environment_run (servo : V) (us : U) (angle_min angle_max step : Z)
    (interpolate : bool) (angles : list Z) :
  py_range angle_min (angle_max + 1) step = Ok angles ->
  exists servo' us' kept,
    fold_left scan_step angles (servo, us, []) = (servo', us', kept) /\
    kept.*1 `sublist_of` angles /\ Forall valid_sample kept /\
    scan_environment servo us angle_min angle_max step interpolate =
      out ← (if interpolate then interpolate_scan kept step else Ok kept);
      Ok (set_angle 0 servo', us', kept, out).
Proof.
  intros Hrange.
  destruct (scan_loop_kept angles servo us []) as (servo' & us' & kept & Hrun & Hsub & Hall).
  rewrite app_nil_l in Hrun. exists servo', us', kept.
  split; [exact Hrun|]. split; [exact Hsub|]. split; [exact Hall|].
  unfold scan_environment. rewrite Hrange. cbn [mbind outcome_bind]. rewrite Hrun.
  reflexivity.
Qed.
End ScanRun.

(** The sweep with the mock sensor: one draw a bearing, and a reading is
    kept when it is below [MAX_DISTANCE]. *)
Lemma mock_scan_loop (angles : list Z) :
  forall (servo : MockServo) (us : MockUltrasonic) (acc : list (Z * R)),
  exists servo',
    fold_left scan_step angles (servo, us, acc) =
    (servo',
     {| us_distance := us_distance us; base_distance := base_distance us;
        draws := draws us; drawn := (drawn us + length angles)%nat |},
     acc ++ filter (fun p => (p.2 < MAX_DISTANCE)%R)
              (imap (fun i angle =>
                       (angle, IZR (Z.max 5 (base_distance us + draws us (drawn us + i)%nat))))
                    angles)).
Proof.
  induction angles as [|a angles IH]; intros servo [d0 base rng k] acc.
  - exists servo. cbn. by rewrite app_nil_r, Nat.add_0_r.
  - cbn [fold_left]. unfold scan_step at 2. unfold sense. cbn [get_distance MockUltrasonic_Ultrasonic].
    unfold mock_get_distance. cbn [draws drawn base_distance us_distance].
    assert (0 < IZR (Z.max 5 (base + rng k)))%R as Hpos by (apply IZR_lt; lia).
    rewrite (bool_decide_eq_true_2 _ Hpos). cbn [andb].
    cbn [imap length]. rewrite Nat.add_0_r.
    destruct (decide (IZR (Z.max 5 (base + rng k)) < MAX_DISTANCE)%R) as [Hlt|Hge].
    + rewrite (bool_decide_eq_true_2 _ Hlt). rewrite filter_cons_True by exact Hlt.
      destruct (IH (set_angle a servo)
                   {| us_distance := d0; base_distance := base; draws := rng; drawn := S k |}
                   (acc ++ [(a, IZR (Z.max 5 (base + rng k)))])) as (servo' & Hrun).
      exists servo'. rewrite Hrun. cbn [draws drawn base_distance us_distance].
      rewrite <- app_assoc. cbn [app]. rewrite Nat.add_succ_r.
      do 4 f_equal. apply imap_ext. intros i x _. cbn. by rewrite Nat.add_succ_r.
    + rewrite (bool_decide_eq_false_2 _ Hge). rewrite filter_cons_False by exact Hge.
      destruct (IH (set_angle a servo)
                   {| us_distance := d0; base_distance := base; draws := rng; drawn := S k |}
                   acc) as (servo' & Hrun).
      exists servo'. rewrite Hrun. cbn [draws drawn base_distance us_distance].
      rewrite Nat.add_succ_r.
      do 3 f_equal. apply imap_ext. intros i x _. cbn. by rewrite Nat.add_succ_r.
Qed.

(** With the mock sensor in range, every bearing of the sweep is kept. *)
Lemma mock_scan_in_range (servo : MockServo) (us : MockUltrasonic)
    (angle_min angle_max step : Z) (interpolate : bool) (angles : list Z) :
  (forall i, -3 <= draws us i <= 3) -> base_distance us <= 96 ->
  py_range angle_min (angle_max + 1) step = Ok angles ->
  let readings :=
    imap (fun i angle =>
            (angle, IZR (Z.max 5 (base_distance us + draws us (drawn us + i)%nat)))) angles in
  scan_environment servo us angle_min angle_max step interpolate =
    out ← (if interpolate then interpolate_scan readings step else Ok readings);
    Ok ({| servo_angle := 0 |},
        {| us_distance := us_distance us; base_distance := base_distance us;
           draws := draws us; drawn := (drawn us + length angles)%nat |},
        readings, out).
Proof.
  intros Hdraws Hbase Hrange readings.
  destruct (mock_scan_loop angles servo us []) as (servo' & Hloop). rewrite app_nil_l in Hloop.
  fold readings in Hloop.
  unfold scan_environment. rewrite Hrange. cbn [mbind outcome_bind]. rewrite Hloop.
  rewrite filter_all; [reflexivity|].
  apply Forall_forall. intros p (i & a & -> & _)%elem_of_lookup_imap. unfold MAX_DISTANCE.
  apply IZR_lt. pose proof (Hdraws (drawn us + i)%nat). cbn [snd]. lia.
Qed.

Lemma wf_mapper_size (self : AdvancedMapper) : wf_mapper self -> 0 <= map_size self.
Proof. intros [Hlen _]. lia. Qed.

(** The picture of a well-formed mapper. *)
Lemma visualize_map_wf (self : AdvancedMapper) (show_car : bool) :
  wf_mapper self ->
  let n := map_size self in
  let cells := drawn_map self show_car (seqZ 0 n) in
  exists lines unknown,
    visualize_map self show_car =
      Ok (lines, tally (occupancy_map self) OCCUPIED cells,
          tally (occupancy_map self) FREE cells, unknown) /\
    length lines = Z.to_nat n /\
    Forall (fun line => String.length line = (Z.to_nat n + 2)%nat) lines /\
    0 <= unknown /\
    tally (occupancy_map self) OCCUPIED cells + tally (occupancy_map self) FREE cells
      + unknown
    = n * n - (if show_car && in_map n (car_x self) (car_y self) then 1 else 0).
Proof.
  intros Hwf n cells. pose proof (wf_mapper_size self Hwf) as Hn. fold n in Hn.
  assert (Forall (fun y => 0 <= y < map_size self) (seqZ 0 n)) as Hys.
  { apply Forall_seqZ. intros y Hy. fold n. lia. }
  destruct (show_rows self show_car (seqZ 0 n) Hwf Hys [] 0 0 0)
    as (lines & unknown & Hrun & Hlen & Hall & Hsum).
  fold cells in Hrun, Hsum. rewrite app_nil_l, !Z.add_0_l in Hrun.
  exists lines, unknown. split; [exact Hrun|].
  split; [by rewrite Hlen, length_seqZ|]. split; [exact Hall|].
  pose proof (tally_two_states (occupancy_map self) cells) as (HO & HF & Hle).
  split; [lia|].
  pose proof (length_drawn_map self show_car (seqZ 0 n) Hn (NoDup_seqZ 0 n)) as Hcells.
  fold cells in Hcells. rewrite length_seqZ, Z2Nat.id in Hcells by done.
  assert ((show_car && bool_decide (0 <= car_x self < map_size self)
             && bool_decide (car_y self ∈ seqZ 0 n))
          = (show_car && in_map n (car_x self) (car_y self))) as Hcar.
  { rewrite <- andb_assoc. f_equal. unfold in_map. fold n. f_equal.
    apply bool_decide_ext. rewrite elem_of_seqZ. lia. }
  rewrite Hcar in Hcells. lia.
Qed.

Lemma update_car_position_turn (self : AdvancedMapper) (d : R) (a : Z) :
  (d <= 0)%R ->
  update_car_position self d a =
  {| map_size := map_size self; map_center := map_center self;
     occupancy_map := occupancy_map self;
     car_x := car_x self; car_y := car_y self;
     car_angle := (car_angle self + a) mod 360 |}.
Proof.
  intros Hd. unfold update_car_position. rewrite bool_decide_eq_false_2 by lra. reflexivity.
Qed.

(** ** Counting cells *)

Lemma length_filter_or {A : Type} (P Q : A -> Prop)
    `{!forall x, Decision (P x)} `{!forall x, Decision (Q x)} (l : list A) :
  (forall x, x ∈ l -> ~ (P x /\ Q x)) ->
  length (filter (fun x => P x \/ Q x) l) = (length (filter P l) + length (filter Q l))%nat.
Proof.
  induction l as [|a l IH]; intros Hdis; [reflexivity|].
  assert (forall x, x ∈ l -> ~ (P x /\ Q x)) as Hdis' by (intros x Hx; apply Hdis; by right).
  specialize (IH Hdis').
  assert (~ (P a /\ Q a)) as Ha by (apply Hdis; left).
  destruct (decide (P a)) as [HP|HP]; destruct (decide (Q a)) as [HQ|HQ].
  - exfalso. by apply Ha.
  - rewrite (filter_cons_True (fun x => P x \/ Q x)) by (by left).
    rewrite (filter_cons_True P), (filter_cons_False Q) by done. cbn [length]. lia.
  - rewrite (filter_cons_True (fun x => P x \/ Q x)) by (by right).
    rewrite (filter_cons_False P), (filter_cons_True Q) by done. cbn [length]. lia.
  - rewrite (filter_cons_False (fun x => P x \/ Q x)) by tauto.
    rewrite (filter_cons_False P), (filter_cons_False Q) by done. lia.
Qed.

Lemma length_filter_mono {A : Type} (P Q : A -> Prop)
    `{!forall x, Decision (P x)} `{!forall x, Decision (Q x)} (l : list A) :
  (forall x, x ∈ l -> P x -> Q x) ->
  (length (filter P l) <= length (filter Q l))%nat.
Proof.
  induction l as [|a l IH]; intros Himp; [reflexivity|].
  assert (forall x, x ∈ l -> P x -> Q x) as Himp' by (intros x Hx; apply Himp; by right).
  specialize (IH Himp').
  destruct (decide (P a)) as [HP|HP].
  - rewrite (filter_cons_True P) by done.
    rewrite (filter_cons_True Q) by (apply Himp; [left|done]). cbn [length]. lia.
  - rewrite (filter_cons_False P) by done.
    destruct (decide (Q a)).
    + rewrite (filter_cons_True Q) by done. cbn [length]. lia.
    + by rewrite (filter_cons_False Q).
Qed.

Lemma length_filter_ext {A : Type} (P Q : A -> Prop)
    `{!forall x, Decision (P x)} `{!forall x, Decision (Q x)} (l : list A) :
  (forall x, x ∈ l -> P x <-> Q x) ->
  length (filter P l) = length (filter Q l).
Proof.
  intros Hiff. apply Nat.le_antisymm; apply length_filter_mono; intros x Hx; by apply Hiff.
Qed.

(** The cells of a set that a duplicate-free list covers are counted once
    each. *)
Lemma length_filter_gset (X : gset (Z * Z)) (l : list (Z * Z)) :
  NoDup l -> (forall c, c ∈ X -> c ∈ l) ->
  length (filter (fun c => c ∈ X) l) = size X.
Proof.
  intros Hnd Hcover.
  rewrite <- (size_list_to_set (C := gset (Z * Z))) by (by apply NoDup_filter).
  f_equal. apply set_eq. intros c.
  rewrite elem_of_list_to_set, list_elem_of_filter.
  split; [by intros [Hc _]|]. intros Hc. split; [exact Hc|by apply Hcover].
Qed.

Lemma elem_of_drawn_cells (self : AdvancedMapper) (show_car : bool) (y : Z) (xs : list Z)
    (c : Z * Z) :
  c ∈ drawn_cells self show_car y xs <->
  ~ (show_car = true /\ c = (car_x self, car_y self)) /\ c.2 = y /\ c.1 ∈ xs.
Proof.
  unfold drawn_cells. rewrite list_elem_of_filter, list_elem_of_fmap. split.
  - intros [Hcar (x & -> & Hx)]. by repeat split.
  - intros (Hcar & Hy & Hx). split; [exact Hcar|]. exists c.1. split; [|exact Hx].
    destruct c as [cx cy]. simpl in *. by rewrite Hy.
Qed.

Lemma elem_of_drawn_map (self : AdvancedMapper) (show_car : bool) (ys : list Z) (c : Z * Z) :
  c ∈ drawn_map self show_car ys <->
  ~ (show_car = true /\ c = (car_x self, car_y self)) /\
  c.2 ∈ ys /\ 0 <= c.1 < map_size self.
Proof.
  induction ys as [|y ys IH].
  - split; [by intros ?%elem_of_nil|by intros (_ & ?%elem_of_nil & _)].
  - unfold drawn_map. rewrite fmap_cons. cbn [concat]. fold (drawn_map self show_car ys).
    rewrite elem_of_app, IH, elem_of_drawn_cells, elem_of_seqZ, elem_of_cons.
    split.
    + intros [(Hcar & Hy & Hx)|(Hcar & Hy & Hx)].
      * split; [exact Hcar|]. split; [by left|lia].
      * split; [exact Hcar|]. split; [by right|exact Hx].
    + intros (Hcar & [Hy|Hy] & Hx).
      * left. split; [exact Hcar|]. split; [exact Hy|lia].
      * right. split; [exact Hcar|]. split; [exact Hy|exact Hx].
Qed.

Lemma NoDup_drawn_map (self : AdvancedMapper) (show_car : bool) (ys : list Z) :
  NoDup ys -> NoDup (drawn_map self show_car ys).
Proof.
  induction 1 as [|y ys Hy Hnd IH]; [constructor|].
  unfold drawn_map. rewrite fmap_cons. cbn [concat]. fold (drawn_map self show_car ys).
  apply NoDup_app. split; [|split; [|exact IH]].
  - unfold drawn_cells. apply NoDup_filter, NoDup_fmap_2; [|apply NoDup_seqZ].
    by intros x x' [= ->].
  - intros c (_ & Hcy & _)%elem_of_drawn_cells (_ & Hin & _)%elem_of_drawn_map.
    apply Hy. by rewrite <- Hcy.
Qed.

(** The cells drawn with their state are cells of the map. *)
Lemma drawn_map_in_map (self : AdvancedMapper) (show_car : bool) (c : Z * Z) :
  c ∈ drawn_map self show_car (seqZ 0 (map_size self)) ->
  in_map (map_size self) c.1 c.2 = true.
Proof.
  intros (_ & Hy%elem_of_seqZ & Hx)%elem_of_drawn_map.
  unfold in_map. rewrite !bool_decide_eq_true_2 by lia. reflexivity.
Qed.

Lemma tally_known (g : grid) (cs : list (Z * Z)) :
  tally g OCCUPIED cs + tally g FREE cs =
  Z.of_nat (length (filter (fun c => grid_get g c.2 c.1 = Ok OCCUPIED \/
                                     grid_get g c.2 c.1 = Ok FREE) cs)).
Proof.
  unfold tally. rewrite length_filter_or; [lia|].
  intros c _ [Ho Hf]. rewrite Ho in Hf. discriminate.
Qed.

(** The picture before and after an update. *)
Lemma tally_after_update (self self' : AdvancedMapper) (scan_data : list (Z * R))
    (cx cy ca : option Z) (k : Z) (show_car : bool) :
  wf_mapper self ->
  update_map_from_scan self scan_data cx cy ca = Ok (self', k) ->
  let cells := drawn_map self show_car (seqZ 0 (map_size self)) in
  tally (occupancy_map self') OCCUPIED cells <= tally (occupancy_map self) OCCUPIED cells + k /\
  tally (occupancy_map self) OCCUPIED cells + k
    <= tally (occupancy_map self') OCCUPIED cells + (if show_car then 1 else 0) /\
  tally (occupancy_map self) OCCUPIED cells + tally (occupancy_map self) FREE cells
    <= tally (occupancy_map self') OCCUPIED cells + tally (occupancy_map self') FREE cells.
Proof.
  intros Hwf Hrun cells.
  destruct (update_map_from_scan_grows _ _ _ _ _ _ _ Hrun) as (_ & Hgrows & _).
  destruct (update_map_from_scan_closed self scan_data cx cy ca Hwf) as (g' & Hrun' & _ & Hg).
  rewrite Hrun' in Hrun. injection Hrun as <- <-.
  cbn [occupancy_map with_map] in *.
  set (hits := omap _ scan_data) in *.
  set (new := new_obstacles (occupancy_map self) hits) in *.
  set (hidden := if show_car then {[(car_x self, car_y self)]} else (∅ : gset (Z * Z))).
  assert (NoDup cells) as Hnd by apply NoDup_drawn_map, NoDup_seqZ.
  assert (forall c, c ∈ cells -> c ∉ hidden) as Hshown.
  { intros c (Hcar & _)%elem_of_drawn_map. unfold hidden. destruct show_car.
    - intros ->%elem_of_singleton. by apply Hcar.
    - apply not_elem_of_empty. }
  assert (forall c, c ∈ new ∖ hidden -> c ∈ cells) as Hcover.
  { intros c [[Hc _]%elem_of_new_obstacles Hhid]%elem_of_difference.
    pose proof (omap_hit_of_in_map self (default (car_x self) cx) (default (car_y self) cy)
                  (default (car_angle self) ca) scan_data) as Hin.
    rewrite Forall_forall in Hin. specialize (Hin c Hc).
    apply andb_prop in Hin as [Hx%bool_decide_eq_true Hy%bool_decide_eq_true].
    apply elem_of_drawn_map. split; [|split; [apply elem_of_seqZ; lia|lia]].
    intros [-> ->]. apply Hhid. unfold hidden. by apply elem_of_singleton. }
  assert (tally g' OCCUPIED cells
          = tally (occupancy_map self) OCCUPIED cells + Z.of_nat (size (new ∖ hidden))) as Hocc.
  { unfold tally. rewrite <- (length_filter_gset (new ∖ hidden) cells Hnd Hcover).
    rewrite <- Nat2Z.inj_add. f_equal.
    rewrite <- length_filter_or; cycle 1.
    { intros c _ [Ho [[_ Hn]%elem_of_new_obstacles _]%elem_of_difference]. by apply Hn. }
    apply length_filter_ext. intros [x y] Hc. cbn [fst snd].
    rewrite (Hg x y (drawn_map_in_map self show_car _ Hc)).
    unfold new. rewrite elem_of_difference, elem_of_new_obstacles. cbn [fst snd].
    specialize (Hshown _ Hc).
    destruct (decide ((x, y) ∈ hits)) as [Hhit|Hmiss].
    - rewrite bool_decide_eq_true_2 by done.
      destruct (decide (grid_get (occupancy_map self) y x = Ok OCCUPIED)) as [Ho|Hno].
      * split; [by left|done].
      * split; [|done]. intros _. right. by repeat split.
    - rewrite bool_decide_eq_false_2 by done. case_bool_decide as Hray.
      + split; [discriminate|]. intros [Ho|[[Hh _] _]]; [by destruct Hray|done].
      + split; [by left|]. intros [Ho|[[Hh _] _]]; [exact Ho|done]. }
  assert (size (new ∖ hidden) <= size new)%nat as Hle.
  { apply subseteq_size, subseteq_difference_l. reflexivity. }
  assert (size new <= size (new ∖ hidden) + (if show_car then 1 else 0))%nat as Hge.
  { unfold hidden. destruct show_car.
    - pose proof (size_union_alt (C := gset (Z * Z)) {[(car_x self, car_y self)]} new) as Hsz.
      rewrite size_singleton in Hsz.
      assert (size new <= size ({[(car_x self, car_y self)]} ∪ new))%nat
        by (apply subseteq_size, union_subseteq_r).
      lia.
    - rewrite difference_empty_L. lia. }
  split; [lia|]. split; [clear Hshown Hcover; destruct show_car; lia|].
  rewrite !tally_known. apply inj_le, length_filter_mono.
  intros [x y] _. cbn [fst snd]. destruct (Hgrows y x) as [Ho Hf].
  intros [H1|H1]; [left; by apply Ho|]. destruct (Hf H1); [by right|by left].
Qed.

Lemma tally_none (g : grid) (v : Z) (cs : list (Z * Z)) :
  Forall (fun c => grid_get g c.2 c.1 <> Ok v) cs -> tally g v cs = 0.
Proof. intros Hall. unfold tally. by rewrite filter_none. Qed.

(** The interpolated scan with the default step returns. *)
Lemma scan_environment_default {V U : Type} `{!Servo V} `{!Ultrasonic U}
    (servo : V) (us : U) (angle_min angle_max : Z) :
  exists servo' us' scan_history,
    scan_environment servo us angle_min angle_max SCAN_STEP true =
    Ok (set_angle 0 servo', us', scan_history, interpolate_spec SCAN_STEP scan_history).
Proof.
  destruct (py_range_returns angle_min (angle_max + 1) SCAN_STEP) as (angles & Hrange);
    [discriminate|].
  destruct (scan_environment_run servo us angle_min angle_max SCAN_STEP true angles Hrange)
    as (servo' & us' & kept & _ & _ & _ & Hrun).
  rewrite interpolate_scan_spec in Hrun by (vm_compute; discriminate).
  by exists servo', us', kept.
Qed.

(** ** Interpolation across the bearings of a sweep *)

Lemma every_single (s a : Z) : 0 < s -> every s a a = [a].
Proof.
  intros Hs. unfold every. rewrite Z.sub_diag, Z.div_0_l by lia.
  change (seqZ 0 (0 + 1)) with [0]. cbn [fmap list_fmap]. f_equal. lia.
Qed.

(** The bearings between two samples of a sweep. *)
Lemma between_every (step : Z) (p1 p2 : Z * R) :
  0 < sub_step step -> p1.1 < p2.1 -> (p2.1 - p1.1) mod sub_step step = 0 ->
  (between step p1 p2).*1 =
  (fun i => p1.1 + i * sub_step step) <$> seqZ 1 ((p2.1 - p1.1) / sub_step step - 1).
Proof.
  intros Hs Hlt Hmod. unfold between.
  rewrite (Z.abs_eq (p2.1 - p1.1)) by lia.
  rewrite (bool_decide_eq_true_2 (p1.1 < p2.1)) by done.
  case_bool_decide as Hsteps.
  - rewrite <- list_fmap_compose. apply list_fmap_ext. intros _ j _. cbn. lia.
  - rewrite seqZ_nil by lia. reflexivity.
Qed.

Lemma every_cons (s a b c : Z) :
  0 < s -> a < b -> b <= c -> (b - a) mod s = 0 -> (c - b) mod s = 0 ->
  a :: ((fun i => a + i * s) <$> seqZ 1 ((b - a) / s - 1)) ++ every s b c = every s a c.
Proof.
  intros Hs Hab Hbc Hmod1 Hmod2. unfold every.
  apply Z.mod_divide in Hmod1 as [m Hm]; [|lia].
  apply Z.mod_divide in Hmod2 as [n Hn]; [|lia].
  assert (1 <= m) by nia. assert (0 <= n) by nia.
  replace ((b - a) / s) with m by (rewrite Hm, Z.div_mul; lia).
  replace ((c - b) / s) with n by (rewrite Hn, Z.div_mul; lia).
  replace ((c - a) / s) with (m + n)
    by (replace (c - a) with ((m + n) * s) by lia; rewrite Z.div_mul; lia).
  replace (m + n + 1) with (1 + ((m - 1) + (n + 1))) by lia.
  rewrite (seqZ_app 0 1) by lia. rewrite (seqZ_app (0 + 1)) by lia.
  rewrite !fmap_app. change (seqZ 0 1) with [0]. cbn [fmap list_fmap app].
  f_equal; [lia|]. f_equal.
  replace (0 + 1 + (m - 1)) with (m + 0) by lia.
  rewrite <- (fmap_add_seqZ m 0), <- list_fmap_compose.
  apply list_fmap_ext. intros _ i _. cbn. nia.
Qed.

(** From the first bearing to the last, one sample every sub-step. *)
Lemma interpolate_spec_every (step a0 : Z) (samples : list (Z * R)) :
  0 < sub_step step ->
  StronglySorted Z.lt samples.*1 ->
  Forall (fun a => (a - a0) mod sub_step step = 0) samples.*1 ->
  forall first final,
    head samples.*1 = Some first -> last samples.*1 = Some final ->
    first <= final /\
    (interpolate_spec step samples).*1 = every (sub_step step) first final.
Proof.
  intros Hs. induction samples as [|p1 rest IH]; intros Hsorted Hmod first final Hhead Hlast;
    [discriminate|].
  destruct rest as [|p2 rest'].
  - cbn in Hhead, Hlast. injection Hhead as <-. injection Hlast as <-.
    split; [lia|]. cbn. by rewrite every_single.
  - rewrite interpolate_spec_cons.
    assert (last (p2 :: rest').*1 = Some final) as Hlast'
      by (rewrite !fmap_cons in Hlast |- *; exact Hlast).
    rewrite fmap_cons in Hsorted, Hmod, Hhead.
    cbn [head] in Hhead. injection Hhead as <-.
    apply StronglySorted_cons in Hsorted as [Hall Hsorted'].
    apply Forall_cons in Hmod as [Hm1 Hmod'].
    pose proof Hall as Hlt. rewrite fmap_cons in Hlt. apply Forall_cons in Hlt as [Hlt _].
    pose proof Hmod' as Hm2. rewrite fmap_cons in Hm2. apply Forall_cons in Hm2 as [Hm2 _].
    destruct (IH Hsorted' Hmod' p2.1 final eq_refl Hlast') as [Hle Hrest].
    assert ((p2.1 - p1.1) mod sub_step step = 0) as Hgap.
    { apply Z.mod_divide in Hm1 as [m1 Hm1]; [|lia].
      apply Z.mod_divide in Hm2 as [m2 Hm2]; [|lia].
      apply Z.mod_divide; [lia|]. exists (m2 - m1). lia. }
    assert ((final - p2.1) mod sub_step step = 0) as Hgap'.
    { assert (final ∈ (p2 :: rest').*1) as Hin.
      { apply last_Some in Hlast' as (l' & ->). apply elem_of_app. right. left. }
      rewrite Forall_forall in Hmod'. specialize (Hmod' final Hin).
      apply Z.mod_divide in Hmod' as [m3 Hm3]; [|lia].
      apply Z.mod_divide in Hm2 as [m2 Hm2]; [|lia].
      apply Z.mod_divide; [lia|]. exists (m3 - m2). lia. }
    split; [lia|].
    rewrite fmap_cons, fmap_app, Hrest, between_every by done.
    by apply every_cons.
Qed.

End FloatFacts.

(** * The claims *)

(** C1.  Occupancy is monotone.  Whatever the array, when
    [mark_free_space] or [update_map_from_scan] returns, every cell that
    read [OCCUPIED] before still does, whichever index it is read through.
    On a well-formed mapper both do return, for any end points, scan and
    pose, and keep the mapper well formed.  Only [clear_map] takes cells
    back to [UNKNOWN]: it resets every cell. *)
Theorem occupied_stays_occupied {F64 : Float64} :
  (forall (self self' : AdvancedMapper) (x1 y1 x2 y2 : Z),
      mark_free_space self x1 y1 x2 y2 = Ok self' ->
      forall y x : Z, grid_get (occupancy_map self) y x = Ok OCCUPIED ->
                      grid_get (occupancy_map self') y x = Ok OCCUPIED) /\
  (forall (self self' : AdvancedMapper) (scan_data : list (Z * R))
          (cx cy ca : option Z) (k : Z),
      update_map_from_scan self scan_data cx cy ca = Ok (self', k) ->
      forall y x : Z, grid_get (occupancy_map self) y x = Ok OCCUPIED ->
                      grid_get (occupancy_map self') y x = Ok OCCUPIED) /\
  (forall self : AdvancedMapper,
      wf_mapper self ->
      (forall x1 y1 x2 y2 : Z, exists self',
          mark_free_space self x1 y1 x2 y2 = Ok self' /\ wf_mapper self') /\
      (forall (scan_data : list (Z * R)) (cx cy ca : option Z), exists self' k,
          update_map_from_scan self scan_data cx cy ca = Ok (self', k) /\
          wf_mapper self') /\
      (exists self', clear_map self = Ok self' /\ wf_mapper self' /\
          forall x y : Z, in_map (map_size self) x y = true ->
                          grid_get (occupancy_map self') y x = Ok UNKNOWN)).
Proof.
  split; [|split].
  - intros self self' x1 y1 x2 y2 Hrun y x. unfold mark_free_space in Hrun.
    destruct (mark_free_grid _ _ _ _ _ _) as [g'| |] eqn:Hg'; try discriminate.
    injection Hrun as <-. rewrite mark_free_grid_ray in Hg'.
    by apply (proj1 (free_cells_grows _ _ _ _ Hg')).
  - intros self self' scan_data cx cy ca k Hrun y x.
    destruct (update_map_from_scan_grows _ _ _ _ _ _ _ Hrun) as (_ & Hgrow & _).
    by apply Hgrow.
  - intros self Hwf. split; [|split].
    + intros x1 y1 x2 y2. unfold mark_free_space.
      destruct (mark_free_grid_square (map_size self) (occupancy_map self) x1 y1 x2 y2 Hwf)
        as (g' & Hrun & Hsq & _).
      exists (with_map self g'). by rewrite Hrun.
    + intros scan_data cx cy ca.
      destruct (update_map_from_scan_square self scan_data cx cy ca Hwf)
        as (g' & k & Hrun & Hsq).
      by exists (with_map self g'), k.
    + unfold clear_map, np_full. destruct (Hwf) as [Hlen _].
      rewrite bool_decide_eq_false_2 by lia.
      eexists. split; [reflexivity|]. split.
      * apply square_replicate. lia.
      * intros x y Hin. by apply grid_get_replicate.
Qed.

(** On the small map the ray from (0, 0) to (2, 0) crosses the obstacle at
    (1, 0), which stays. *)
Lemma occupied_stays_occupied_witness :
  exists self',
    mark_free_space small_mapper 0 0 2 0 = Ok self' /\
    grid_get (occupancy_map small_mapper) 0 1 = Ok OCCUPIED /\
    grid_get (occupancy_map self') 0 1 = Ok OCCUPIED.
Proof.
  destruct (proj1 (proj2 (proj2 (occupied_stays_occupied (F64 := exact_arithmetic)))
                     small_mapper small_mapper_wf)
              0 0 2 0) as (self' & Hrun & _).
  exists self'. split; [exact Hrun|]. split; [reflexivity|].
  exact (proj1 (occupied_stays_occupied (F64 := exact_arithmetic))
           small_mapper self' 0 0 2 0 Hrun 0 1 eq_refl).
Defined.

(** C2.  The ray-cast update.  On a square array, from an in-map start
    cell to an in-map hit cell, the loop ends at the hit cell and has drawn
    the Bresenham line of the specification; all its cells are in the map
    and none is the hit cell.  Afterwards each of them that was not
    occupied reads [FREE], the occupied ones still read [OCCUPIED], the hit
    cell reads [OCCUPIED], no other cell has changed, and the count is 1
    exactly when the hit cell was not occupied before.  The loop body of
    [update_map_from_scan] does just this for a sample whose hit cell it
    is.  From (50,50) to (50,60) on the fresh 100 x 100 map: (50,50..59)
    are free and (50,60) is occupied. *)
Theorem ray_cast_update {F64 : Float64} :
  (forall (n : Z) (g : grid) (x1 y1 x2 y2 : Z),
      square n g -> in_map n x1 y1 = true -> in_map n x2 y2 = true ->
      exists (cells : list (Z * Z)) (g' : grid) (k : Z),
        bresenham_line x1 y1 x2 y2 cells /\
        (forall cells', bresenham_line x1 y1 x2 y2 cells' -> cells' = cells) /\
        Forall (fun c => in_map n c.1 c.2 = true /\ c <> (x2, y2)) cells /\
        apply_hit n g x1 y1 x2 y2 = Ok (g', k) /\
        (forall x y, (x, y) ∈ cells -> grid_get g y x <> Ok OCCUPIED ->
                     grid_get g' y x = Ok FREE) /\
        (forall x y, (x, y) ∈ cells -> grid_get g y x = Ok OCCUPIED ->
                     grid_get g' y x = Ok OCCUPIED) /\
        grid_get g' y2 x2 = Ok OCCUPIED /\
        k = (if bool_decide (grid_get g y2 x2 = Ok OCCUPIED) then 0 else 1) /\
        (forall x y, in_map n x y = true -> (x, y) ∉ cells -> (x, y) <> (x2, y2) ->
                     grid_get g' y x = grid_get g y x) /\
        (forall (self : AdvancedMapper) (k0 ca : Z) (s : Z * R),
            map_size self = n -> occupancy_map self = g ->
            hit_of self x1 y1 ca s = Some (x2, y2) ->
            scan_body x1 y1 ca (self, k0) s = Ok (with_map self g', k0 + k)))
  /\
  (exists g0 g' : grid,
      np_full 100 UNKNOWN = Ok g0 /\
      apply_hit 100 g0 50 50 50 60 = Ok (g', 1) /\
      (forall y, 50 <= y <= 59 -> grid_get g' y 50 = Ok FREE) /\
      grid_get g' 60 50 = Ok OCCUPIED).
Proof.
  split.
  - intros n g x1 y1 x2 y2 Hsq Hin1 Hin2.
    destruct (apply_hit_square n g x1 y1 x2 y2 Hsq Hin2)
      as (g' & k & Hrun & Hsq' & Hk & Hg').
    assert (forall c, c ∈ ray_cells x1 y1 x2 y2 ->
                      in_map n c.1 c.2 = true /\ c <> (x2, y2)) as Hcells.
    { intros c Hc. apply ray_cells_box in Hc as (Hx & Hy & Hne). split; [|exact Hne].
      apply andb_prop in Hin1 as [Hx1%bool_decide_eq_true Hy1%bool_decide_eq_true].
      apply andb_prop in Hin2 as [Hx2%bool_decide_eq_true Hy2%bool_decide_eq_true].
      unfold in_map. rewrite !bool_decide_eq_true_2 by lia. done. }
    exists (ray_cells x1 y1 x2 y2), g', k.
    split; [apply ray_cells_line|].
    split; [intros cells' Hline; eapply bresenham_walk_det; [exact Hline|apply ray_cells_line]|].
    split; [by apply Forall_forall|].
    split; [exact Hrun|]. split; [|split; [|split; [|split; [exact Hk|split]]]].
    + intros x y Hc Hfree. destruct (Hcells _ Hc) as [Hin Hne]. simpl in Hin.
      rewrite (Hg' x y Hin). rewrite bool_decide_eq_false_2 by done.
      by rewrite bool_decide_eq_true_2.
    + intros x y Hc Hocc. destruct (Hcells _ Hc) as [Hin Hne]. simpl in Hin.
      rewrite (Hg' x y Hin). rewrite bool_decide_eq_false_2 by done.
      rewrite bool_decide_eq_false_2; [done|]. by intros [_ ?].
    + rewrite (Hg' x2 y2 Hin2). by rewrite bool_decide_eq_true_2.
    + intros x y Hin Hnc Hne. rewrite (Hg' x y Hin).
      rewrite bool_decide_eq_false_2 by done.
      rewrite bool_decide_eq_false_2; [done|]. by intros [? _].
    + intros self k0 ca s <- <- Hhit. rewrite scan_body_hit, Hhit, Hrun. reflexivity.
  - eexists _, _. split; [reflexivity|]. split; [vm_compute; reflexivity|]. split.
    + intros y Hy.
      assert (y = 50 \/ y = 51 \/ y = 52 \/ y = 53 \/ y = 54 \/
              y = 55 \/ y = 56 \/ y = 57 \/ y = 58 \/ y = 59) as Hcases by lia.
      repeat (destruct Hcases as [->|Hcases]; [vm_compute; reflexivity|]).
      subst y. vm_compute. reflexivity.
    + vm_compute. reflexivity.
Qed.

Lemma ray_cast_update_witness :
  exists (cells : list (Z * Z)) (g' : grid) (k : Z),
    bresenham_line 0 2 2 0 cells /\
    (forall cells', bresenham_line 0 2 2 0 cells' -> cells' = cells) /\
    Forall (fun c => in_map 3 c.1 c.2 = true /\ c <> (2, 0)) cells /\
    apply_hit 3 (occupancy_map small_mapper) 0 2 2 0 = Ok (g', k) /\
    (forall x y, (x, y) ∈ cells ->
                 grid_get (occupancy_map small_mapper) y x <> Ok OCCUPIED ->
                 grid_get g' y x = Ok FREE) /\
    (forall x y, (x, y) ∈ cells ->
                 grid_get (occupancy_map small_mapper) y x = Ok OCCUPIED ->
                 grid_get g' y x = Ok OCCUPIED) /\
    grid_get g' 0 2 = Ok OCCUPIED /\
    k = (if bool_decide (grid_get (occupancy_map small_mapper) 0 2 = Ok OCCUPIED)
         then 0 else 1) /\
    (forall x y, in_map 3 x y = true -> (x, y) ∉ cells -> (x, y) <> (2, 0) ->
                 grid_get g' y x = grid_get (occupancy_map small_mapper) y x) /\
    (forall (self : AdvancedMapper) (k0 ca : Z) (s : Z * R),
        map_size self = 3 -> occupancy_map self = occupancy_map small_mapper ->
        hit_of (F64 := exact_arithmetic) self 0 2 ca s = Some (2, 0) ->
        scan_body (F64 := exact_arithmetic) 0 2 ca (self, k0) s
          = Ok (with_map self g', k0 + k)).
Proof.
  apply (proj1 (ray_cast_update (F64 := exact_arithmetic))
           3 (occupancy_map small_mapper) 0 2 2 0).
  - exact small_mapper_wf.
  - reflexivity.
  - reflexivity.
Defined.

(** C3.  The coordinate transform.  With the pose taken from the arguments
    or, by default, from the mapper, and every operation done in binary64,
    the result is the rounded point
    [(round (x + d cos (radians (heading - bearing))),
      round (y + d sin (radians (heading - bearing))))],
    each coordinate the one integer nearest to the float, the even one on
    a tie, when that point lies in the map, and [None] otherwise; at
    bearing 0 the angle is the heading itself.  With the laws of binary64:
    from (50, 50) heading 0, a reading of 10 cm straight ahead is the cell
    (60, 50), one at bearing 90, to the right, is (50, 40), one at bearing
    -90 is (50, 60); heading 90, straight ahead is (50, 60); from (95, 50)
    heading 0 it is out of the map. *)
Theorem polar_to_cartesian_spec {F64 : Float64} :
  (forall (self : AdvancedMapper) (angle_deg : Z) (distance_cm : R) (cx cy ca : option Z),
      let x := default (car_x self) cx in
      let y := default (car_y self) cy in
      let heading := default (car_angle self) ca in
      let theta := fl (fl (IZR (heading - angle_deg)) * deg_to_rad) in
      let vx := fl (fl (IZR x) + fl (distance_cm * math_cos theta)) in
      let vy := fl (fl (IZR y) + fl (distance_cm * math_sin theta)) in
      exists x_int y_int : Z,
        nearest_int vx x_int /\ nearest_int vy y_int /\
        (forall n, nearest_int vx n -> n = x_int) /\
        (forall n, nearest_int vy n -> n = y_int) /\
        (0 <= x_int < map_size self /\ 0 <= y_int < map_size self ->
         polar_to_cartesian self angle_deg distance_cm cx cy ca = Some (x_int, y_int)) /\
        (~ (0 <= x_int < map_size self /\ 0 <= y_int < map_size self) ->
         polar_to_cartesian self angle_deg distance_cm cx cy ca = None)) /\
  (forall (self : AdvancedMapper) (distance_cm : R) (cx cy ca : option Z) (x0 y0 : Z),
      let x := default (car_x self) cx in
      let y := default (car_y self) cy in
      let heading := default (car_angle self) ca in
      let theta := fl (fl (IZR heading) * deg_to_rad) in
      (distance_cm > 0)%R ->
      nearest_int (fl (fl (IZR x) + fl (distance_cm * math_cos theta))) x0 ->
      nearest_int (fl (fl (IZR y) + fl (distance_cm * math_sin theta))) y0 ->
      polar_to_cartesian self 0 distance_cm cx cy ca =
      if bool_decide (0 <= x0 < map_size self /\ 0 <= y0 < map_size self)
      then Some (x0, y0) else None) /\
  (Float64Laws ->
   polar_to_cartesian (mapper_at 50 50 0) 0 10 None None None = Some (60, 50) /\
   polar_to_cartesian (mapper_at 50 50 0) 90 10 None None None = Some (50, 40) /\
   polar_to_cartesian (mapper_at 50 50 0) (-90) 10 None None None = Some (50, 60) /\
   polar_to_cartesian (mapper_at 50 50 90) 0 10 None None None = Some (50, 60) /\
   polar_to_cartesian (mapper_at 95 50 0) 0 10 None None None = None).
Proof.
  assert (forall (self : AdvancedMapper) (a : Z) (d : R) (cx cy ca : option Z),
    polar_to_cartesian self a d cx cy ca =
    let theta := fl (fl (IZR (default (car_angle self) ca - a)) * deg_to_rad) in
    let xa := py_round (fl (fl (IZR (default (car_x self) cx)) + fl (d * math_cos theta))) in
    let ya := py_round (fl (fl (IZR (default (car_y self) cy)) + fl (d * math_sin theta))) in
    if bool_decide (0 <= xa < map_size self /\ 0 <= ya < map_size self)
    then Some (xa, ya) else None) as Hunfold.
  { intros self a d cx cy ca. unfold polar_to_cartesian, radians, fadd, fmul, of_int.
    cbv zeta. by rewrite (bool_decide_and (_ <= _ < _) (_ <= _ < _)). }
  split; [|split].
  - intros self angle_deg d cx cy ca x y heading theta vx vy.
    exists (py_round vx), (py_round vy).
    split; [apply py_round_nearest|]. split; [apply py_round_nearest|].
    split; [intros n Hn; eapply nearest_int_unique; [exact Hn|apply py_round_nearest]|].
    split; [intros n Hn; eapply nearest_int_unique; [exact Hn|apply py_round_nearest]|].
    split.
    + intros Hin. rewrite Hunfold. cbv zeta. by rewrite bool_decide_eq_true_2.
    + intros Hout. rewrite Hunfold. cbv zeta. by rewrite bool_decide_eq_false_2.
  - intros self d cx cy ca x0 y0 x y heading theta _ Hx Hy.
    rewrite Hunfold. cbv zeta. rewrite Z.sub_0_r. fold x y heading theta.
    rewrite <- (nearest_int_unique _ _ _ Hx (py_round_nearest _)).
    rewrite <- (nearest_int_unique _ _ _ Hy (py_round_nearest _)).
    reflexivity.
  - intros L.
    destruct math_cos_sin_0 as [Hc0 Hs0].
    destruct math_cos_sin_90 as [Hc90 Hs90].
    destruct math_cos_sin_minus_90 as [Hcm Hsm].
    unfold polar_to_cartesian. cbv zeta.
    cbn [default car_x car_y car_angle mapper_at map_size].
    change (0 - 0) with 0. change (0 - 90) with (-90). change (0 - -90) with 90.
    change (90 - 0) with 90.
    rewrite (py_round_fadd_fmul 50 10 1 _ ltac:(lia) ltac:(lia) ltac:(lia) Hc0).
    rewrite (py_round_fadd_fmul 50 10 0 _ ltac:(lia) ltac:(lia) ltac:(lia) Hs0).
    rewrite (py_round_fadd_fmul 50 10 0 _ ltac:(lia) ltac:(lia) ltac:(lia) Hcm).
    rewrite (py_round_fadd_fmul 50 10 (-1) _ ltac:(lia) ltac:(lia) ltac:(lia) Hsm).
    rewrite (py_round_fadd_fmul 50 10 0 _ ltac:(lia) ltac:(lia) ltac:(lia) Hc90).
    rewrite (py_round_fadd_fmul 50 10 1 _ ltac:(lia) ltac:(lia) ltac:(lia) Hs90).
    rewrite (py_round_fadd_fmul 95 10 1 _ ltac:(lia) ltac:(lia) ltac:(lia) Hc0).
    repeat split; reflexivity.
Qed.

(** Straight ahead by 10 cm from the default pose is the cell (60, 50), and
    it is the one the two roundings give. *)
Lemma polar_to_cartesian_spec_witness :
  polar_to_cartesian (F64 := exact_arithmetic) (mapper_at 50 50 0) 0 10 None None None
    = Some (60, 50) /\
  polar_to_cartesian (F64 := exact_arithmetic) (mapper_at 50 50 0) 0 10 None None None
    = (if bool_decide (0 <= 60 < 100 /\ 0 <= 50 < 100) then Some (60, 50) else None).
Proof.
  pose proof (polar_to_cartesian_spec (F64 := exact_arithmetic)) as (_ & Hahead & Hex).
  split; [exact (proj1 (Hex exact_arithmetic_laws))|].
  apply (Hahead (mapper_at 50 50 0) 10%R None None None 60 50); [lra| |];
    cbn [default car_x car_y car_angle mapper_at fl math_cos math_sin exact_arithmetic].
  - unfold deg_to_rad. rewrite Rmult_0_l, cos_0.
    replace (50 + 10 * 1)%R with (IZR 60) by lra.
    rewrite <- (py_round_IZR 60) at 2. apply py_round_nearest.
  - unfold deg_to_rad. rewrite Rmult_0_l, sin_0.
    replace (50 + 10 * 0)%R with (IZR 50) by lra.
    rewrite <- (py_round_IZR 50) at 2. apply py_round_nearest.
Defined.

(** C4.  The localizer.  The heading becomes [(heading + delta) mod 360];
    when the distance is positive the position moves by the components of
    the distance along the new heading, computed in binary64 and rounded,
    each to the one nearest integer, the even one on a tie, and each
    coordinate is clamped to [[0, N - 1]]; otherwise the position is
    unchanged.  With the laws of binary64, from (50,50,0): advancing 10
    gives (60,50,0), turning 90 and advancing 10 gives heading 90 and
    (50,60); from (99,50,0), advancing 1000 gives x = 99. *)
Theorem update_car_position_spec {F64 : Float64} :
  (forall (self : AdvancedMapper) (distance_cm : R) (delta_angle_deg : Z),
      let self' := update_car_position self distance_cm delta_angle_deg in
      let heading := (car_angle self + delta_angle_deg) mod 360 in
      let theta := fl (fl (IZR heading) * deg_to_rad) in
      car_angle self' = heading /\ 0 <= car_angle self' < 360 /\
      map_size self' = map_size self /\ occupancy_map self' = occupancy_map self /\
      ((distance_cm > 0)%R ->
       exists kx ky : Z,
         nearest_int (fl (distance_cm * math_cos theta)) kx /\
         nearest_int (fl (distance_cm * math_sin theta)) ky /\
         (forall n, nearest_int (fl (distance_cm * math_cos theta)) n -> n = kx) /\
         (forall n, nearest_int (fl (distance_cm * math_sin theta)) n -> n = ky) /\
         car_x self' = Z.max 0 (Z.min (map_size self - 1) (car_x self + kx)) /\
         car_y self' = Z.max 0 (Z.min (map_size self - 1) (car_y self + ky)) /\
         (1 <= map_size self ->
          0 <= car_x self' <= map_size self - 1 /\
          0 <= car_y self' <= map_size self - 1)) /\
      ((distance_cm <= 0)%R -> car_x self' = car_x self /\ car_y self' = car_y self))
  /\ (Float64Laws ->
      update_car_position (mapper_at 50 50 0) 10 0 = mapper_at 60 50 0 /\
      update_car_position (mapper_at 50 50 0) 10 90 = mapper_at 50 60 90 /\
      car_x (update_car_position (mapper_at 99 50 0) 1000 0) = 99).
Proof.
  split.
  - intros self d delta self' heading theta.
    unfold self', update_car_position, radians, fmul, of_int. fold heading. fold theta.
    destruct (decide (d > 0)%R) as [Hd|Hd].
    + rewrite (bool_decide_eq_true_2 _ Hd). cbn [car_angle car_x car_y map_size occupancy_map].
      split; [reflexivity|]. split; [apply Z.mod_pos_bound; lia|].
      split; [reflexivity|]. split; [reflexivity|]. split.
      * intros _.
        exists (py_round (fl (d * math_cos theta))), (py_round (fl (d * math_sin theta))).
        split; [apply py_round_nearest|]. split; [apply py_round_nearest|].
        split; [intros n Hn; eapply nearest_int_unique; [exact Hn|apply py_round_nearest]|].
        split; [intros n Hn; eapply nearest_int_unique; [exact Hn|apply py_round_nearest]|].
        split; [reflexivity|]. split; [reflexivity|]. lia.
      * intros Hle. lra.
    + rewrite (bool_decide_eq_false_2 _ Hd). cbn [car_angle car_x car_y map_size occupancy_map].
      split; [reflexivity|]. split; [apply Z.mod_pos_bound; lia|].
      split; [reflexivity|]. split; [reflexivity|]. split.
      * intros Hpos. contradiction.
      * intros _. split; reflexivity.
  - intros L.
    destruct math_cos_sin_0 as [Hc0 Hs0].
    destruct math_cos_sin_90 as [Hc90 Hs90].
    unfold update_car_position. rewrite !bool_decide_eq_true_2 by lra.
    cbn [car_angle car_x car_y map_size occupancy_map map_center mapper_at].
    change ((0 + 0) mod 360) with 0. change ((0 + 90) mod 360) with 90.
    rewrite (py_round_fmul 10 1 _ ltac:(lia) ltac:(lia) Hc0).
    rewrite (py_round_fmul 10 0 _ ltac:(lia) ltac:(lia) Hs0).
    rewrite (py_round_fmul 10 0 _ ltac:(lia) ltac:(lia) Hc90).
    rewrite (py_round_fmul 10 1 _ ltac:(lia) ltac:(lia) Hs90).
    split; [reflexivity|]. split; [reflexivity|].
    rewrite radians_0, math_cos_0. unfold fmul. rewrite Rmult_1_r.
    rewrite (fl_int 1000) by lia. rewrite py_round_IZR. reflexivity.
Qed.

(** Turning 90 and advancing 10 from (50,50,0); and advancing 10 straight
    ahead moves [x] by the rounded component. *)
Lemma update_car_position_spec_witness :
  update_car_position (F64 := exact_arithmetic) (mapper_at 50 50 0) 10 90
    = mapper_at 50 60 90 /\
  car_x (update_car_position (F64 := exact_arithmetic) (mapper_at 50 50 0) 10 0) =
  Z.max 0 (Z.min (100 - 1) (50 + 10)).
Proof.
  pose proof (update_car_position_spec (F64 := exact_arithmetic)) as [Hgen Hex].
  split; [exact (proj1 (proj2 (Hex exact_arithmetic_laws)))|].
  pose proof (Hgen (mapper_at 50 50 0) 10%R 0) as H.
  cbv zeta in H. destruct H as (_ & _ & _ & _ & Hmove & _).
  destruct Hmove as (kx & ky & Hkx & _ & _ & _ & Hx & _); [lra|].
  rewrite Hx. cbn [map_size car_x mapper_at]. do 3 f_equal.
  eapply nearest_int_unique; [exact Hkx|].
  cbn [car_angle mapper_at fl math_cos exact_arithmetic].
  change ((0 + 0) mod 360) with 0. unfold deg_to_rad. rewrite Rmult_0_l, cos_0.
  replace (10 * 1)%R with (IZR 10) by lra.
  rewrite <- (py_round_IZR 10) at 2. apply py_round_nearest.
Defined.

(** C5.  The densifier.  Fewer than two samples come back unchanged.
    Otherwise, the sub-step being non-zero, the result is the
    interpolation of the specification: for each adjacent pair the first
    sample, then, when [steps > 1], the [steps - 1] points between, and
    after all pairs the final sample.  Bearings in ascending (or
    descending) order stay so.  Samples (0,10), (30,20) with step 15 give
    the bearings 5, 10, ..., 25 in between. *)
Theorem interpolate_scan_densifies :
  (forall (scan_data : list (Z * R)) (step : Z),
      (length scan_data < 2)%nat -> interpolate_scan scan_data step = Ok scan_data) /\
  (forall (scan_data : list (Z * R)) (step : Z),
      Z.min 5 (step / 2) <> 0 ->
      interpolate_scan scan_data step = Ok (interpolate_spec step scan_data)) /\
  (forall (step : Z) (p1 p2 : Z * R),
      let steps := Z.abs (p2.1 - p1.1) / Z.min 5 (step / 2) in
      Z.of_nat (length (between step p1 p2)) =
      if bool_decide (steps > 1) then steps - 1 else 0) /\
  (forall (scan_data : list (Z * R)) (step : Z),
      Z.min 5 (step / 2) <> 0 ->
      (StronglySorted Z.le scan_data.*1 ->
       StronglySorted Z.le (interpolate_spec step scan_data).*1) /\
      (StronglySorted Z.ge scan_data.*1 ->
       StronglySorted Z.ge (interpolate_spec step scan_data).*1)) /\
  interpolate_scan [(0, 10%R); (30, 20%R)] 15 =
  Ok [(0, 10%R);
      (5, (10 + (20 - 10) * (1 / 6))%R); (10, (10 + (20 - 10) * (2 / 6))%R);
      (15, (10 + (20 - 10) * (3 / 6))%R); (20, (10 + (20 - 10) * (4 / 6))%R);
      (25, (10 + (20 - 10) * (5 / 6))%R);
      (30, 20%R)].
Proof.
  split; [exact interpolate_scan_short|].
  split; [exact interpolate_scan_spec|].
  split; [exact between_length|].
  split; [|reflexivity].
  intros scan_data step Hsub.
  destruct (decide (2 <= step)) as [Hstep|Hsmall]; cycle 1.
  { assert (sub_step step < 0) as Hneg.
    { assert (step <> 0 /\ step <> 1) as [? ?].
      { split; intros ->; by apply Hsub. }
      pose proof (sub_step_neg step). lia. }
    rewrite (interpolate_spec_neg step scan_data Hneg). tauto. }
  split; intros Hsorted.
  - refine (proj1 (interpolate_spec_sorted Z.le step _ _ _ _ scan_data Hsorted)).
    + intros a. lia.
    + intros a b c. lia.
    + intros p1 p2. by apply between_sorted_le.
    + intros p1 p2 b Hle Hb. pose proof (between_bearing step p1 p2 b Hstep Hb). lia.
  - refine (proj1 (interpolate_spec_sorted Z.ge step _ _ _ _ scan_data Hsorted)).
    + intros a. lia.
    + intros a b c. lia.
    + intros p1 p2. by apply between_sorted_ge.
    + intros p1 p2 b Hge Hb. pose proof (between_bearing step p1 p2 b Hstep Hb). lia.
Qed.

Lemma interpolate_scan_densifies_witness :
  interpolate_scan [(-90, 40%R); (-75, 42%R); (-60, 45%R)] SCAN_STEP =
  Ok (interpolate_spec SCAN_STEP [(-90, 40%R); (-75, 42%R); (-60, 45%R)]) /\
  StronglySorted Z.le (interpolate_spec SCAN_STEP [(-90, 40%R); (-75, 42%R); (-60, 45%R)]).*1.
Proof.
  split.
  - apply (proj1 (proj2 interpolate_scan_densifies)). vm_compute. discriminate.
  - apply (proj1 (proj2 (proj2 (proj2 interpolate_scan_densifies)))).
    + vm_compute. discriminate.
    + repeat constructor; vm_compute; discriminate.
Defined.

(** C6.  The drop zone.  A sample whose distance is not positive, or at
    least [MAX_DISTANCE], or above [OBSTACLE_THRESHOLD], leaves the mapper
    and the obstacle count as they are, and a scan with the sample behaves
    as the scan without it; so does a sample at 85 cm. *)
Theorem drop_zone_skips_sample {F64 : Float64} :
  (forall (self : AdvancedMapper) (angle : Z) (distance : R),
      (distance <= 0 \/ distance >= MAX_DISTANCE \/ distance > OBSTACLE_THRESHOLD)%R ->
      (forall cx cy ca k,
          scan_body cx cy ca (self, k) (angle, distance) = Ok (self, k)) /\
      (forall cx cy ca,
          update_map_from_scan self [(angle, distance)] cx cy ca = Ok (self, 0)) /\
      (forall before after cx cy ca,
          update_map_from_scan self (before ++ (angle, distance) :: after) cx cy ca =
          update_map_from_scan self (before ++ after) cx cy ca))
  /\
  (forall (self : AdvancedMapper) (angle : Z) cx cy ca,
      update_map_from_scan self [(angle, 85%R)] cx cy ca = Ok (self, 0)).
Proof.
  assert (forall (angle : Z) (distance : R) cx cy ca acc,
             dropped distance = true ->
             scan_body cx cy ca acc (angle, distance) = Ok acc) as Hbody.
  { intros angle distance cx cy ca [self k] Hdrop. unfold scan_body. by rewrite Hdrop. }
  split.
  - intros self angle distance Hdrop%dropped_true. split; [|split].
    + intros cx cy ca k. by apply Hbody.
    + intros cx cy ca. unfold update_map_from_scan. cbn [scan_loop]. by rewrite Hbody.
    + intros before after cx cy ca. unfold update_map_from_scan.
      rewrite !scan_loop_app.
      destruct (scan_loop _ _ _ _ before) as [acc| |]; [|reflexivity|reflexivity].
      cbn [mbind outcome_bind scan_loop]. by rewrite Hbody.
  - intros self angle cx cy ca. unfold update_map_from_scan. cbn [scan_loop].
    rewrite Hbody; [reflexivity|]. apply dropped_true.
    unfold MAX_DISTANCE, OBSTACLE_THRESHOLD. lra.
Qed.

Lemma drop_zone_skips_sample_witness :
  update_map_from_scan (F64 := exact_arithmetic) small_mapper
    [(0, 1%R); (45, 85%R); (90, 1%R)] None None None =
  update_map_from_scan (F64 := exact_arithmetic) small_mapper
    [(0, 1%R); (90, 1%R)] None None None.
Proof.
  refine (proj2 (proj2 (proj1 (drop_zone_skips_sample (F64 := exact_arithmetic))
                          small_mapper 45 85%R _))
            [(0, 1%R)] [(90, 1%R)] None None None).
  right. right. unfold OBSTACLE_THRESHOLD. lra.
Defined.

(** C7.  Updating twice with the same scan from the same pose.  Whatever
    the array, when the first run returns, the second run returns the
    mapper the first one produced, unchanged, and counts no new obstacle.
    On a well-formed mapper the first run does return. *)
Theorem update_map_from_scan_idempotent {F64 : Float64} :
  (forall (self self1 : AdvancedMapper) (scan_data : list (Z * R))
          (cx cy ca : option Z) (k : Z),
      update_map_from_scan self scan_data cx cy ca = Ok (self1, k) ->
      update_map_from_scan self1 scan_data cx cy ca = Ok (self1, 0)) /\
  (forall (self : AdvancedMapper) (scan_data : list (Z * R)) (cx cy ca : option Z),
      wf_mapper self ->
      exists self1 k, update_map_from_scan self scan_data cx cy ca = Ok (self1, k)).
Proof.
  split.
  - intros self self1 scan_data cx cy ca k Hrun.
    destruct (update_map_from_scan_grows _ _ _ _ _ _ _ Hrun) as (Hself1 & _ & Hset).
    rewrite Hself1 at 1. unfold update_map_from_scan. rewrite scan_loop_hits.
    cbn [map_size occupancy_map car_x car_y car_angle with_map].
    change (hit_of (with_map self (occupancy_map self1))) with (hit_of self).
    rewrite apply_hits_settled by exact Hset. cbn [mbind outcome_bind fst snd].
    change (with_map (with_map self (occupancy_map self1)) (occupancy_map self1))
      with (with_map self (occupancy_map self1)).
    by rewrite <- Hself1.
  - intros self scan_data cx cy ca Hwf.
    destruct (update_map_from_scan_square self scan_data cx cy ca Hwf)
      as (g' & k & Hrun & _).
    by exists (with_map self g'), k.
Qed.

Lemma update_map_from_scan_idempotent_witness :
  exists self1 k,
    update_map_from_scan (F64 := exact_arithmetic) small_mapper
      [(0, 1%R); (90, 85%R)] None None None = Ok (self1, k) /\
    update_map_from_scan (F64 := exact_arithmetic) self1
      [(0, 1%R); (90, 85%R)] None None None = Ok (self1, 0).
Proof.
  destruct (proj2 (update_map_from_scan_idempotent (F64 := exact_arithmetic)) small_mapper
              [(0, 1%R); (90, 85%R)] None None None small_mapper_wf) as (self1 & k & Hrun).
  exists self1, k. split; [exact Hrun|].
  exact (proj1 (update_map_from_scan_idempotent (F64 := exact_arithmetic))
           _ _ _ _ _ _ _ Hrun).
Defined.

(** C8.  Saving and loading.  On a well-formed mapper whose map holds
    [int8] cells, whatever their mix, what [save_map] writes is read back
    by [load_map], into any mapper, as the same array: the same dimensions
    and the same cells.  The file written is the one named, when the name
    ends in [.npy], as the default [map.npy] does; [load_map] of the same
    name then reads it.  To any other name [np.save] appends [.npy]:
    [load_map] of the name with [.npy] reads the map, [load_map] of the
    name as it was given reads what was there before, and raises
    [FileNotFoundError] when nothing was. *)
Theorem save_then_load (self other : AdvancedMapper) (filename : string)
    (fs : gmap string (list Z)) :
  wf_mapper self -> map_size self < 4294967296 -> int8_cells (occupancy_map self) ->
  let fs' := save_map self filename fs in
  np_load (np_save (occupancy_map self)) = Ok (occupancy_map self) /\
  load_map other (npy_file filename) fs' = Ok (with_map other (occupancy_map self)) /\
  load_map self (npy_file filename) fs' = Ok self /\
  (endswith filename ".npy" = true ->
   load_map other filename fs' = Ok (with_map other (occupancy_map self))) /\
  (endswith filename ".npy" = false ->
   load_map other (filename +:+ ".npy") fs' = Ok (with_map other (occupancy_map self)) /\
   load_map other filename fs' = load_map other filename fs /\
   (fs !! filename = None -> load_map other filename fs' = Raise FileNotFoundError)).
Proof.
  intros Hwf Hsize Hcells fs'.
  pose proof (np_load_np_save (map_size self) (occupancy_map self) Hwf Hsize Hcells) as Hrt.
  assert (forall m : AdvancedMapper,
            load_map m (npy_file filename) fs' = Ok (with_map m (occupancy_map self)))
    as Hload.
  { intros m. unfold load_map, fs', save_map. rewrite lookup_insert_eq, Hrt. reflexivity. }
  split; [exact Hrt|]. split; [apply Hload|].
  split; [by rewrite Hload, with_map_id|]. split.
  - intros Hnpy. rewrite <- (npy_file_endswith filename Hnpy) at 1. apply Hload.
  - intros Hnpy. split; [rewrite <- (npy_file_append filename Hnpy); apply Hload|].
    assert (load_map other filename fs' = load_map other filename fs) as Hsame.
    { unfold load_map, fs', save_map. rewrite (npy_file_append filename Hnpy).
      rewrite lookup_insert_ne; [reflexivity|]. intros Heq. by eapply append_npy_ne. }
    split; [exact Hsame|].
    intros Hnone. rewrite Hsame. unfold load_map. by rewrite Hnone.
Qed.

(** The default name, loaded into a fresh mapper; and a name without the
    suffix. *)
Lemma save_then_load_witness :
  load_map (mapper_at 50 50 0) "map.npy" (save_map small_mapper "map.npy" ∅)
    = Ok (with_map (mapper_at 50 50 0) (occupancy_map small_mapper)) /\
  load_map (mapper_at 50 50 0) "map" (save_map small_mapper "map" ∅)
    = Raise FileNotFoundError.
Proof.
  assert (int8_cells (occupancy_map small_mapper)) as Hcells.
  { apply three_state_int8. repeat constructor; vm_compute; tauto. }
  split.
  - refine (proj1 (proj2 (proj2 (proj2 (save_then_load small_mapper (mapper_at 50 50 0)
              "map.npy" ∅ small_mapper_wf _ Hcells)))) _); reflexivity.
  - refine (proj2 (proj2 (proj2 (proj2 (proj2 (proj2 (save_then_load small_mapper
              (mapper_at 50 50 0) "map" ∅ small_mapper_wf _ Hcells)))) _)) _);
      reflexivity.
Defined.

(** C9, as the code has it.  A cell outside the map is no error for the
    mapper.  The guarded write of [mark_free_space] skips it, leaving the
    array as it is, so that [mark_free_space] succeeds between any two
    integer end points; and [update_map_from_scan] succeeds for any scan
    and pose, the hit cell it writes having been bounds-checked by
    [polar_to_cartesian].  The array itself raises [IndexError] only for an
    index outside [[-N, N)]: an index in [[-N, 0)] is counted from the end
    and written. *)
Theorem out_of_map_is_skipped {F64 : Float64} (self : AdvancedMapper) :
  wf_mapper self ->
  (forall x y, in_map (map_size self) x y = false ->
               free_cell (map_size self) (occupancy_map self) x y
               = Ok (occupancy_map self)) /\
  (forall x1 y1 x2 y2, exists self',
      mark_free_space self x1 y1 x2 y2 = Ok self' /\ wf_mapper self') /\
  (forall scan_data cx cy ca, exists self' k,
      update_map_from_scan self scan_data cx cy ca = Ok (self', k) /\ wf_mapper self') /\
  (forall a d cx cy ca x y,
      polar_to_cartesian self a d cx cy ca = Some (x, y) ->
      in_map (map_size self) x y = true) /\
  (forall x y v,
      ~ (- map_size self <= x < map_size self) \/
      ~ (- map_size self <= y < map_size self) ->
      grid_set (occupancy_map self) y x v = Raise IndexError) /\
  (forall x y v,
      - map_size self <= x < map_size self -> - map_size self <= y < map_size self ->
      exists g', grid_set (occupancy_map self) y x v = Ok g' /\
                 grid_get g' (canon (map_size self) y) (canon (map_size self) x) = Ok v).
Proof.
  intros Hwf. repeat split.
  - intros x y Hout. unfold free_cell. by rewrite Hout.
  - intros x1 y1 x2 y2. unfold mark_free_space.
    destruct (mark_free_grid_square (map_size self) (occupancy_map self) x1 y1 x2 y2 Hwf)
      as (g' & -> & Hsq & _).
    by exists (with_map self g').
  - intros scan_data cx cy ca.
    destruct (update_map_from_scan_square self scan_data cx cy ca Hwf)
      as (g' & k & Hrun & Hsq).
    by exists (with_map self g'), k.
  - intros a d cx cy ca x y. apply polar_to_cartesian_in_map.
  - intros x y v. by apply grid_set_out.
  - intros x y v Hx Hy.
    destruct (grid_set_canon (map_size self) (occupancy_map self) x y v Hwf Hx Hy)
      as [Hin ->].
    destruct (grid_set_in (map_size self) (occupancy_map self) _ _ v Hwf Hin)
      as (g' & Hset & _ & Hread & _).
    by exists g'.
Qed.

Lemma out_of_map_is_skipped_witness :
  exists self', mark_free_space small_mapper (-2) 1 1 1 = Ok self' /\ wf_mapper self'.
Proof.
  exact (proj1 (proj2 (out_of_map_is_skipped (F64 := exact_arithmetic)
                         small_mapper small_mapper_wf)) (-2) 1 1 1).
Defined.

(** Against C9 as the specification states it.  On the 3 x 3 map, the ray
    from (-2, 1) to (1, 1) starts outside: [mark_free_space] returns,
    having skipped (-2, 1) and (-1, 1) and freed (0, 1); and the array
    write at (-1, -1) is accepted and lands on the last cell. *)
Lemma out_of_map_write_does_not_fail :
  in_map 3 (-2) 1 = false /\ in_map 3 (-1) (-1) = false /\
  ray_cells (-2) 1 1 1 = [(-2, 1); (-1, 1); (0, 1)] /\
  mark_free_space small_mapper (-2) 1 1 1 =
    Ok (with_map small_mapper [[UNKNOWN; OCCUPIED; FREE];
                               [FREE; UNKNOWN; UNKNOWN];
                               [UNKNOWN; UNKNOWN; UNKNOWN]]) /\
  grid_set (occupancy_map small_mapper) (-1) (-1) FREE =
    Ok [[UNKNOWN; OCCUPIED; FREE];
        [UNKNOWN; UNKNOWN; UNKNOWN];
        [UNKNOWN; UNKNOWN; FREE]] /\
  ~ (forall (self : AdvancedMapper) (x y v : Z),
        wf_mapper self -> in_map (map_size self) x y = false ->
        exists e, grid_set (occupancy_map self) y x v = Raise e).
Proof.
  repeat split; try reflexivity.
  intros H. destruct (H small_mapper (-1) (-1) FREE small_mapper_wf eq_refl) as [e He].
  discriminate He.
Qed.

(** C10, as the code has it.  On two samples or more the densifier fails,
    with a division by zero, exactly for the steps 0 and 1.  It returns for
    every step of at least 2, and also for every negative step: the
    sub-step is then negative, no point fits between two samples, and the
    input comes back unchanged. *)
Theorem interpolate_scan_step_totality (scan_data : list (Z * R)) (step : Z) :
  (2 <= length scan_data)%nat ->
  (2 <= step -> interpolate_scan scan_data step = Ok (interpolate_spec step scan_data)) /\
  (step = 0 \/ step = 1 -> interpolate_scan scan_data step = Raise ZeroDivisionError) /\
  (step <= -1 -> interpolate_scan scan_data step = Ok scan_data).
Proof.
  intros Hlen. split; [|split].
  - intros Hstep. apply interpolate_scan_spec.
    pose proof (sub_step_pos step Hstep). lia.
  - intros Hstep. apply interpolate_scan_zero_division; [exact Hlen|].
    by apply sub_step_zero.
  - intros Hstep. pose proof (sub_step_neg step Hstep) as Hneg.
    rewrite interpolate_scan_spec by lia. f_equal. apply interpolate_spec_neg. lia.
Qed.

Lemma interpolate_scan_step_totality_witness :
  (2 <= 15 ->
   interpolate_scan [(0, 10%R); (30, 20%R)] 15 =
   Ok (interpolate_spec 15 [(0, 10%R); (30, 20%R)])) /\
  (15 = 0 \/ 15 = 1 ->
   interpolate_scan [(0, 10%R); (30, 20%R)] 15 = Raise ZeroDivisionError) /\
  (15 <= -1 -> interpolate_scan [(0, 10%R); (30, 20%R)] 15 = Ok [(0, 10%R); (30, 20%R)]).
Proof.
  apply (interpolate_scan_step_totality [(0, 10%R); (30, 20%R)] 15). simpl. lia.
Defined.

(** Against C10 as it is stated: a step of -1 is at most 1, and the
    densifier returns. *)
Lemma interpolate_scan_negative_step_returns :
  -1 <= 1 /\ (2 <= length [(0, 10%R); (30, 20%R)])%nat /\
  interpolate_scan [(0, 10%R); (30, 20%R)] (-1) = Ok [(0, 10%R); (30, 20%R)] /\
  ~ (forall (scan_data : list (Z * R)) (step : Z),
        (2 <= length scan_data)%nat -> step <= 1 ->
        interpolate_scan scan_data step = Raise ZeroDivisionError).
Proof.
  split; [lia|]. split; [simpl; lia|]. split; [reflexivity|].
  intros H. specialize (H [(0, 10%R); (30, 20%R)] (-1)).
  assert (interpolate_scan [(0, 10%R); (30, 20%R)] (-1) = Raise ZeroDivisionError) as Hbad.
  { apply H; [simpl; lia|lia]. }
  discriminate Hbad.
Qed.

(** * Further properties of the code *)

(** ** The ray of [mark_free_space] *)

(** X1.  The loop of [mark_free_space] runs once for each unit of the
    longer side of the box between the two end points: it frees the cells
    of the ray one after the other, and the ray has
    [max(|x2 - x1|, |y2 - y1|)] cells. *)
Theorem mark_free_space_ray_length (n : Z) (g : grid) (x1 y1 x2 y2 : Z) :
  mark_free_grid n g x1 y1 x2 y2 = free_cells n g (ray_cells x1 y1 x2 y2) /\
  Z.of_nat (length (ray_cells x1 y1 x2 y2)) = Z.max (Z.abs (x2 - x1)) (Z.abs (y2 - y1)).
Proof.
  split; [apply mark_free_grid_ray|].
  destruct (decide (0 < Z.abs (x2 - x1) \/ 0 < Z.abs (y2 - y1))) as [Hpos|Hzero].
  - destruct (ray_length_major x1 y1 x2 y2 (Z.to_nat (Z.abs (x2 - x1) + Z.abs (y2 - y1)))
                0 0 _ (on_line_start x1 y1 x2 y2) (near_line_start x1 y1 x2 y2 Hpos))
      as [Hx Hy]; [lia|].
    unfold ray_cells. destruct (decide (Z.abs (y2 - y1) <= Z.abs (x2 - x1))).
    + rewrite Hx by done. lia.
    + rewrite Hy by lia. lia.
  - assert (x1 = x2 /\ y1 = y2) as [-> ->] by lia.
    unfold ray_cells. rewrite !Z.sub_diag. simpl. by rewrite bool_decide_eq_true_2.
Qed.

(** X2.  Every cell [mark_free_space] visits lies within half a cell of the
    straight line through the two end points, measured along the shorter
    side: twice the cross product of the cell's offset with the direction
    of the line is at most the longer side. *)
Theorem ray_stays_near_line (x1 y1 x2 y2 : Z) (c : Z * Z) :
  c ∈ ray_cells x1 y1 x2 y2 ->
  2 * Z.abs ((c.1 - x1) * (y2 - y1) - (c.2 - y1) * (x2 - x1))
  <= Z.max (Z.abs (x2 - x1)) (Z.abs (y2 - y1)).
Proof.
  intros Hc.
  destruct (decide (0 < Z.abs (x2 - x1) \/ 0 < Z.abs (y2 - y1))) as [Hpos|Hzero]; cycle 1.
  { assert (x1 = x2 /\ y1 = y2) as [-> ->] by lia.
    rewrite ray_cells_same in Hc. by apply elem_of_nil in Hc. }
  unfold ray_cells in Hc.
  destruct (ray_near_line x1 y1 x2 y2 _ 0 0 _ c (on_line_start x1 y1 x2 y2)
              (near_line_start x1 y1 x2 y2 Hpos) Hc)
    as (a & b & Ha & Hb & [Hflat Hsteep] & ->).
  cbn [fst snd].
  set (dx := Z.abs (x2 - x1)) in *. set (dy := Z.abs (y2 - y1)) in *.
  assert (Z.abs ((x1 + (if bool_decide (x1 < x2) then 1 else -1) * a - x1) * (y2 - y1)
                 - (y1 + (if bool_decide (y1 < y2) then 1 else -1) * b - y1) * (x2 - x1))
          = Z.abs (a * dy - b * dx)) as ->.
  { unfold dx, dy. repeat case_bool_decide; nia. }
  destruct (decide (dy <= dx)) as [Hle|Hgt].
  - specialize (Hflat Hle). rewrite Z.max_l by lia. nia.
  - assert (dx <= dy) as Hle by lia. specialize (Hsteep Hle). rewrite Z.max_r by lia. nia.
Qed.

Lemma ray_stays_near_line_witness :
  (1, 0) ∈ ray_cells 0 0 3 1 /\
  2 * Z.abs ((1 - 0) * (1 - 0) - (0 - 0) * (3 - 0)) <= Z.max (Z.abs (3 - 0)) (Z.abs (1 - 0)).
Proof.
  assert ((1, 0) ∈ ray_cells 0 0 3 1) as Hc.
  { vm_compute. apply list_elem_of_further, list_elem_of_here. }
  split; [exact Hc|]. exact (ray_stays_near_line 0 0 3 1 (1, 0) Hc).
Defined.

(** X3.  The cells [mark_free_space] visits, followed by the hit cell, form
    a gap-free path: it starts at the first end point, each cell is a
    king's move (one step along a side or a diagonal) from the one before,
    and no cell comes twice. *)
Theorem ray_is_connected_path (x1 y1 x2 y2 : Z) :
  head (ray_cells x1 y1 x2 y2 ++ [(x2, y2)]) = Some (x1, y1) /\
  king_path (ray_cells x1 y1 x2 y2 ++ [(x2, y2)]) /\
  NoDup (ray_cells x1 y1 x2 y2 ++ [(x2, y2)]).
Proof.
  destruct (decide (0 < Z.abs (x2 - x1) \/ 0 < Z.abs (y2 - y1))) as [Hpos|Hzero]; cycle 1.
  { assert (x1 = x2 /\ y1 = y2) as [-> ->] by lia.
    rewrite ray_cells_same. cbn. split; [reflexivity|]. split; [exact I|].
    apply NoDup_singleton. }
  destruct (ray_king_path x1 y1 x2 y2 (Z.to_nat (Z.abs (x2 - x1) + Z.abs (y2 - y1))) 0 0
              (x1, y1, Z.abs (x2 - x1) - Z.abs (y2 - y1))
              (on_line_start x1 y1 x2 y2) (near_line_start x1 y1 x2 y2 Hpos))
    as [Hhead Hpath]; [lia|].
  split; [exact Hhead|]. split; [exact Hpath|].
  apply NoDup_app. split; [|split; [|apply NoDup_singleton]].
  - apply (ray_NoDup x1 y1 x2 y2 _ 0 0 _ (on_line_start x1 y1 x2 y2)
             (near_line_start x1 y1 x2 y2 Hpos)).
  - intros c Hc ->%list_elem_of_singleton.
    by destruct (ray_cells_box x1 y1 x2 y2 _ Hc) as (_ & _ & Hne).
Qed.

(** ** The map after a scan *)

(** X4.  What [update_map_from_scan] leaves behind, on a well-formed
    mapper, in closed form.  With [hits] the hit cells of the samples that
    pass the gate and land in the map: the call returns; the count
    returned is the number of distinct hit cells not occupied before, and
    so at most the number of samples; the map keeps its shape; and a cell
    of the map is occupied if it is a hit cell, else free if it lies on
    the ray to some hit cell and was not occupied, else as it was. *)
Theorem update_map_from_scan_closed_form {F64 : Float64} (self : AdvancedMapper)
    (scan_data : list (Z * R)) (cx cy ca : option Z) :
  wf_mapper self ->
  let car_x := default (car_x self) cx in
  let car_y := default (car_y self) cy in
  let hits := omap (hit_of self car_x car_y (default (car_angle self) ca)) scan_data in
  let found := Z.of_nat (size (new_obstacles (occupancy_map self) hits)) in
  exists g',
    update_map_from_scan self scan_data cx cy ca = Ok (with_map self g', found) /\
    0 <= found <= Z.of_nat (length scan_data) /\
    wf_mapper (with_map self g') /\
    forall x y, in_map (map_size self) x y = true ->
      grid_get g' y x =
      if bool_decide ((x, y) ∈ hits) then Ok OCCUPIED
      else if bool_decide (on_some_ray car_x car_y hits (x, y) /\
                           grid_get (occupancy_map self) y x <> Ok OCCUPIED)
           then Ok FREE else grid_get (occupancy_map self) y x.
Proof.
  intros Hwf car_x car_y hits found.
  destruct (update_map_from_scan_closed self scan_data cx cy ca Hwf) as (g' & Hrun & Hsq & Hg).
  exists g'. split; [exact Hrun|]. split; [|split; [exact Hsq|exact Hg]].
  unfold found. pose proof (size_new_obstacles_le (occupancy_map self) hits) as Hsize.
  pose proof (length_omap_le (hit_of self car_x car_y (default (car_angle self) ca)) scan_data)
    as Hhits.
  fold hits in Hhits. lia.
Qed.

Lemma update_map_from_scan_closed_form_witness :
  exists g',
    update_map_from_scan (F64 := exact_arithmetic) small_mapper
      [(0, 1%R); (90, 85%R)] None None None =
      Ok (with_map small_mapper g',
          Z.of_nat (size (new_obstacles (occupancy_map small_mapper)
                            (omap (hit_of (F64 := exact_arithmetic) small_mapper 1 1 0)
                                  [(0, 1%R); (90, 85%R)])))) /\
    wf_mapper (with_map small_mapper g').
Proof.
  destruct (update_map_from_scan_closed_form (F64 := exact_arithmetic) small_mapper
              [(0, 1%R); (90, 85%R)] None None None small_mapper_wf) as (g' & Hrun & _ & Hwf & _).
  exists g'. split; [exact Hrun|exact Hwf].
Defined.

(** X5.  The order of the samples does not matter: on a well-formed
    mapper, two scans that are permutations of each other give the same
    map and the same count. *)
Theorem update_map_from_scan_order {F64 : Float64} (self : AdvancedMapper)
    (scan_data scan_data' : list (Z * R)) (cx cy ca : option Z) :
  wf_mapper self -> scan_data ≡ₚ scan_data' ->
  update_map_from_scan self scan_data cx cy ca =
  update_map_from_scan self scan_data' cx cy ca.
Proof.
  intros Hwf Hp.
  destruct (update_map_from_scan_closed self scan_data cx cy ca Hwf) as (g1 & -> & Hsq1 & Hg1).
  destruct (update_map_from_scan_closed self scan_data' cx cy ca Hwf) as (g2 & -> & Hsq2 & Hg2).
  assert (omap (hit_of self (default (car_x self) cx) (default (car_y self) cy)
                  (default (car_angle self) ca)) scan_data
          ≡ₚ omap (hit_of self (default (car_x self) cx) (default (car_y self) cy)
                  (default (car_angle self) ca)) scan_data') as Hhits.
  { by apply omap_Permutation. }
  rewrite (new_obstacles_perm _ _ _ Hhits). do 3 f_equal.
  apply (square_ext (map_size self)); [exact Hsq1|exact Hsq2|].
  intros x y Hin. rewrite (Hg1 x y Hin), (Hg2 x y Hin).
  erewrite (bool_decide_ext (_ ∈ _)); [|by rewrite Hhits].
  erewrite (bool_decide_ext (on_some_ray _ _ _ _ /\ _));
    [reflexivity|by rewrite (on_some_ray_perm _ _ _ _ _ Hhits)].
Qed.

Lemma update_map_from_scan_order_witness :
  update_map_from_scan (F64 := exact_arithmetic) small_mapper
    [(0, 1%R); (90, 1%R)] None None None =
  update_map_from_scan (F64 := exact_arithmetic) small_mapper
    [(90, 1%R); (0, 1%R)] None None None.
Proof.
  apply (update_map_from_scan_order (F64 := exact_arithmetic) small_mapper
           [(0, 1%R); (90, 1%R)] [(90, 1%R); (0, 1%R)] None None None small_mapper_wf).
  apply perm_swap.
Defined.

(** X6.  An update is local to the car: the samples that pass the gate are
    at most [OBSTACLE_THRESHOLD] = 80 cm away, so a cell more than 80
    cells from the pose along either axis reads after the update as it did
    before.  This rests on the laws of binary64, and on a map of at most
    [2^51] rows, whose indices the floats hold exactly. *)
Theorem update_map_from_scan_local {F64 : Float64} {L : Float64Laws}
    (self self' : AdvancedMapper) (scan_data : list (Z * R)) (cx cy ca : option Z) (k : Z) :
  wf_mapper self -> map_size self <= 2 ^ 51 ->
  update_map_from_scan self scan_data cx cy ca = Ok (self', k) ->
  forall x y, in_map (map_size self) x y = true ->
    80 < Z.abs (x - default (car_x self) cx) \/ 80 < Z.abs (y - default (car_y self) cy) ->
    grid_get (occupancy_map self') y x = grid_get (occupancy_map self) y x.
Proof.
  intros Hwf HN Hrun x y Hin Hfar.
  destruct (update_map_from_scan_closed self scan_data cx cy ca Hwf) as (g' & Hrun' & _ & Hg).
  rewrite Hrun' in Hrun. injection Hrun as <- <-. cbn [occupancy_map with_map].
  rewrite (Hg x y Hin).
  set (hits := omap _ scan_data).
  assert (forall h, h ∈ hits ->
            Z.abs (h.1 - default (car_x self) cx) <= 80 /\
            Z.abs (h.2 - default (car_y self) cy) <= 80) as Hnear.
  { intros h (s & Hs & Hh)%list_elem_of_omap. by eapply hit_of_within. }
  rewrite bool_decide_eq_false_2; cycle 1.
  { intros Hhit. apply Hnear in Hhit. cbn [fst snd] in Hhit. lia. }
  rewrite bool_decide_eq_false_2; [reflexivity|].
  intros [(h & Hh & Hc)%Exists_exists _].
  apply Hnear in Hh. apply ray_cells_box in Hc. cbn [fst snd] in Hc. lia.
Qed.

Lemma update_map_from_scan_local_witness :
  exists self' k,
    update_map_from_scan (F64 := exact_arithmetic) (mapper_at 0 0 0) [(0, 10%R)]
      None None None = Ok (self', k) /\
    grid_get (occupancy_map self') 99 99 = grid_get (occupancy_map (mapper_at 0 0 0)) 99 99.
Proof.
  destruct (update_map_from_scan_square (F64 := exact_arithmetic) (mapper_at 0 0 0)
              [(0, 10%R)] None None None (mapper_at_wf 0 0 0)) as (g' & k & Hrun & _).
  exists (with_map (mapper_at 0 0 0) g'), k. split; [exact Hrun|].
  apply (update_map_from_scan_local (L := exact_arithmetic_laws) (mapper_at 0 0 0) _
           [(0, 10%R)] None None None k (mapper_at_wf 0 0 0)); [|exact Hrun|reflexivity|].
  - cbn [map_size mapper_at]. lia.
  - left. vm_compute. reflexivity.
Defined.

(** ** What interpolation keeps *)

(** X7.  [interpolate_scan] only adds samples: whenever it returns, the
    samples it was given are all in the result, in their order, and the
    result begins and ends with the samples the scan began and ended
    with. *)
Theorem interpolate_scan_keeps_samples (scan_data out : list (Z * R)) (step : Z) :
  interpolate_scan scan_data step = Ok out ->
  scan_data `sublist_of` out /\ head out = head scan_data /\ last out = last scan_data.
Proof.
  intros ->%interpolate_scan_returns.
  split; [apply interpolate_spec_sublist|].
  split; [apply interpolate_spec_head|apply interpolate_spec_last].
Qed.

Lemma interpolate_scan_keeps_samples_witness :
  [(-90, 40%R); (-75, 42%R)] `sublist_of`
    interpolate_spec SCAN_STEP [(-90, 40%R); (-75, 42%R)].
Proof.
  refine (proj1 (interpolate_scan_keeps_samples [(-90, 40%R); (-75, 42%R)] _ SCAN_STEP _)).
  apply interpolate_scan_spec. vm_compute. discriminate.
Defined.

(** X8.  Interpolation invents no distance: whenever [interpolate_scan]
    returns, bounds that hold for the distances of all the samples given,
    strict or not, hold for the distances of all the samples returned. *)
Theorem interpolate_scan_distance_bounds (scan_data out : list (Z * R)) (step : Z)
    (lo hi : R) :
  interpolate_scan scan_data step = Ok out ->
  (Forall (fun p => (lo < p.2 < hi)%R) scan_data ->
   Forall (fun p => (lo < p.2 < hi)%R) out) /\
  (Forall (fun p => (lo <= p.2 <= hi)%R) scan_data ->
   Forall (fun p => (lo <= p.2 <= hi)%R) out).
Proof.
  intros ->%interpolate_scan_returns.
  split; [apply interpolate_spec_distance|apply interpolate_spec_distance_le].
Qed.

Lemma interpolate_scan_distance_bounds_witness :
  Forall (fun p => (0 < p.2 < 100)%R) (interpolate_spec SCAN_STEP [(-90, 40%R); (-75, 42%R)]).
Proof.
  refine (proj1 (interpolate_scan_distance_bounds [(-90, 40%R); (-75, 42%R)] _ SCAN_STEP
                   0 100 _) _).
  - apply interpolate_scan_spec. vm_compute. discriminate.
  - repeat constructor; simpl; lra.
Defined.

(** ** Scanning *)

(** X9.  The raw scan.  For a non-zero step and any servo and sensor,
    [scan_environment] without interpolation returns; the list returned is
    the scan history; the servo was last sent to 0; every sample kept has
    a distance strictly between 0 and [MAX_DISTANCE]; the bearings are
    [angle_min] plus multiples of the step; and for a positive step they
    are strictly ascending and lie in [[angle_min, angle_max]]. *)
Theorem scan_environment_raw {V U : Type} `{!Servo V} `{!Ultrasonic U}
    (servo : V) (us : U) (angle_min angle_max step : Z) :
  step <> 0 ->
  exists servo' us' scan_data,
    scan_environment servo us angle_min angle_max step false
      = Ok (set_angle 0 servo', us', scan_data, scan_data) /\
    Forall valid_sample scan_data /\
    Forall (fun a => exists i, 0 <= i /\ a = angle_min + i * step) scan_data.*1 /\
    (0 < step ->
     StronglySorted Z.lt scan_data.*1 /\
     Forall (fun a => angle_min <= a <= angle_max) scan_data.*1).
Proof.
  intros Hstep.
  destruct (py_range_returns angle_min (angle_max + 1) step Hstep) as (angles & Hrange).
  destruct (scan_environment_run servo us angle_min angle_max step false angles Hrange)
    as (servo' & us' & kept & _ & Hsub & Hvalid & Hrun).
  exists servo', us', kept. split; [exact Hrun|]. split; [exact Hvalid|].
  assert (forall a, a ∈ kept.*1 -> a ∈ angles) as Hin.
  { intros a Ha. eapply elem_of_submseteq; [exact Ha|]. by apply sublist_submseteq. }
  split.
  - apply Forall_forall. intros a Ha%Hin.
    destruct (py_range_elements _ _ _ _ a Hrange Ha) as (i & Hi & -> & _). eauto.
  - intros Hpos. split.
    + eapply sublist_StronglySorted; [exact Hsub|].
      by apply (py_range_sorted _ _ _ _ Hrange).
    + apply Forall_forall. intros a Ha%Hin.
      destruct (py_range_elements _ _ _ _ a Hrange Ha) as (i & Hi & -> & Hlt & _).
      specialize (Hlt Hpos). nia.
Qed.

Lemma scan_environment_raw_witness :
  exists servo' us' scan_data,
    scan_environment mock_servo (mock_ultrasonic (fun _ => 0)) (-90) 90 SCAN_STEP false
      = Ok (set_angle 0 servo', us', scan_data, scan_data) /\
    Forall valid_sample scan_data.
Proof.
  destruct (scan_environment_raw mock_servo (mock_ultrasonic (fun _ => 0)) (-90) 90 SCAN_STEP)
    as (servo' & us' & scan_data & Hrun & Hvalid & _); [unfold SCAN_STEP; lia|].
  exists servo', us', scan_data. split; [exact Hrun|exact Hvalid].
Defined.

(** X10.  The interpolated scan.  For a step of at least 2,
    [scan_environment] with interpolation returns; the history it stores
    is the raw scan, which the list returned contains in order; and the
    list returned still has only distances strictly between 0 and
    [MAX_DISTANCE], bearings in ascending order, and no bearing outside
    [[angle_min, angle_max]]. *)
Theorem scan_environment_interpolated {V U : Type} `{!Servo V} `{!Ultrasonic U}
    (servo : V) (us : U) (angle_min angle_max step : Z) :
  2 <= step ->
  exists servo' us' scan_history scan_data,
    scan_environment servo us angle_min angle_max step true
      = Ok (set_angle 0 servo', us', scan_history, scan_data) /\
    scan_environment servo us angle_min angle_max step false
      = Ok (set_angle 0 servo', us', scan_history, scan_history) /\
    scan_history `sublist_of` scan_data /\
    Forall valid_sample scan_data /\
    StronglySorted Z.le scan_data.*1 /\
    Forall (fun a => angle_min <= a <= angle_max) scan_data.*1.
Proof.
  intros Hstep.
  destruct (py_range_returns angle_min (angle_max + 1) step) as (angles & Hrange); [lia|].
  destruct (scan_environment_run servo us angle_min angle_max step true angles Hrange)
    as (servo' & us' & kept & Hloop & Hsub & Hvalid & Hrun).
  destruct (scan_environment_run servo us angle_min angle_max step false angles Hrange)
    as (servo2 & us2 & kept2 & Hloop2 & _ & _ & Hraw).
  rewrite Hloop in Hloop2. injection Hloop2 as <- <- <-.
  rewrite interpolate_scan_spec in Hrun by (pose proof (sub_step_pos step Hstep); lia).
  exists servo', us', kept, (interpolate_spec step kept).
  split; [exact Hrun|]. split; [exact Hraw|].
  split; [apply interpolate_spec_sublist|].
  assert (forall a, a ∈ kept.*1 -> a ∈ angles) as Hin.
  { intros a Ha. eapply elem_of_submseteq; [exact Ha|]. by apply sublist_submseteq. }
  split; [|split].
  - by apply (interpolate_spec_distance step kept 0 MAX_DISTANCE).
  - apply interpolate_spec_sorted_le; [exact Hstep|]. apply StronglySorted_lt_le.
    eapply sublist_StronglySorted; [exact Hsub|].
    apply (py_range_sorted _ _ _ _ Hrange). lia.
  - apply interpolate_spec_bearing_range; [exact Hstep|].
    apply Forall_forall. intros a Ha%Hin.
    destruct (py_range_elements _ _ _ _ a Hrange Ha) as (i & Hi & -> & Hlt & _).
    assert (0 < step) as Hpos by lia. specialize (Hlt Hpos). nia.
Qed.

Lemma scan_environment_interpolated_witness :
  exists servo' us' scan_history scan_data,
    scan_environment mock_servo (mock_ultrasonic (fun _ => 0)) (-90) 90 SCAN_STEP true
      = Ok (set_angle 0 servo', us', scan_history, scan_data) /\
    scan_history `sublist_of` scan_data.
Proof.
  destruct (scan_environment_interpolated mock_servo (mock_ultrasonic (fun _ => 0))
              (-90) 90 SCAN_STEP)
    as (servo' & us' & scan_history & scan_data & Hrun & _ & Hsub & _);
    [unfold SCAN_STEP; lia|].
  exists servo', us', scan_history, scan_data. split; [exact Hrun|exact Hsub].
Defined.

(** X11.  The steps that do not scan.  A zero step raises [ValueError],
    from [range].  A negative step, with
    [angle_min] not above [angle_max + 1], sweeps no bearing at all: the
    call returns the empty scan, having only sent the servo to 0.  And a
    step of 1 with interpolation raises [ZeroDivisionError] as soon as the
    raw scan has two samples, and returns the raw scan when it has fewer. *)
Theorem scan_environment_degenerate_steps {V U : Type} `{!Servo V} `{!Ultrasonic U}
    (servo : V) (us : U) (angle_min angle_max : Z) :
  (forall interpolate,
      scan_environment servo us angle_min angle_max 0 interpolate = Raise ValueError) /\
  (forall step interpolate,
      step < 0 -> angle_min <= angle_max + 1 ->
      scan_environment servo us angle_min angle_max step interpolate
        = Ok (set_angle 0 servo, us, [], [])) /\
  (forall servo' us' scan_history,
      scan_environment servo us angle_min angle_max 1 false
        = Ok (servo', us', scan_history, scan_history) ->
      scan_environment servo us angle_min angle_max 1 true =
        if bool_decide (2 <= length scan_history)%nat then Raise ZeroDivisionError
        else Ok (servo', us', scan_history, scan_history)).
Proof.
  split; [reflexivity|]. split.
  - intros step interpolate Hstep Hle. unfold scan_environment.
    rewrite py_range_empty by done. cbn [mbind outcome_bind fold_left].
    by destruct interpolate.
  - intros servo' us' scan_history Hraw.
    destruct (py_range_returns angle_min (angle_max + 1) 1) as (angles & Hrange); [lia|].
    destruct (scan_environment_run servo us angle_min angle_max 1 false angles Hrange)
      as (servo1 & us1 & kept & Hloop & _ & _ & Hrun).
    destruct (scan_environment_run servo us angle_min angle_max 1 true angles Hrange)
      as (servo2 & us2 & kept2 & Hloop2 & _ & _ & Hrun2).
    rewrite Hloop in Hloop2. injection Hloop2 as <- <- <-.
    rewrite Hrun in Hraw. cbn [mbind outcome_bind] in Hraw. injection Hraw as <- <- <-.
    rewrite Hrun2. case_bool_decide as Hlen.
    + by rewrite interpolate_scan_zero_division.
    + rewrite interpolate_scan_short by lia. reflexivity.
Qed.

Lemma scan_environment_degenerate_steps_witness :
  scan_environment mock_servo (mock_ultrasonic (fun _ => 0)) (-90) 90 (-15) true
    = Ok (set_angle 0 mock_servo, mock_ultrasonic (fun _ => 0), [], []).
Proof.
  apply (proj1 (proj2 (scan_environment_degenerate_steps mock_servo
                         (mock_ultrasonic (fun _ => 0)) (-90) 90))); lia.
Defined.
(** X12.  Scanning with the mock hardware.  [random.randint(-3, 3)] giving
    draws in [[-3, 3]], the mock sensor reads at least 5.  With a base
    distance of at most 96 every bearing of the sweep is kept, with the
    reading [max(5, base + noise)] of its draw; with a base distance of at
    least 103 no sample is kept, whatever the interpolation flag.  Either
    way the sensor has made one draw a bearing and the servo is back
    at 0. *)
Theorem mock_scan (servo : MockServo) (us : MockUltrasonic)
    (angle_min angle_max step : Z) (angles : list Z) :
  (forall i, -3 <= draws us i <= 3) ->
  py_range angle_min (angle_max + 1) step = Ok angles ->
  let us' := {| us_distance := us_distance us; base_distance := base_distance us;
                draws := draws us; drawn := (drawn us + length angles)%nat |} in
  let readings :=
    imap (fun i angle =>
            (angle, IZR (Z.max 5 (base_distance us + draws us (drawn us + i)%nat)))) angles in
  Forall (fun p => (5 <= p.2)%R) readings /\
  (base_distance us <= 96 ->
   scan_environment servo us angle_min angle_max step false
     = Ok ({| servo_angle := 0 |}, us', readings, readings)) /\
  (103 <= base_distance us ->
   forall interpolate,
     scan_environment servo us angle_min angle_max step interpolate
       = Ok ({| servo_angle := 0 |}, us', [], [])).
Proof.
  intros Hdraws Hrange us' readings.
  destruct (mock_scan_loop angles servo us []) as (servo' & Hloop). rewrite app_nil_l in Hloop.
  fold us' readings in Hloop.
  assert (forall p, p ∈ readings ->
            exists i, p.2 = IZR (Z.max 5 (base_distance us + draws us i))) as Hread.
  { intros p (i & a & -> & _)%elem_of_lookup_imap. simpl. eauto. }
  split; [|split].
  - apply Forall_forall. intros p (i & ->)%Hread. apply IZR_le. lia.
  - intros Hbase. unfold scan_environment. rewrite Hrange. cbn [mbind outcome_bind].
    rewrite Hloop. rewrite filter_all; [reflexivity|].
    apply Forall_forall. intros p (i & ->)%Hread. unfold MAX_DISTANCE.
    apply IZR_lt. pose proof (Hdraws i). lia.
  - intros Hbase interpolate. unfold scan_environment. rewrite Hrange.
    cbn [mbind outcome_bind]. rewrite Hloop.
    assert (filter (fun p : Z * R => (p.2 < MAX_DISTANCE)%R) readings = []) as ->.
    { apply filter_none, Forall_forall. intros p (i & ->)%Hread. unfold MAX_DISTANCE.
      apply Rle_not_lt, IZR_le. pose proof (Hdraws i). lia. }
    by destruct interpolate.
Qed.

Lemma mock_scan_witness :
  scan_environment mock_servo (mock_ultrasonic (fun _ => 0)) (-90) 90 90 false
    = Ok (mock_servo,
          {| us_distance := 100; base_distance := 50; draws := fun _ => 0; drawn := 3 |},
          [(-90, 50%R); (0, 50%R); (90, 50%R)], [(-90, 50%R); (0, 50%R); (90, 50%R)]) /\
  scan_environment mock_servo (set_base_distance (mock_ultrasonic (fun _ => 0)) 200)
                   (-90) 90 90 true
    = Ok (mock_servo,
          {| us_distance := 100; base_distance := 200; draws := fun _ => 0; drawn := 3 |},
          [], []).
Proof.
  split.
  - refine (proj1 (proj2 (mock_scan mock_servo (mock_ultrasonic (fun _ => 0)) (-90) 90 90
                            [-90; 0; 90] _ _)) _).
    + intros i. cbn [draws mock_ultrasonic]. lia.
    + reflexivity.
    + cbn [base_distance mock_ultrasonic]. lia.
  - refine (proj2 (proj2 (mock_scan mock_servo
                            (set_base_distance (mock_ultrasonic (fun _ => 0)) 200)
                            (-90) 90 90 [-90; 0; 90] _ _)) _ true).
    + intros i. cbn [draws mock_ultrasonic set_base_distance]. lia.
    + reflexivity.
    + cbn [base_distance mock_ultrasonic set_base_distance]. lia.
Defined.

(** ** The picture *)

(** X13.  [visualize_map] on a well-formed mapper: it returns; it prints
    one line a row, each of
    [map_size + 2] characters; the obstacle and free counts of its summary
    are the numbers of occupied and of free cells among those drawn with
    their state, the car's cell being left out when the car is shown; and
    the three counts add up to all cells but that one. *)
Theorem visualize_map_counts (self : AdvancedMapper) (show_car : bool) :
  wf_mapper self ->
  let n := map_size self in
  let cells := drawn_map self show_car (seqZ 0 n) in
  exists lines unknown,
    visualize_map self show_car =
      Ok (lines, tally (occupancy_map self) OCCUPIED cells,
          tally (occupancy_map self) FREE cells, unknown) /\
    length lines = Z.to_nat n /\
    Forall (fun line => String.length line = (Z.to_nat n + 2)%nat) lines /\
    0 <= unknown /\
    tally (occupancy_map self) OCCUPIED cells + tally (occupancy_map self) FREE cells
      + unknown
    = n * n - (if show_car && in_map n (car_x self) (car_y self) then 1 else 0).
Proof. apply visualize_map_wf. Qed.

Lemma visualize_map_counts_witness :
  exists lines unknown,
    visualize_map small_mapper true = Ok (lines, 1, 1, unknown) /\
    1 + 1 + unknown = 3 * 3 - 1.
Proof.
  destruct (visualize_map_counts small_mapper true small_mapper_wf)
    as (lines & unknown & Hrun & _ & _ & _ & Hsum).
  exists lines, unknown. split; [exact Hrun|exact Hsum].
Defined.

(** ** The pose *)

(** X14.  Turning on the spot.  With no forward distance,
    [update_car_position] only changes the heading, so two turns amount to
    one turn by the sum of the angles, and a turn by a multiple of 360
    degrees gives back a mapper whose heading was in [[0, 360)]. *)
Theorem update_car_position_turns {F64 : Float64} (self : AdvancedMapper) (d1 d2 : R) (a b : Z) :
  (d1 <= 0)%R -> (d2 <= 0)%R ->
  update_car_position (update_car_position self d1 a) d2 b
    = update_car_position self d1 (a + b) /\
  (0 <= car_angle self < 360 ->
   forall k, update_car_position self d1 (360 * k) = self).
Proof.
  intros Hd1 Hd2. rewrite !update_car_position_turn by done.
  cbn [map_size map_center occupancy_map car_x car_y car_angle]. split.
  - f_equal. rewrite Zplus_mod_idemp_l. f_equal. lia.
  - intros Hheading k. rewrite update_car_position_turn by done.
    destruct self as [n c g x y h].
    cbn [map_size map_center occupancy_map car_x car_y car_angle] in *. f_equal.
    rewrite (Z.mul_comm 360 k), Z_mod_plus_full. by apply Z.mod_small.
Qed.

Lemma update_car_position_turns_witness :
  update_car_position (F64 := exact_arithmetic)
    (update_car_position (F64 := exact_arithmetic) (mapper_at 50 50 0) 0 270) 0 180
    = update_car_position (F64 := exact_arithmetic) (mapper_at 50 50 0) 0 (270 + 180).
Proof.
  apply (proj1 (update_car_position_turns (F64 := exact_arithmetic)
                  (mapper_at 50 50 0) 0 0 270 180
                  (Rle_refl 0) (Rle_refl 0))).
Defined.

(** ** A new map *)

(** X15.  [__init__] and [clear_map].  A negative size makes both raise
    [ValueError], from [np.full].  Otherwise [__init__] returns a
    well-formed mapper, every cell of its map unknown, heading 0, the car
    at [(n // 2, n // 2)], a cell of the map as soon as there is one; and
    [clear_map] gives any mapper of that size, whatever its map was, the
    map of a new one, leaving the pose alone. *)
Theorem init_and_clear_map (n : Z) :
  (n < 0 ->
   init n = Raise ValueError /\
   forall self, map_size self = n -> clear_map self = Raise ValueError) /\
  (0 <= n ->
   exists self0,
     init n = Ok self0 /\ wf_mapper self0 /\ map_size self0 = n /\
     (forall x y, in_map n x y = true -> grid_get (occupancy_map self0) y x = Ok UNKNOWN) /\
     (car_x self0, car_y self0, car_angle self0) = (n / 2, n / 2, 0) /\
     (1 <= n -> in_map n (car_x self0) (car_y self0) = true) /\
     (forall self, map_size self = n ->
                   clear_map self = Ok (with_map self (occupancy_map self0)))).
Proof.
  split.
  - intros Hneg. unfold init, clear_map, np_full.
    rewrite bool_decide_eq_true_2 by done. split; [reflexivity|].
    intros self ->. by rewrite bool_decide_eq_true_2.
  - intros Hn. unfold init, clear_map, np_full. rewrite bool_decide_eq_false_2 by lia.
    cbn [mbind outcome_bind]. eexists. split; [reflexivity|].
    cbn [map_size occupancy_map car_x car_y car_angle].
    split; [by apply square_replicate|]. split; [reflexivity|].
    split; [intros x y Hin; by apply grid_get_replicate|]. split; [reflexivity|]. split.
    + intros Hpos. unfold in_map.
      pose proof (Z.div_pos n 2). pose proof (Z.div_lt_upper_bound n 2 n).
      rewrite !bool_decide_eq_true_2 by lia. reflexivity.
    + intros self ->. rewrite bool_decide_eq_false_2 by lia. reflexivity.
Qed.

Lemma init_and_clear_map_witness :
  exists self0,
    init 3 = Ok self0 /\ wf_mapper self0 /\
    clear_map small_mapper = Ok (with_map small_mapper (occupancy_map self0)).
Proof.
  destruct (proj2 (init_and_clear_map 3)) as (self0 & Hinit & Hwf & _ & _ & _ & _ & Hclear);
    [lia|].
  exists self0. split; [exact Hinit|]. split; [exact Hwf|]. by apply Hclear.
Defined.

(** ** Ray casting, again *)

(** X16.  Freeing the same ray twice changes nothing the second time:
    whatever the map, when [mark_free_space] returns, the same call on the
    result returns that result. *)
Theorem mark_free_space_idempotent (self self' : AdvancedMapper) (x1 y1 x2 y2 : Z) :
  mark_free_space self x1 y1 x2 y2 = Ok self' ->
  mark_free_space self' x1 y1 x2 y2 = Ok self'.
Proof.
  unfold mark_free_space. rewrite mark_free_grid_ray.
  destruct (free_cells _ _ _) as [g'| |] eqn:Hrun; try discriminate.
  cbn [mbind outcome_bind]. intros [= <-]. cbn [map_size occupancy_map with_map].
  rewrite mark_free_grid_ray.
  destruct (free_cells_grows _ _ _ _ Hrun) as [_ Hcells].
  by rewrite (free_cells_settled _ _ _ Hcells).
Qed.

Lemma mark_free_space_idempotent_witness :
  exists self',
    mark_free_space small_mapper 0 2 2 0 = Ok self' /\
    mark_free_space self' 0 2 2 0 = Ok self'.
Proof.
  destruct (mark_free_grid_square 3 (occupancy_map small_mapper) 0 2 2 0 small_mapper_wf)
    as (g' & Hrun & _).
  assert (mark_free_space small_mapper 0 2 2 0 = Ok (with_map small_mapper g')) as Hfirst.
  { unfold mark_free_space. cbn [map_size small_mapper]. by rewrite Hrun. }
  exists (with_map small_mapper g'). split; [exact Hfirst|].
  exact (mark_free_space_idempotent small_mapper _ 0 2 2 0 Hfirst).
Defined.

(** ** The reach of a reading *)

(** X17.  A reading of [d] centimetres, [d] at most [m], lands at most [m]
    cells from the pose along each axis, whatever the bearing and the
    heading; and a reading of 0 lands on the cell of the pose, when that
    cell is in the map.  This rests on the laws of binary64, and on a map
    of at most [2^51] rows and a bound [m] of at most [2^51], which the
    floats hold exactly. *)
Theorem polar_to_cartesian_reach {F64 : Float64} {L : Float64Laws}
    (self : AdvancedMapper) (angle : Z) (d : R) (cx cy ca : option Z) (m : Z) :
  map_size self <= 2 ^ 51 ->
  (forall x y,
      m <= 2 ^ 51 -> (0 <= d <= IZR m)%R ->
      polar_to_cartesian self angle d cx cy ca = Some (x, y) ->
      Z.abs (x - default (car_x self) cx) <= m /\
      Z.abs (y - default (car_y self) cy) <= m) /\
  (in_map (map_size self) (default (car_x self) cx) (default (car_y self) cy) = true ->
   polar_to_cartesian self angle 0 cx cy ca
     = Some (default (car_x self) cx, default (car_y self) cy)).
Proof.
  intros HN. split.
  - intros x y Hm Hd Hhit. by eapply polar_to_cartesian_within.
  - intros Hin. by apply polar_to_cartesian_0.
Qed.

Lemma polar_to_cartesian_reach_witness :
  polar_to_cartesian (F64 := exact_arithmetic) (mapper_at 50 50 0) 0 10 None None None
    = Some (60, 50) /\
  Z.abs (60 - 50) <= 10 /\ Z.abs (50 - 50) <= 10.
Proof.
  pose proof (polar_to_cartesian_ahead (L := exact_arithmetic_laws)) as Hhit.
  split; [exact Hhit|].
  apply (proj1 (polar_to_cartesian_reach (L := exact_arithmetic_laws)
                  (mapper_at 50 50 0) 0 10 None None None 10 ltac:(cbn; lia)) 60 50);
    [lia|split; lra|exact Hhit].
Defined.

(** ** The picture and the update together *)

(** X18.  The summary of the picture follows the update.  On a well-formed
    mapper, [visualize_map] returns before and after an
    [update_map_from_scan]; the obstacle count of the second picture is
    that of the first plus the count the update returned, exactly when the
    car is hidden and at most one less when it is shown, the car's cell
    having been hit; the cells known, occupied or free, are no fewer, and
    the unknown ones no more. *)
Theorem picture_after_update {F64 : Float64} (self self' : AdvancedMapper) (scan_data : list (Z * R))
    (cx cy ca : option Z) (k : Z) (show_car : bool) :
  wf_mapper self ->
  update_map_from_scan self scan_data cx cy ca = Ok (self', k) ->
  exists lines o f u lines' o' f' u',
    visualize_map self show_car = Ok (lines, o, f, u) /\
    visualize_map self' show_car = Ok (lines', o', f', u') /\
    o' <= o + k <= o' + (if show_car then 1 else 0) /\
    o + f <= o' + f' /\ u' <= u.
Proof.
  intros Hwf Hrun.
  destruct (tally_after_update self self' scan_data cx cy ca k show_car Hwf Hrun)
    as (Hle & Hge & Hknown).
  destruct (update_map_from_scan_square self scan_data cx cy ca Hwf) as (g' & k' & Hrun' & Hsq).
  rewrite Hrun' in Hrun. injection Hrun as <- <-. cbn [occupancy_map with_map] in *.
  destruct (visualize_map_wf self show_car Hwf) as (lines & u & Hpic & _ & _ & _ & Hsum).
  destruct (visualize_map_wf (with_map self g') show_car Hsq)
    as (lines' & u' & Hpic' & _ & _ & _ & Hsum').
  cbn [occupancy_map with_map map_size car_x car_y] in Hpic', Hsum'.
  change (drawn_map (with_map self g') show_car) with (drawn_map self show_car) in Hpic', Hsum'.
  eexists lines, _, _, u, lines', _, _, u'.
  split; [exact Hpic|]. split; [exact Hpic'|]. split; [lia|]. split; [exact Hknown|lia].
Qed.

Lemma picture_after_update_witness :
  exists self' k lines o f u lines' o' f' u',
    update_map_from_scan (F64 := exact_arithmetic) small_mapper [(0, 1%R)] None None None
      = Ok (self', k) /\
    visualize_map small_mapper false = Ok (lines, o, f, u) /\
    visualize_map self' false = Ok (lines', o', f', u') /\
    o' <= o + k <= o' + 0.
Proof.
  destruct (update_map_from_scan_square (F64 := exact_arithmetic) small_mapper [(0, 1%R)]
              None None None small_mapper_wf) as (g' & k & Hrun & _).
  destruct (picture_after_update (F64 := exact_arithmetic) small_mapper _ [(0, 1%R)]
              None None None k false
              small_mapper_wf Hrun)
    as (lines & o & f & u & lines' & o' & f' & u' & Hpic & Hpic' & Hcount & _).
  exists (with_map small_mapper g'), k, lines, o, f, u, lines', o', f', u'.
  split; [exact Hrun|]. split; [exact Hpic|]. split; [exact Hpic'|exact Hcount].
Defined.

(** ** The test run *)

(** X19.  [test_mapping] returns, whatever the servo and the sensor do: the
    scan with the default step of 15 cannot fail in the interpolation, the
    update of the new 100 x 100 map cannot leave it, and the picture can
    be drawn.  The mapper it returns is well formed, the car still at
    (50, 50) heading 0; the servo was last sent to 0; the picture has 100
    lines; its three counts add up to the 9999 cells other than the car's;
    and its obstacle count is the count the update returned, or one less
    when the car's own cell was hit. *)
Theorem test_mapping_returns {F64 : Float64} {V U : Type} `{!Servo V} `{!Ultrasonic U}
    (servo : V) (us : U) :
  exists mapper servo' us' obstacles_found lines o f u,
    test_mapping servo us =
      Ok (mapper, (set_angle 0 servo', us'), obstacles_found, (lines, o, f, u)) /\
    wf_mapper mapper /\ map_size mapper = MAP_SIZE /\
    (car_x mapper, car_y mapper, car_angle mapper) = (50, 50, 0) /\
    length lines = 100%nat /\
    o + f + u = 9999 /\
    o <= obstacles_found <= o + 1.
Proof.
  unfold test_mapping. rewrite init_default. cbn [mbind outcome_bind].
  destruct (scan_environment_default servo us SCAN_ANGLE_MIN SCAN_ANGLE_MAX)
    as (servo' & us' & scan_history & ->).
  cbn [mbind outcome_bind].
  set (scan_data := interpolate_spec SCAN_STEP scan_history).
  pose proof (mapper_at_wf 50 50 0) as Hwf.
  destruct (update_map_from_scan_square (mapper_at 50 50 0) scan_data None None None Hwf)
    as (g' & k & Hrun & Hsq).
  rewrite Hrun. cbn [mbind outcome_bind].
  destruct (tally_after_update _ _ scan_data None None None k true Hwf Hrun)
    as (Hle & Hge & _).
  assert (tally (occupancy_map (mapper_at 50 50 0)) OCCUPIED
            (drawn_map (mapper_at 50 50 0) true (seqZ 0 (map_size (mapper_at 50 50 0)))) = 0)
    as Hnone.
  { apply tally_none, Forall_forall. intros c Hc%drawn_map_in_map.
    change (occupancy_map (mapper_at 50 50 0))
      with (replicate (Z.to_nat 100) (replicate (Z.to_nat 100) UNKNOWN)).
    by rewrite (grid_get_replicate 100 UNKNOWN c.1 c.2 Hc). }
  rewrite Hnone in Hle, Hge. cbn [occupancy_map with_map] in Hle, Hge.
  destruct (visualize_map_wf (with_map (mapper_at 50 50 0) g') true Hsq)
    as (lines & u & Hpic & Hlines & _ & _ & Hsum).
  cbn [occupancy_map with_map map_size car_x car_y mapper_at] in Hpic, Hsum, Hlines.
  change (drawn_map (with_map (mapper_at 50 50 0) g') true)
    with (drawn_map (mapper_at 50 50 0) true) in Hpic, Hsum.
  cbn [map_size mapper_at] in Hle, Hge.
  rewrite Hpic. cbn [mbind outcome_bind].
  eexists _, servo', us', k, lines, _, _, u. split; [reflexivity|].
  split; [exact Hsq|]. split; [reflexivity|]. split; [reflexivity|].
  split; [exact Hlines|]. split; [exact Hsum|]. lia.
Qed.

(** ** Interpolation bridges the readings a sweep dropped *)

(** X21.  For a step of at least 2 that the sub-step [min(5, step // 2)]
    divides, as the default 15 is by 5, the interpolated scan has exactly
    one sample every sub-step from the first bearing kept to the last one
    kept: a bearing whose reading was invalid and skipped by the sweep is
    given interpolated samples all the same, when valid readings were
    taken on both sides of it. *)
Theorem scan_environment_fills_gaps {V U : Type} `{!Servo V} `{!Ultrasonic U}
    (servo servo' : V) (us us' : U) (angle_min angle_max step : Z)
    (scan_history scan_data : list (Z * R)) (first final : Z) :
  2 <= step -> step mod Z.min 5 (step / 2) = 0 ->
  scan_environment servo us angle_min angle_max step true
    = Ok (servo', us', scan_history, scan_data) ->
  head scan_history.*1 = Some first -> last scan_history.*1 = Some final ->
  scan_data.*1 = every (Z.min 5 (step / 2)) first final.
Proof.
  intros Hstep Hdiv Hscan Hfirst Hfinal. fold (sub_step step) in Hdiv |- *.
  pose proof (sub_step_pos step Hstep) as Hs.
  destruct (py_range_returns angle_min (angle_max + 1) step) as (angles & Hrange); [lia|].
  destruct (scan_environment_run servo us angle_min angle_max step true angles Hrange)
    as (servo1 & us1 & kept & _ & Hsub & _ & Hrun).
  rewrite Hrun, interpolate_scan_spec in Hscan by lia.
  cbn [mbind outcome_bind] in Hscan. injection Hscan as _ _ <- <-.
  refine (proj2 (interpolate_spec_every step angle_min kept _ _ _ first final Hfirst Hfinal));
    [lia| |].
  - eapply sublist_StronglySorted; [exact Hsub|].
    apply (py_range_sorted _ _ _ _ Hrange). lia.
  - apply Forall_forall. intros a Ha.
    assert (a ∈ angles) as Hin.
    { eapply elem_of_submseteq; [exact Ha|]. by apply sublist_submseteq. }
    destruct (py_range_elements _ _ _ _ a Hrange Hin) as (i & _ & -> & _).
    apply Z.mod_divide in Hdiv as [m Hm]; [|lia].
    apply Z.mod_divide; [lia|]. exists (i * m). lia.
Qed.

Lemma scan_environment_fills_gaps_witness :
  (interpolate_spec 90 [(-90, 50%R); (0, 50%R); (90, 50%R)]).*1 = every 5 (-90) 90.
Proof.
  refine (scan_environment_fills_gaps mock_servo mock_servo
            (mock_ultrasonic (fun _ => 0))
            {| us_distance := 100; base_distance := 50; draws := fun _ => 0; drawn := 3 |}
            (-90) 90 90 [(-90, 50%R); (0, 50%R); (90, 50%R)] _ (-90) 90 _ _ _ _ _).
  - lia.
  - reflexivity.
  - rewrite (mock_scan_in_range mock_servo (mock_ultrasonic (fun _ => 0)) (-90) 90 90 true
               [-90; 0; 90]).
    + cbv zeta. rewrite interpolate_scan_spec by (vm_compute; discriminate). reflexivity.
    + intros i. cbn [draws mock_ultrasonic]. lia.
    + cbn [base_distance mock_ultrasonic]. lia.
    + reflexivity.
  - reflexivity.
  - reflexivity.
Defined.
